(** * Nerdbot: the multi-provider AI gateway and the image resolver

    A shallow embedding of [convex/lib/ai.ts] (the provider adapters, the
    tool-call loop and the gateway facade [generateResponse]) and of the
    image resolver [fetchImageForModel] of [convex/telegram.ts] together with
    the two Telegram file helpers it calls. Around them: the rest of the
    Telegram client ([convex/lib/telegramApi.ts]), the issue-tracker client
    ([convex/lib/github.ts]), the environment readers ([convex/lib/env.ts]),
    the logger ([convex/lib/logger.ts]) and, of [convex/telegram.ts], the
    base64 helper, the classifier of upstream failures and the action
    [registerWebhook].

    Conventions of the embedding.
    - JavaScript strings are [string]; token counts, sizes and HTTP status
      codes are [Z] (JavaScript numbers restricted to integers).
    - A value that may be [undefined] or [null] is an [option].
    - An [async] function that calls [fetch] is a computation in the monad
      [M]: it threads the log of HTTP exchanges and may throw.
    - The upstream services are a function from the requests seen so far and
      the current request to the outcome of [fetch].
    - An action that also writes to the console is a computation in
      [Action], which threads the exchanges and the printed lines.
    - Arrays and objects are immutable values, except in module [Heap],
      which runs the same code over a store of mutable cells to follow what
      it writes to. Module [Refinement] shows that the two agree: on a store
      that holds the conversation, the run over the store returns the result
      and sends the requests of the run over values. *)

From Stdlib Require Import String Ascii List ZArith Lia Bool DecimalString.
From Stdlib.Strings Require Import Byte.
From stdpp Require Import gmap strings list.
Import ListNotations.

#[local] Set Warnings "-register-all".
Local Open Scope Z_scope.

(** ** JSON values

    [JSON.stringify] is applied to object literals only; a request body is
    kept as the JSON value it denotes, properties in insertion order,
    properties whose value is [undefined] left out. *)

Inductive Json : Type :=
| JNull
| JBool (b : bool)
| JNum (n : Z)
| JStr (s : string)
| JArr (items : list Json)
| JObj (props : list (string * Json)).

Fixpoint json_lookup (key : string) (props : list (string * Json)) : option Json :=
  match props with
  | [] => None
  | (k, v) :: rest => if String.eqb k key then Some v else json_lookup key rest
  end.

(** [j.key] for a JSON object [j]; [None] when the property is missing. *)
Definition json_field (key : string) (j : Json) : option Json :=
  match j with
  | JObj props => json_lookup key props
  | _ => None
  end.

(** ** JavaScript string helpers *)

Definition string_of_number (n : Z) : string :=
  NilZero.string_of_int (Z.to_int n).

Fixpoint drop_leading (p : ascii -> bool) (s : string) : string :=
  match s with
  | EmptyString => EmptyString
  | String c rest => if p c then drop_leading p rest else s
  end.

Fixpoint drop_trailing (p : ascii -> bool) (s : string) : string :=
  match s with
  | EmptyString => EmptyString
  | String c rest =>
      match drop_trailing p rest with
      | EmptyString => if p c then EmptyString else String c EmptyString
      | kept => String c kept
      end
  end.

Definition is_slash (c : ascii) : bool := Ascii.eqb c "/"%char.

(** White space as [String.prototype.trim] sees it, for the code units a
    [string] of 8-bit characters can hold: TAB, LF, VT, FF, CR, SP, NBSP. *)
Definition is_js_space (c : ascii) : bool :=
  let n := nat_of_ascii c in
  ((9 <=? n)%nat && (n <=? 13)%nat) || (n =? 32)%nat || (n =? 160)%nat.

Definition trim (s : string) : string :=
  drop_trailing is_js_space (drop_leading is_js_space s).

(** JavaScript truthiness of a string: the empty string is falsy. *)
Definition truthy_string (s : string) : bool :=
  match s with EmptyString => false | _ => true end.

(** ** The conversation data model *)

Inductive Role := user | assistant.

Inductive ContentPart :=
| TextPart (text : string)
| ImagePart (mediaType : string) (data : string).

(** [content: string | ContentPart[]] *)
Inductive Content :=
| Str (s : string)
| Parts (parts : list ContentPart).

Record ConversationMessage := {
  role : Role;
  content : Content
}.

Inductive ThinkingMode := disabled | enabled | auto.

Record GenerateResponseOptions := {
  webSearch : option bool;
  thinking : option ThinkingMode
}.

Record AIResponse := {
  text : string;
  inputTokens : option Z;
  outputTokens : option Z;
  webSearchQueries : option (list string)
}.

(** ** Upstream response shapes *)

Record ClaudeUsage := {
  input_tokens : option Z;
  output_tokens : option Z
}.

Record ClaudeAPIResponse := {
  claude_content : list string;   (* content: { text: string }[] *)
  claude_usage : option ClaudeUsage
}.

Record OpenAIToolCall := {
  tc_id : string;
  tc_name : string;          (* function.name *)
  tc_arguments : string      (* function.arguments *)
}.

Record OpenAIMessage := {
  msg_content : option string;                 (* string | null *)
  tool_calls : option (list OpenAIToolCall)
}.

Record OpenAIChoice := {
  finish_reason : string;
  message : OpenAIMessage
}.

Record OpenAIUsage := {
  prompt_tokens : option Z;
  completion_tokens : option Z
}.

Record OpenAIAPIResponse := {
  choices : list OpenAIChoice;
  openai_usage : option OpenAIUsage
}.

Inductive ResponsesAPIOutput :=
| MessageOutput (texts : list string)   (* type "message", content: { text }[] *)
| WebSearchOutput.                      (* type "web_search_call" *)

Record ResponsesAPIResponse := {
  resp_id : string;
  output : list ResponsesAPIOutput;
  resp_usage : option OpenAIUsage
}.

Record FileInfo := {
  file_path : option string;
  file_size : option Z
}.

(** [{ ok?: boolean; result?: {...} }] *)
Record GetFileResponse := {
  gf_result : option FileInfo
}.

(** ** HTTP *)

Record Request := {
  url : string;
  method : string;
  headers : list (string * string);
  body : option Json
}.

(** What [response.json()] yields. The caller casts it to the shape it
    expects without a check: [POther] is a JSON object with none of the
    properties the code reads, [PNotJson] a body that does not parse. *)
Inductive Payload :=
| PClaude (d : ClaudeAPIResponse)
| POpenAI (d : OpenAIAPIResponse)
| PResponses (d : ResponsesAPIResponse)
| PGetFile (d : GetFileResponse)
| POther
| PNotJson.

Record Response := {
  ok : bool;
  status : Z;
  contentType : option string;     (* headers.get("content-type") *)
  raw : string;                    (* response.text() *)
  json : Payload;                  (* response.json() *)
  arrayBuffer : list byte          (* response.arrayBuffer() *)
}.

Inductive FetchOutcome :=
| Rejected (reason : string)       (* transport failure: fetch rejects *)
| Resolved (r : Response).

Definition Exchange : Type := Request * FetchOutcome.

(** The services behind [fetch]: the earlier requests of this run (oldest
    first) and the current one decide the outcome. *)
Definition Upstream : Type := list Request -> Request -> FetchOutcome.

Inductive exn :=
| Error (message : string)         (* throw new Error(message) *)
| NetworkError (reason : string)   (* a rejected fetch, propagated *)
| TypeError                        (* indexing a property the body lacks *)
| SyntaxError.                     (* response.json() on a body that is not JSON *)

(** Reading [data.content[0]], [data.choices[0]] or [data.output.find] from
    a parsed body of another shape. *)
Definition shape_error (p : Payload) : exn :=
  match p with PNotJson => SyntaxError | _ => TypeError end.

(** ** The monad of asynchronous calls *)

Definition M (A : Type) : Type := list Exchange -> (exn + A) * list Exchange.

Definition ret {A} (a : A) : M A := fun lg => (inr a, lg).

Definition throw {A} (e : exn) : M A := fun lg => (inl e, lg).

Definition bind {A B} (m : M A) (k : A -> M B) : M B :=
  fun lg =>
    match m lg with
    | (inl e, lg') => (inl e, lg')
    | (inr a, lg') => k a lg'
    end.

Declare Scope async_scope.
Delimit Scope async_scope with async.
Notation "x <- m ;; k" := (bind m (fun x => k))
  (at level 100, m at next level, right associativity) : async_scope.

Definition fetch (up : Upstream) (req : Request) : M Response :=
  fun lg =>
    let out := up (map fst lg) req in
    let lg' := lg ++ [(req, out)] in
    match out with
    | Rejected why => (inl (NetworkError why), lg')
    | Resolved r => (inr r, lg')
    end.

(** A run starts with an empty log. *)
Definition run {A} (m : M A) : (exn + A) * list Exchange := m [].

Definition requests (lg : list Exchange) : list Request := map fst lg.

(** ** Content normalizers *)

Definition role_name (r : Role) : string :=
  match r with user => "user" | assistant => "assistant" end.

Definition thinking_name (t : ThinkingMode) : string :=
  match t with disabled => "disabled" | enabled => "enabled" | auto => "auto" end.

Definition toOpenAIContent (c : Content) : Json :=
  match c with
  | Str s => JStr s
  | Parts parts =>
      JArr (map (fun part =>
        match part with
        | TextPart t => JObj [("type", JStr "text"); ("text", JStr t)]
        | ImagePart mediaType data =>
            JObj [("type", JStr "image_url");
                  ("image_url",
                   JObj [("url", JStr ("data:" +:+ mediaType +:+ ";base64," +:+ data))])]
        end) parts)
  end.

Definition toTextContent (c : Content) : string :=
  match c with
  | Str s => s
  | Parts parts =>
      String.concat " "
        (map (fun part =>
           match part with TextPart t => t | ImagePart _ _ => "[image]" end) parts)
  end.

Definition is_image (part : ContentPart) : bool :=
  match part with ImagePart _ _ => true | TextPart _ => false end.

Definition hasImage (messages : list ConversationMessage) : bool :=
  existsb (fun message =>
    match content message with
    | Str _ => false                       (* Array.isArray(content) fails *)
    | Parts parts => existsb is_image parts
    end) messages.

(** ** Endpoints and the ambient configuration *)

Definition DEFAULT_OPENAI_BASE_URL : string := "https://api.openai.com/v1".

Definition normalizeBaseUrl (value : string) : string :=
  drop_trailing is_slash value.

(** [process.env] is a finite map from names to strings. *)
Definition getOpenAIBaseUrl (env : gmap string string) : string :=
  match env !! "OPENAI_BASE_URL" with
  | None => DEFAULT_OPENAI_BASE_URL
  | Some value =>
      if negb (truthy_string value) then DEFAULT_OPENAI_BASE_URL
      else
        let trimmed := trim value in
        if negb (truthy_string trimmed) then DEFAULT_OPENAI_BASE_URL
        else normalizeBaseUrl trimmed
  end.

Definition joinUrl (baseUrl path : string) : string :=
  let normalizedBase := normalizeBaseUrl baseUrl in
  let normalizedPath := drop_leading is_slash path in
  normalizedBase +:+ "/" +:+ normalizedPath.

Definition getOpenAIChatCompletionsUrl (env : gmap string string) : string :=
  joinUrl (getOpenAIBaseUrl env) "chat/completions".

Definition getOpenAIResponsesUrl (env : gmap string string) : string :=
  joinUrl (getOpenAIBaseUrl env) "responses".

Definition OPENAI_COMPATIBLE_ENDPOINTS : gmap string string :=
  {[ "moonshot" := "https://api.moonshot.ai/v1/chat/completions";
     "grok" := "https://api.x.ai/v1/chat/completions" ]}.

Definition RESPONSES_API_ENDPOINTS : gmap string string :=
  {[ "grok" := "https://api.x.ai/v1/responses" ]}.

(** [if (!url)]: a missing entry and the empty string are both falsy. *)
Definition non_empty (u : option string) : option string :=
  match u with
  | Some s => if truthy_string s then Some s else None
  | None => None
  end.

Definition MAX_TOOL_ITERATIONS : nat := 5.

(** ** Request pieces shared by the adapters *)

Definition bearer_headers (apiKey : string) : list (string * string) :=
  [("Content-Type", "application/json"); ("Authorization", "Bearer " +:+ apiKey)].

Definition post (u : string) (hs : list (string * string)) (payload : Json) : Request :=
  {| url := u; method := "POST"; headers := hs; body := Some payload |}.

Definition system_message (systemPrompt : string) : Json :=
  JObj [("role", JStr "system"); ("content", JStr systemPrompt)].

(** [messages.map((m) => ({ role: m.role, content: convert(m.content) }))] *)
Definition convert_messages (convert : Content -> Json)
    (messages : list ConversationMessage) : list Json :=
  map (fun m => JObj [("role", JStr (role_name (role m)));
                      ("content", convert (content m))]) messages.

Definition thinking_field (t : option ThinkingMode) : list (string * Json) :=
  match t with
  | Some mode => [("thinking", JObj [("type", JStr (thinking_name mode))])]
  | None => []
  end.

Definition api_error (who : string) (response : Response) : exn :=
  Error (who +:+ " API error: " +:+ string_of_number (status response)
             +:+ " - " +:+ raw response).

(** ** The message-API adapter *)

Definition contentForClaude (c : Content) : Json :=
  match c with
  | Str s => JStr s
  | Parts parts =>
      JArr (map (fun part =>
        match part with
        | TextPart t => JObj [("type", JStr "text"); ("text", JStr t)]
        | ImagePart mediaType data =>
            JObj [("type", JStr "image");
                  ("source", JObj [("type", JStr "base64");
                                   ("media_type", JStr mediaType);
                                   ("data", JStr data)])]
        end) parts)
  end.

Definition claude_request (apiKey model systemPrompt : string)
    (messages : list ConversationMessage) : Request :=
  {| url := "https://api.anthropic.com/v1/messages";
     method := "POST";
     headers := [("Content-Type", "application/json");
                 ("x-api-key", apiKey);
                 ("anthropic-version", "2023-06-01")];
     body := Some (JObj [("model", JStr model);
                         ("max_tokens", JNum 1024);
                         ("system", JStr systemPrompt);
                         ("messages",
                          JArr (convert_messages contentForClaude messages))]) |}.

Definition claude_result (data : ClaudeAPIResponse) : AIResponse :=
  {| text := default "" (head (claude_content data));   (* content[0]?.text ?? "" *)
     inputTokens := claude_usage data ≫= input_tokens;
     outputTokens := claude_usage data ≫= output_tokens;
     webSearchQueries := None |}.

Definition callClaude (up : Upstream) (apiKey model systemPrompt : string)
    (messages : list ConversationMessage) : M AIResponse :=
  (response <- fetch up (claude_request apiKey model systemPrompt messages) ;;
   if negb (ok response) then throw (api_error "Claude" response)
   else
     match json response with
     | PClaude data => ret (claude_result data)
     | other => throw (shape_error other)
     end)%async.

(** ** The plain chat-completions adapter *)

Definition chat_payload (provider model systemPrompt : string)
    (messages : list ConversationMessage)
    (thinking : option ThinkingMode) : Json :=
  JObj ([("model", JStr model);
         ("max_tokens", JNum 1024);
         ("messages",
          JArr (system_message systemPrompt
                  :: convert_messages toOpenAIContent messages))]
        (* if (provider === "moonshot" && thinking) payload.thinking = ... *)
        ++ (if String.eqb provider "moonshot" then thinking_field thinking else [])).

Definition chat_result (data : OpenAIAPIResponse) : AIResponse :=
  {| text := default "" (head (choices data) ≫= (fun c => msg_content (message c)));
     inputTokens := openai_usage data ≫= prompt_tokens;
     outputTokens := openai_usage data ≫= completion_tokens;
     webSearchQueries := None |}.

Definition chat_url (env : gmap string string) (provider : string) : option string :=
  non_empty (if String.eqb provider "openai"
             then Some (getOpenAIChatCompletionsUrl env)
             else OPENAI_COMPATIBLE_ENDPOINTS !! provider).

Definition callOpenAICompatible (env : gmap string string) (up : Upstream)
    (provider apiKey model systemPrompt : string)
    (messages : list ConversationMessage)
    (thinking : option ThinkingMode) : M AIResponse :=
  match chat_url env provider with
  | None => throw (Error ("No endpoint configured for provider: " +:+ provider))
  | Some u =>
      (response <- fetch up
         (post u (bearer_headers apiKey)
               (chat_payload provider model systemPrompt messages thinking)) ;;
       if negb (ok response) then throw (api_error provider response)
       else
         match json response with
         | POpenAI data => ret (chat_result data)
         | other => throw (shape_error other)
         end)%async
  end.

(** ** The tool-call loop *)

Definition tool_call_json (tc : OpenAIToolCall) : Json :=
  JObj [("id", JStr (tc_id tc));
        ("type", JStr "function");
        ("function", JObj [("name", JStr (tc_name tc));
                           ("arguments", JStr (tc_arguments tc))])].

Definition nullable_string (s : option string) : Json :=
  match s with Some v => JStr v | None => JNull end.

(** The assistant turn echoed back after a tool-call round. *)
Definition assistant_tool_message (choice : OpenAIChoice)
    (calls : list OpenAIToolCall) : Json :=
  JObj [("role", JStr "assistant");
        ("content", nullable_string (msg_content (message choice)));
        ("tool_calls", JArr (map tool_call_json calls))].

(** The tool-result turn acknowledging one tool call. *)
Definition tool_result_message (tc : OpenAIToolCall) : Json :=
  JObj [("role", JStr "tool");
        ("tool_call_id", JStr (tc_id tc));
        ("name", JStr (tc_name tc));
        ("content", JStr (tc_arguments tc))].

Definition moonshot_tools : Json :=
  JArr [JObj [("type", JStr "builtin_function");
              ("function", JObj [("name", JStr "$web_search")])]].

(** The variables the loop updates: [apiMessages], the two running totals
    and [searchQueries]. *)
Record LoopState := {
  apiMessages : list Json;
  totalInputTokens : Z;
  totalOutputTokens : Z;
  searchQueries : list string
}.

Definition tool_request (u apiKey model : string)
    (thinking : option ThinkingMode) (msgs : list Json) : Request :=
  post u (bearer_headers apiKey)
    (JObj ([("model", JStr model);
            ("max_tokens", JNum 1024);
            ("messages", JArr msgs);
            ("tools", moonshot_tools)]
           ++ thinking_field thinking)).

(** [...(searchQueries.length > 0 && { webSearchQueries: searchQueries })] *)
Definition queries_field (qs : list string) : option (list string) :=
  match qs with [] => None | _ => Some qs end.

Definition loop_result (choice : OpenAIChoice) (tin tout : Z)
    (qs : list string) : AIResponse :=
  {| text := default "" (msg_content (message choice));
     inputTokens := Some tin;
     outputTokens := Some tout;
     webSearchQueries := queries_field qs |}.

(** [choice.finish_reason === "tool_calls" && choice.message.tool_calls]:
    the calls to acknowledge, when the condition is truthy (an empty array
    is truthy). *)
Definition pending_calls (choice : OpenAIChoice) : option (list OpenAIToolCall) :=
  if String.eqb (finish_reason choice) "tool_calls"
  then tool_calls (message choice) else None.

(** The body of [for (let i = 0; i < MAX_TOOL_ITERATIONS; i++)]; [fuel] is
    [MAX_TOOL_ITERATIONS - i], and the statement after the loop is the case
    [fuel = 0]. *)
Fixpoint tool_rounds (up : Upstream) (u apiKey model : string)
    (thinking : option ThinkingMode) (fuel : nat) (st : LoopState)
    : M AIResponse :=
  match fuel with
  | O => throw (Error "moonshot web search exceeded maximum iterations")
  | S fuel' =>
      (response <- fetch up (tool_request u apiKey model thinking (apiMessages st)) ;;
       if negb (ok response) then throw (api_error "moonshot" response)
       else
         match json response with
         | POpenAI data =>
             let tin := totalInputTokens st
                        + default 0 (openai_usage data ≫= prompt_tokens) in
             let tout := totalOutputTokens st
                         + default 0 (openai_usage data ≫= completion_tokens) in
             match head (choices data) with
             | None => throw (Error "moonshot API returned no choices")
             | Some choice =>
                 if String.eqb (finish_reason choice) "stop"
                 then ret (loop_result choice tin tout (searchQueries st))
                 else
                   match pending_calls choice with
                   | Some calls =>
                       tool_rounds up u apiKey model thinking fuel'
                         {| apiMessages :=
                              apiMessages st
                              ++ [assistant_tool_message choice calls]
                              ++ map tool_result_message calls;
                            totalInputTokens := tin;
                            totalOutputTokens := tout;
                            searchQueries :=
                              searchQueries st ++ map tc_arguments calls |}
                   | None =>
                       (* unexpected finish_reason *)
                       ret (loop_result choice tin tout (searchQueries st))
                   end
             end
         | other => throw (shape_error other)
         end)%async
  end.

(** The variables as the loop finds them: the converted conversation behind
    the system prompt, zero totals, no query. *)
Definition initial_state (systemPrompt : string)
    (messages : list ConversationMessage) : LoopState :=
  {| apiMessages :=
       system_message systemPrompt :: convert_messages toOpenAIContent messages;
     totalInputTokens := 0;
     totalOutputTokens := 0;
     searchQueries := [] |}.

Definition callMoonshotWithSearch (up : Upstream)
    (apiKey model systemPrompt : string)
    (messages : list ConversationMessage)
    (thinking : option ThinkingMode) : M AIResponse :=
  match non_empty (OPENAI_COMPATIBLE_ENDPOINTS !! "moonshot") with
  | None => throw (Error "No endpoint configured for provider: moonshot")
  | Some u =>
      tool_rounds up u apiKey model thinking MAX_TOOL_ITERATIONS
        (initial_state systemPrompt messages)
  end.

(** ** The responses-API adapter *)

Definition message_texts (item : ResponsesAPIOutput) : option (list string) :=
  match item with MessageOutput texts => Some texts | WebSearchOutput => None end.

Definition is_message (item : ResponsesAPIOutput) : bool :=
  match item with MessageOutput _ => true | WebSearchOutput => false end.

Definition is_web_search_call (item : ResponsesAPIOutput) : bool :=
  match item with WebSearchOutput => true | MessageOutput _ => false end.

Definition search_summary (n : nat) : string :=
  "web_search (" +:+ string_of_number (Z.of_nat n) +:+ " call(s))".

Definition responses_payload (model systemPrompt : string)
    (messages : list ConversationMessage) : Json :=
  JObj [("model", JStr model);
        ("input",
         JArr (system_message systemPrompt
                 :: convert_messages (fun c => JStr (toTextContent c)) messages));
        ("tools", JArr [JObj [("type", JStr "web_search")]]);
        ("store", JBool false)].

Definition responses_result (data : ResponsesAPIResponse) : AIResponse :=
  let messageOutput := List.find is_message (output data) in
  let searchCalls := List.filter is_web_search_call (output data) in
  {| text := default "" ((messageOutput ≫= message_texts) ≫= head);
     inputTokens := resp_usage data ≫= prompt_tokens;
     outputTokens := resp_usage data ≫= completion_tokens;
     webSearchQueries :=
       match searchCalls with
       | [] => None
       | _ => Some [search_summary (length searchCalls)]
       end |}.

Definition responses_url (env : gmap string string) (provider : string)
    : option string :=
  non_empty (if String.eqb provider "openai"
             then Some (getOpenAIResponsesUrl env)
             else RESPONSES_API_ENDPOINTS !! provider).

Definition callResponsesAPIWithSearch (env : gmap string string) (up : Upstream)
    (provider apiKey model systemPrompt : string)
    (messages : list ConversationMessage) : M AIResponse :=
  match responses_url env provider with
  | None =>
      throw (Error ("No Responses API endpoint configured for provider: "
                    +:+ provider))
  | Some u =>
      (response <- fetch up
         (post u (bearer_headers apiKey)
               (responses_payload model systemPrompt messages)) ;;
       if negb (ok response) then throw (api_error provider response)
       else
         match json response with
         | PResponses data => ret (responses_result data)
         | other => throw (shape_error other)
         end)%async
  end.

(** ** The gateway facade *)

(** [options?.webSearch && !hasImage(messages)]: the left operand when it is
    falsy ([undefined] or [false]), the right operand otherwise. *)
Definition allowWebSearch (options : option GenerateResponseOptions)
    (messages : list ConversationMessage) : option bool :=
  match options ≫= webSearch with
  | Some true => Some (negb (hasImage messages))
  | falsy => falsy
  end.

Definition truthy (v : option bool) : bool :=
  match v with Some true => true | _ => false end.

Definition generateResponse (env : gmap string string) (up : Upstream)
    (provider apiKey model systemPrompt : string)
    (messages : list ConversationMessage)
    (options : option GenerateResponseOptions) : M AIResponse :=
  let allow := allowWebSearch options messages in
  if String.eqb provider "claude" then
    callClaude up apiKey model systemPrompt messages
  else if String.eqb provider "moonshot" then
    if truthy allow then
      callMoonshotWithSearch up apiKey model systemPrompt messages
        (options ≫= thinking)
    else
      callOpenAICompatible env up provider apiKey model systemPrompt messages
        (options ≫= thinking)
  else if String.eqb provider "grok" then
    if truthy allow then
      callResponsesAPIWithSearch env up provider apiKey model systemPrompt messages
    else
      callOpenAICompatible env up provider apiKey model systemPrompt messages
        (options ≫= thinking)
  else if String.eqb provider "openai" then
    if truthy allow then
      callResponsesAPIWithSearch env up provider apiKey model systemPrompt messages
    else
      callOpenAICompatible env up provider apiKey model systemPrompt messages
        (options ≫= thinking)
  else
    throw (Error ("Unknown AI provider: " +:+ provider)).

(** ** Telegram file helpers *)

Definition BASE_URL : string := "https://api.telegram.org/bot".
Definition FILE_BASE_URL : string := "https://api.telegram.org/file/bot".

Definition getFile (up : Upstream) (token fileId : string) : M FileInfo :=
  (response <- fetch up
     (post (BASE_URL +:+ token +:+ "/getFile")
           [("Content-Type", "application/json")]
           (JObj [("file_id", JStr fileId)])) ;;
   if negb (ok response)
   then throw (Error ("Telegram API error: "
                      +:+ string_of_number (status response)
                      +:+ " - " +:+ raw response))
   else
     match json response with
     | PNotJson => throw SyntaxError
     | PGetFile data =>
         (* data.result ?? {} *)
         ret (default {| file_path := None; file_size := None |} (gf_result data))
     | _ => ret {| file_path := None; file_size := None |}
     end)%async.

Record Download := {
  bytes : list byte;
  dl_contentType : option string
}.

Definition downloadTelegramFile (up : Upstream) (token filePath : string)
    : M Download :=
  (response <- fetch up
     {| url := FILE_BASE_URL +:+ token +:+ "/" +:+ filePath;
        method := "GET"; headers := []; body := None |} ;;
   if negb (ok response)
   then throw (Error ("Telegram file download error: "
                      +:+ string_of_number (status response)
                      +:+ " - " +:+ raw response))
   else ret {| bytes := arrayBuffer response;
               dl_contentType := contentType response |})%async.

(** ** The image resolver *)

Definition MAX_IMAGE_BYTES : Z := 5 * 1024 * 1024.

Record ImageDescriptor := {
  fileId : string;
  mimeType : option string;
  fileSize : option Z
}.

Record ImageData := {
  img_mediaType : string;
  img_data : string
}.

Definition byteLength (bs : list byte) : Z := Z.of_nat (length bs).

(** [size && size > MAX_IMAGE_BYTES] for an optional number: [undefined] and
    [0] are falsy. *)
Definition over_limit (size : option Z) : bool :=
  match size with
  | Some n => negb (n =? 0) && (MAX_IMAGE_BYTES <? n)
  | None => false
  end.

(** [toBase64]: the platform encoder ([btoa] or [Buffer]) when there is one. *)
Definition toBase64 (encoder : option (list byte -> string)) (bs : list byte)
    : M string :=
  match encoder with
  | Some encode => ret (encode bs)
  | None => throw (Error "Base64 encoding not supported in this environment")
  end.

Definition fetchImageForModel (encoder : option (list byte -> string))
    (up : Upstream) (token : string) (image : ImageDescriptor) : M ImageData :=
  if over_limit (fileSize image) then throw (Error "IMAGE_TOO_LARGE")
  else
    (fileInfo <- getFile up token (fileId image) ;;
     match non_empty (file_path fileInfo) with
     | None => throw (Error "IMAGE_FILE_PATH_MISSING")
     | Some path =>
         if over_limit (file_size fileInfo) then throw (Error "IMAGE_TOO_LARGE")
         else
           download <- downloadTelegramFile up token path ;;
           if MAX_IMAGE_BYTES <? byteLength (bytes download)
           then throw (Error "IMAGE_TOO_LARGE")
           else
             let mediaType :=
               default (default "image/jpeg" (dl_contentType download))
                       (mimeType image) in
             data <- toBase64 encoder (bytes download) ;;
             ret {| img_mediaType := mediaType; img_data := data |}
     end)%async.

(** ** What one round of the tool-call loop does with an outcome *)

Inductive Step :=
| Continue (st : LoopState)
| Done (res : exn + AIResponse).

Definition round_step (st : LoopState) (out : FetchOutcome) : Step :=
  match out with
  | Rejected why => Done (inl (NetworkError why))
  | Resolved response =>
      if negb (ok response) then Done (inl (api_error "moonshot" response))
      else
        match json response with
        | POpenAI data =>
            let tin := totalInputTokens st
                       + default 0 (openai_usage data ≫= prompt_tokens) in
            let tout := totalOutputTokens st
                        + default 0 (openai_usage data ≫= completion_tokens) in
            match head (choices data) with
            | None => Done (inl (Error "moonshot API returned no choices"))
            | Some choice =>
                if String.eqb (finish_reason choice) "stop"
                then Done (inr (loop_result choice tin tout (searchQueries st)))
                else
                  match pending_calls choice with
                  | Some calls =>
                      Continue
                        {| apiMessages :=
                             apiMessages st
                             ++ [assistant_tool_message choice calls]
                             ++ map tool_result_message calls;
                           totalInputTokens := tin;
                           totalOutputTokens := tout;
                           searchQueries :=
                             searchQueries st ++ map tc_arguments calls |}
                  | None =>
                      Done (inr (loop_result choice tin tout (searchQueries st)))
                  end
            end
        | other => Done (inl (shape_error other))
        end
  end.

(** ** The rounds of a run, as a derivation *)

Definition exceeded : exn := Error "moonshot web search exceeded maximum iterations".

(** [loop_trace u k m t fuel st rounds res]: started in state [st] with
    [fuel] iterations left, the loop performs exactly the exchanges [rounds]
    and ends with [res]. *)
Inductive loop_trace (u apiKey model : string) (thinking : option ThinkingMode)
  : nat -> LoopState -> list Exchange -> exn + AIResponse -> Prop :=
| trace_exceeded st :
    loop_trace u apiKey model thinking O st [] (inl exceeded)
| trace_done fuel st out res :
    round_step st out = Done res ->
    loop_trace u apiKey model thinking (S fuel) st
      [(tool_request u apiKey model thinking (apiMessages st), out)] res
| trace_continue fuel st out st' rounds res :
    round_step st out = Continue st' ->
    loop_trace u apiKey model thinking fuel st' rounds res ->
    loop_trace u apiKey model thinking (S fuel) st
      ((tool_request u apiKey model thinking (apiMessages st), out) :: rounds) res.

(** The endpoint of the tool-call loop. *)
Definition moonshot_url : string := "https://api.moonshot.ai/v1/chat/completions".

(** ** Reading a round off the log *)

(** The parsed body of a successful chat-completions exchange. *)
Definition round_data (out : FetchOutcome) : option OpenAIAPIResponse :=
  match out with
  | Resolved r =>
      if ok r then match json r with POpenAI d => Some d | _ => None end
      else None
  | Rejected _ => None
  end.

(** [data.choices[0]] *)
Definition first_choice (out : FetchOutcome) : option OpenAIChoice :=
  round_data out ≫= (fun d => head (choices d)).

(** The tool calls the loop acknowledges for this round, when it goes on. *)
Definition round_calls (out : FetchOutcome) : option (list OpenAIToolCall) :=
  first_choice out ≫= pending_calls.

Definition acknowledged (out : FetchOutcome) : list OpenAIToolCall :=
  default [] (round_calls out).

(** [data.usage?.prompt_tokens ?? 0] and [data.usage?.completion_tokens ?? 0] *)
Definition prompt_of (out : FetchOutcome) : Z :=
  default 0 ((round_data out ≫= openai_usage) ≫= prompt_tokens).

Definition completion_of (out : FetchOutcome) : Z :=
  default 0 ((round_data out ≫= openai_usage) ≫= completion_tokens).

Definition outcomes (lg : list Exchange) : list FetchOutcome := map snd lg.

Definition sumZ (l : list Z) : Z := foldr Z.add 0 l.

(** ** Concrete conversations and upstream behaviours *)

Module Scenario.

Definition hello : list ConversationMessage :=
  [ {| role := user; content := Str "hello" |} ].

Definition picture : list ConversationMessage :=
  [ {| role := user;
       content := Parts [TextPart "what is this"; ImagePart "image/png" "AQID"] |} ].

Definition search_on : option GenerateResponseOptions :=
  Some {| webSearch := Some true; thinking := None |}.

Definition search_off : option GenerateResponseOptions :=
  Some {| webSearch := Some false; thinking := None |}.

Definition ok_response (p : Payload) : Response :=
  {| ok := true; status := 200; contentType := Some "application/json";
     raw := ""; json := p; arrayBuffer := [] |}.

Definition usage (p c : Z) : option OpenAIUsage :=
  Some {| prompt_tokens := Some p; completion_tokens := Some c |}.

Definition stop_choice (answer : option string) : OpenAIChoice :=
  {| finish_reason := "stop";
     message := {| msg_content := answer; tool_calls := None |} |}.

Definition search_call : OpenAIToolCall :=
  {| tc_id := "call_1"; tc_name := "$web_search";
     tc_arguments := "{query: rocq}" |}.

Definition tool_choice : OpenAIChoice :=
  {| finish_reason := "tool_calls";
     message := {| msg_content := None; tool_calls := Some [search_call] |} |}.

Definition chat (cs : list OpenAIChoice) (u : option OpenAIUsage) : FetchOutcome :=
  Resolved (ok_response (POpenAI {| choices := cs; openai_usage := u |})).

(** Answers at once. *)
Definition answers : Upstream :=
  fun _ _ => chat [stop_choice (Some "Hi there.")] (usage 5 3).

(** Asks for one search, then answers. *)
Definition searches_once : Upstream :=
  fun earlier _ =>
    match earlier with
    | [] => chat [tool_choice] (usage 5 3)
    | _ => chat [stop_choice (Some "Found it.")] (usage 7 4)
    end.

(** Asks for a search on every round. *)
Definition searches_forever : Upstream :=
  fun _ _ => chat [tool_choice] (usage 1 1).

(** Answers at once and reports no usage. *)
Definition answers_without_usage : Upstream :=
  fun _ _ => chat [stop_choice (Some "Hi there.")] None.

(** Answers at once with a null content and no usage. *)
Definition answers_nothing : Upstream :=
  fun _ _ => chat [stop_choice None] None.

(** Answers with an empty list of choices. *)
Definition no_choices : Upstream :=
  fun _ _ => chat [] (usage 5 0).

(** A message-API answer with an empty content list and no usage. *)
Definition claude_says_nothing : Upstream :=
  fun _ _ =>
    Resolved (ok_response (PClaude {| claude_content := []; claude_usage := None |})).

(** A responses-API answer with no "message" item and no usage. *)
Definition searched_silently : Upstream :=
  fun _ _ =>
    Resolved (ok_response
      (PResponses {| resp_id := "resp_0"; output := [WebSearchOutput];
                     resp_usage := None |})).

(** A responses-API answer after two server-side searches. *)
Definition searched_twice : Upstream :=
  fun _ _ =>
    Resolved (ok_response
      (PResponses {| resp_id := "resp_1";
                     output := [WebSearchOutput; WebSearchOutput;
                                MessageOutput ["Found via search!"]];
                     resp_usage := usage 10 20 |})).

End Scenario.

(** ** Reading a request *)

(** The [max_tokens] and [tools] properties of a request body. *)
Definition max_tokens_of (req : Request) : option Json :=
  body req ≫= json_field "max_tokens".

Definition tools_of (req : Request) : option Json :=
  body req ≫= json_field "tools".

(** ** Concrete attachments and Telegram behaviours *)

Module ImageScenario.

Definition file_response (info : option FileInfo) : FetchOutcome :=
  Resolved {| ok := true; status := 200; contentType := Some "application/json";
              raw := ""; json := PGetFile {| gf_result := info |};
              arrayBuffer := [] |}.

Definition download_response (bs : list byte) : FetchOutcome :=
  Resolved {| ok := true; status := 200; contentType := Some "image/png";
              raw := ""; json := PNotJson; arrayBuffer := bs |}.

(** Telegram answering the file lookup with [info] and the download with
    [bs]. *)
Definition telegram (info : option FileInfo) (bs : list byte) : Upstream :=
  fun earlier _ =>
    match earlier with
    | [] => file_response info
    | _ => download_response bs
    end.

Definition photo (declared : option Z) : ImageDescriptor :=
  {| fileId := "file_1"; mimeType := None; fileSize := declared |}.

(** The lookup request for that photo with the access token "token". *)
Definition lookup : Request :=
  post (BASE_URL +:+ "token" +:+ "/getFile")
       [("Content-Type", "application/json")]
       (JObj [("file_id", JStr "file_1")]).

(** One byte more than the ceiling. *)
Definition oversized : list byte :=
  repeat x00 (Z.to_nat (MAX_IMAGE_BYTES + 1)).

End ImageScenario.

(** * The same code over a store of mutable arrays and objects *)

Module Heap.

Definition loc := nat.

Inductive value :=
| VUndefined
| VNull
| VBool (b : bool)
| VNum (n : Z)
| VStr (s : string)
| VRef (l : loc).

Inductive cell :=
| Arr (elems : list value)
| Obj (props : list (string * value)).

Record State := {
  store : list cell;
  log : list Exchange
}.

Definition M (A : Type) : Type := State -> (exn + A) * State.

Definition ret {A} (a : A) : M A := fun s => (inr a, s).

Definition throw {A} (e : exn) : M A := fun s => (inl e, s).

Definition bind {A B} (m : M A) (k : A -> M B) : M B :=
  fun s =>
    match m s with
    | (inl e, s') => (inl e, s')
    | (inr a, s') => k a s'
    end.

Declare Scope store_scope.
Delimit Scope store_scope with store.
Notation "x <- m ;; k" := (bind m (fun x => k))
  (at level 100, m at next level, right associativity) : store_scope.
Notation "m ;;; k" := (bind m (fun _ => k))
  (at level 100, right associativity) : store_scope.
Local Open Scope store_scope.

Fixpoint traverse {A B} (f : A -> M B) (l : list A) : M (list B) :=
  match l with
  | [] => ret []
  | x :: rest => y <- f x ;; ys <- traverse f rest ;; ret (y :: ys)
  end.

(** [for (const x of l) body(x)] *)
Fixpoint forEach {A} (f : A -> M unit) (l : list A) : M unit :=
  match l with
  | [] => ret tt
  | x :: rest => f x ;;; forEach f rest
  end.

(** [l.some(p)]: stops at the first element that satisfies [p]. *)
Fixpoint some {A} (p : A -> M bool) (l : list A) : M bool :=
  match l with
  | [] => ret false
  | x :: rest => b <- p x ;; if b then ret true else some p rest
  end.

(** ** Store primitives *)

(** An object or array literal: a fresh cell. *)
Definition alloc (c : cell) : M value :=
  fun s => (inr (VRef (length (store s))),
            {| store := store s ++ [c]; log := log s |}).

Fixpoint prop_lookup (key : string) (props : list (string * value)) : option value :=
  match props with
  | [] => None
  | (k, v) :: rest => if String.eqb k key then Some v else prop_lookup key rest
  end.

(** [v.key]: throws on [undefined] and [null], is [undefined] when the
    property is missing. *)
Definition get (v : value) (key : string) : M value :=
  match v with
  | VUndefined | VNull => throw TypeError
  | VRef l =>
      fun s =>
        match store s !! l with
        | Some (Obj props) => (inr (default VUndefined (prop_lookup key props)), s)
        | Some (Arr _) => (inr VUndefined, s)
        | None => (inl TypeError, s)
        end
  | _ => ret VUndefined
  end.

(** The elements of an array, for [map], [some], spread and [for ... of];
    throws when [v] is not an array. *)
Definition elements (v : value) : M (list value) :=
  match v with
  | VRef l =>
      fun s =>
        match store s !! l with
        | Some (Arr elems) => (inr elems, s)
        | _ => (inl TypeError, s)
        end
  | _ => throw TypeError
  end.

Definition isArray (v : value) : M bool :=
  match v with
  | VRef l =>
      fun s =>
        match store s !! l with
        | Some (Arr _) => (inr true, s)
        | _ => (inr false, s)
        end
  | _ => ret false
  end.

(** [arr.push(x)] *)
Definition push (arr : value) (x : value) : M unit :=
  match arr with
  | VRef l =>
      fun s =>
        match store s !! l with
        | Some (Arr elems) =>
            (inr tt, {| store := <[l := Arr (elems ++ [x])]> (store s);
                        log := log s |})
        | _ => (inl TypeError, s)
        end
  | _ => throw TypeError
  end.

(** [obj.key = x] for a property the object does not have yet. *)
Definition set (obj : value) (key : string) (x : value) : M unit :=
  match obj with
  | VRef l =>
      fun s =>
        match store s !! l with
        | Some (Obj props) =>
            (inr tt, {| store := <[l := Obj (props ++ [(key, x)])]> (store s);
                        log := log s |})
        | _ => (inl TypeError, s)
        end
  | _ => throw TypeError
  end.

Definition is_string (v : value) (s : string) : bool :=
  match v with VStr t => String.eqb t s | _ => false end.

(** A value inside a template literal. *)
Definition show (v : value) : string :=
  match v with
  | VStr s => s
  | VUndefined => "undefined"
  | VNull => "null"
  | VBool true => "true"
  | VBool false => "false"
  | VNum n => string_of_number n
  | VRef _ => "[object Object]"
  end.

(** An element under [Array.prototype.join]. *)
Definition join_show (v : value) : string :=
  match v with
  | VUndefined | VNull => ""
  | _ => show v
  end.

Definition defined (v : value) : bool :=
  match v with VUndefined => false | _ => true end.

(** [JSON.stringify]: [None] when the value is cyclic. A path through more
    cells than the store holds repeats one, so [fuel] beyond the size of the
    store is never used up by an acyclic value. Properties whose value is
    [undefined] are left out. *)
Fixpoint stringify (fuel : nat) (h : list cell) (v : value) : option Json :=
  match fuel with
  | O => None
  | S fuel' =>
      match v with
      | VUndefined | VNull => Some JNull
      | VBool b => Some (JBool b)
      | VNum n => Some (JNum n)
      | VStr s => Some (JStr s)
      | VRef l =>
          match h !! l with
          | None => None
          | Some (Arr elems) => JArr <$> mapM (stringify fuel' h) elems
          | Some (Obj props) =>
              JObj <$> mapM (fun p => pair (fst p) <$> stringify fuel' h (snd p))
                         (List.filter (fun p => defined (snd p)) props)
          end
      end
  end.

(** [fetch(url, { method: "POST", headers, body: JSON.stringify(payload) })] *)
Definition post_json (up : Upstream) (u : string) (hs : list (string * string))
    (payload : value) : M Response :=
  fun s =>
    match stringify (S (length (store s))) (store s) payload with
    | None => (inl TypeError, s)
    | Some j =>
        let req := post u hs j in
        let out := up (map fst (log s)) req in
        let s' := {| store := store s; log := log s ++ [(req, out)] |} in
        match out with
        | Rejected why => (inl (NetworkError why), s')
        | Resolved r => (inr r, s')
        end
    end.

(** ** Content normalizers *)

(** The callback of [content.map] in [toOpenAIContent]. *)
Definition openai_part (part : value) : M value :=
  t <- get part "type" ;;
  if is_string t "text" then
    x <- get part "text" ;;
    alloc (Obj [("type", VStr "text"); ("text", x)])
  else
    mediaType <- get part "mediaType" ;;
    data <- get part "data" ;;
    image_url <- alloc (Obj [("url", VStr ("data:" +:+ show mediaType
                                          +:+ ";base64," +:+ show data))]) ;;
    alloc (Obj [("type", VStr "image_url"); ("image_url", image_url)]).

Definition toOpenAIContent (c : value) : M value :=
  match c with
  | VStr _ => ret c
  | _ =>
      parts <- elements c ;;
      converted <- traverse openai_part parts ;;
      alloc (Arr converted)
  end.

(** The callback of [content.map] in [toTextContent]. *)
Definition text_of_part (part : value) : M value :=
  t <- get part "type" ;;
  if is_string t "text" then get part "text" else ret (VStr "[image]").

Definition toTextContent (c : value) : M value :=
  match c with
  | VStr _ => ret c
  | _ =>
      parts <- elements c ;;
      texts <- traverse text_of_part parts ;;
      _ <- alloc (Arr texts) ;;
      ret (VStr (String.concat " " (map join_show texts)))
  end.

(** The callback of [content.map] in [contentForClaude]. *)
Definition claude_part (part : value) : M value :=
  t <- get part "type" ;;
  if is_string t "text" then
    x <- get part "text" ;;
    alloc (Obj [("type", VStr "text"); ("text", x)])
  else
    mediaType <- get part "mediaType" ;;
    data <- get part "data" ;;
    source <- alloc (Obj [("type", VStr "base64");
                          ("media_type", mediaType);
                          ("data", data)]) ;;
    alloc (Obj [("type", VStr "image"); ("source", source)]).

Definition contentForClaude (c : value) : M value :=
  match c with
  | VStr _ => ret c
  | _ =>
      parts <- elements c ;;
      converted <- traverse claude_part parts ;;
      alloc (Arr converted)
  end.

Definition part_is_image (part : value) : M bool :=
  t <- get part "type" ;; ret (is_string t "image").

Definition message_has_image (message : value) : M bool :=
  c <- get message "content" ;;
  isArr <- isArray c ;;
  if isArr then parts <- elements c ;; some part_is_image parts
  else ret false.

Definition hasImage (messages : value) : M bool :=
  msgs <- elements messages ;;
  some message_has_image msgs.

(** [(m) => ({ role: m.role, content: convert(m.content) })] *)
Definition convert_message (convert : value -> M value) (m : value) : M value :=
  r <- get m "role" ;;
  c <- get m "content" ;;
  c' <- convert c ;;
  alloc (Obj [("role", r); ("content", c')]).

(** [messages.map(...)] *)
Definition convert_messages (convert : value -> M value) (messages : value)
    : M value :=
  msgs <- elements messages ;;
  converted <- traverse (convert_message convert) msgs ;;
  alloc (Arr converted).

(** [[{ role: "system", content: systemPrompt }, ...messages.map(...)]] *)
Definition request_messages (convert : value -> M value)
    (systemPrompt : string) (messages : value) : M value :=
  sys <- alloc (Obj [("role", VStr "system"); ("content", VStr systemPrompt)]) ;;
  mapped <- convert_messages convert messages ;;
  rest <- elements mapped ;;
  alloc (Arr (sys :: rest)).

Definition thinking_object (t : ThinkingMode) : M value :=
  alloc (Obj [("type", VStr (thinking_name t))]).

(** ** The adapters *)

Definition callClaude (up : Upstream) (apiKey model systemPrompt : string)
    (messages : value) : M AIResponse :=
  mapped <- convert_messages contentForClaude messages ;;
  payload <- alloc (Obj [("model", VStr model);
                         ("max_tokens", VNum 1024);
                         ("system", VStr systemPrompt);
                         ("messages", mapped)]) ;;
  response <- post_json up "https://api.anthropic.com/v1/messages"
                [("Content-Type", "application/json");
                 ("x-api-key", apiKey);
                 ("anthropic-version", "2023-06-01")] payload ;;
  if negb (ok response) then throw (api_error "Claude" response)
  else
    match json response with
    | PClaude data => ret (claude_result data)
    | other => throw (shape_error other)
    end.

Definition callOpenAICompatible (env : gmap string string) (up : Upstream)
    (provider apiKey model systemPrompt : string) (messages : value)
    (thinking : option ThinkingMode) : M AIResponse :=
  match chat_url env provider with
  | None => throw (Error ("No endpoint configured for provider: " +:+ provider))
  | Some u =>
      msgs <- request_messages toOpenAIContent systemPrompt messages ;;
      payload <- alloc (Obj [("model", VStr model);
                             ("max_tokens", VNum 1024);
                             ("messages", msgs)]) ;;
      (match (if String.eqb provider "moonshot" then thinking else None) with
       | Some mode => t <- thinking_object mode ;; set payload "thinking" t
       | None => ret tt
       end) ;;;
      response <- post_json up u (bearer_headers apiKey) payload ;;
      if negb (ok response) then throw (api_error provider response)
      else
        match json response with
        | POpenAI data => ret (chat_result data)
        | other => throw (shape_error other)
        end
  end.

(** The tool calls of a parsed response, as the objects [response.json()]
    built; they enter the store when the loop first refers to them. *)
Definition alloc_tool_call (tc : OpenAIToolCall) : M value :=
  f <- alloc (Obj [("name", VStr (tc_name tc));
                   ("arguments", VStr (tc_arguments tc))]) ;;
  alloc (Obj [("id", VStr (tc_id tc));
              ("type", VStr "function");
              ("function", f)]).

Definition alloc_tool_calls (calls : list OpenAIToolCall) : M value :=
  objs <- traverse alloc_tool_call calls ;;
  alloc (Arr objs).

Definition nullable (s : option string) : value :=
  match s with Some v => VStr v | None => VNull end.

(** The returned object; it refers to the [searchQueries] array, read here. *)
Definition loop_return (choice : OpenAIChoice) (tin tout : Z)
    (searchQueries : value) : M AIResponse :=
  qs <- elements searchQueries ;;
  ret (loop_result choice tin tout (map show qs)).

(** [searchQueries.push(toolCall.function.arguments)] *)
Definition record_query (searchQueries : value) (tc : OpenAIToolCall) : M unit :=
  push searchQueries (VStr (tc_arguments tc)).

(** [apiMessages.push({ role: "tool", ... })] *)
Definition acknowledge (apiMessages : value) (tc : OpenAIToolCall) : M unit :=
  ack <- alloc (Obj [("role", VStr "tool");
                     ("tool_call_id", VStr (tc_id tc));
                     ("name", VStr (tc_name tc));
                     ("content", VStr (tc_arguments tc))]) ;;
  push apiMessages ack.

Fixpoint tool_rounds (up : Upstream) (u apiKey model : string)
    (thinking : option ThinkingMode) (tools apiMessages searchQueries : value)
    (fuel : nat) (totalInputTokens totalOutputTokens : Z) : M AIResponse :=
  match fuel with
  | O => throw (Error "moonshot web search exceeded maximum iterations")
  | S fuel' =>
      extra <- match thinking with
               | Some mode => t <- thinking_object mode ;; ret [("thinking", t)]
               | None => ret []
               end ;;
      payload <- alloc (Obj ([("model", VStr model);
                              ("max_tokens", VNum 1024);
                              ("messages", apiMessages);
                              ("tools", tools)] ++ extra)) ;;
      response <- post_json up u (bearer_headers apiKey) payload ;;
      if negb (ok response) then throw (api_error "moonshot" response)
      else
        match json response with
        | POpenAI data =>
            let tin := totalInputTokens
                       + default 0 (openai_usage data ≫= prompt_tokens) in
            let tout := totalOutputTokens
                        + default 0 (openai_usage data ≫= completion_tokens) in
            match head (choices data) with
            | None => throw (Error "moonshot API returned no choices")
            | Some choice =>
                if String.eqb (finish_reason choice) "stop"
                then loop_return choice tin tout searchQueries
                else
                  match pending_calls choice with
                  | Some calls =>
                      forEach (record_query searchQueries) calls ;;;
                      echoed <- alloc_tool_calls calls ;;
                      turn <- alloc (Obj [("role", VStr "assistant");
                                          ("content",
                                           nullable (msg_content (message choice)));
                                          ("tool_calls", echoed)]) ;;
                      push apiMessages turn ;;;
                      forEach (acknowledge apiMessages) calls ;;;
                      tool_rounds up u apiKey model thinking tools apiMessages
                        searchQueries fuel' tin tout
                  | None => loop_return choice tin tout searchQueries
                  end
            end
        | other => throw (shape_error other)
        end
  end.

Definition callMoonshotWithSearch (up : Upstream)
    (apiKey model systemPrompt : string) (messages : value)
    (thinking : option ThinkingMode) : M AIResponse :=
  match non_empty (OPENAI_COMPATIBLE_ENDPOINTS !! "moonshot") with
  | None => throw (Error "No endpoint configured for provider: moonshot")
  | Some u =>
      f <- alloc (Obj [("name", VStr "$web_search")]) ;;
      tool <- alloc (Obj [("type", VStr "builtin_function"); ("function", f)]) ;;
      tools <- alloc (Arr [tool]) ;;
      apiMessages <- request_messages toOpenAIContent systemPrompt messages ;;
      searchQueries <- alloc (Arr []) ;;
      tool_rounds up u apiKey model thinking tools apiMessages searchQueries
        MAX_TOOL_ITERATIONS 0 0
  end.

Definition callResponsesAPIWithSearch (env : gmap string string) (up : Upstream)
    (provider apiKey model systemPrompt : string) (messages : value)
    : M AIResponse :=
  match responses_url env provider with
  | None =>
      throw (Error ("No Responses API endpoint configured for provider: "
                    +:+ provider))
  | Some u =>
      input <- request_messages toTextContent systemPrompt messages ;;
      tool <- alloc (Obj [("type", VStr "web_search")]) ;;
      tools <- alloc (Arr [tool]) ;;
      payload <- alloc (Obj [("model", VStr model);
                             ("input", input);
                             ("tools", tools);
                             ("store", VBool false)]) ;;
      response <- post_json up u (bearer_headers apiKey) payload ;;
      if negb (ok response) then throw (api_error provider response)
      else
        match json response with
        | PResponses data => ret (responses_result data)
        | other => throw (shape_error other)
        end
  end.

(** ** The facade *)

(** [options?.webSearch && !hasImage(messages)]: [hasImage] runs only when
    the left operand is truthy. *)
Definition allowWebSearch (options : option GenerateResponseOptions)
    (messages : value) : M (option bool) :=
  match options ≫= webSearch with
  | Some true => b <- hasImage messages ;; ret (Some (negb b))
  | falsy => ret falsy
  end.

Definition generateResponse (env : gmap string string) (up : Upstream)
    (provider apiKey model systemPrompt : string) (messages : value)
    (options : option GenerateResponseOptions) : M AIResponse :=
  allow <- allowWebSearch options messages ;;
  if String.eqb provider "claude" then
    callClaude up apiKey model systemPrompt messages
  else if String.eqb provider "moonshot" then
    if truthy allow then
      callMoonshotWithSearch up apiKey model systemPrompt messages
        (options ≫= thinking)
    else
      callOpenAICompatible env up provider apiKey model systemPrompt messages
        (options ≫= thinking)
  else if String.eqb provider "grok" then
    if truthy allow then
      callResponsesAPIWithSearch env up provider apiKey model systemPrompt messages
    else
      callOpenAICompatible env up provider apiKey model systemPrompt messages
        (options ≫= thinking)
  else if String.eqb provider "openai" then
    if truthy allow then
      callResponsesAPIWithSearch env up provider apiKey model systemPrompt messages
    else
      callOpenAICompatible env up provider apiKey model systemPrompt messages
        (options ≫= thinking)
  else
    throw (Error ("Unknown AI provider: " +:+ provider)).

(** ** The caller's conversation, put in the store *)

Definition alloc_part (part : ContentPart) : M value :=
  match part with
  | TextPart t => alloc (Obj [("type", VStr "text"); ("text", VStr t)])
  | ImagePart mediaType data =>
      alloc (Obj [("type", VStr "image");
                  ("mediaType", VStr mediaType);
                  ("data", VStr data)])
  end.

Definition alloc_content (c : Content) : M value :=
  match c with
  | Str s => ret (VStr s)
  | Parts parts => ps <- traverse alloc_part parts ;; alloc (Arr ps)
  end.

Definition alloc_message (m : ConversationMessage) : M value :=
  c <- alloc_content (content m) ;;
  alloc (Obj [("role", VStr (role_name (role m))); ("content", c)]).

Definition alloc_conversation (messages : list ConversationMessage) : M value :=
  ms <- traverse alloc_message messages ;;
  alloc (Arr ms).

(** ** A logic of calls that leave the first [n] cells alone *)

Definition preserved (n : nat) (s s' : State) : Prop :=
  (length (store s) <= length (store s'))%nat /\
  forall l, (l < n)%nat -> store s' !! l = store s !! l.

(** [safe n m Q]: run in a store of at least [n] cells, [m] changes none of
    the first [n] and a returned value satisfies [Q]. *)
Definition safe (n : nat) {A} (m : M A) (Q : A -> Prop) : Prop :=
  forall s, (n <= length (store s))%nat ->
    preserved n s (snd (m s)) /\
    match fst (m s) with inr a => Q a | inl _ => True end.

(** A reference made after the first [n] cells. *)
Definition fresh (n : nat) (v : value) : Prop :=
  match v with VRef l => (n <= l)%nat | _ => True end.

Definition any {A} : A -> Prop := fun _ => True.

End Heap.

(** A store as the caller leaves it: the conversation and nothing else. *)
Module HeapScenario.

Definition empty : Heap.State := {| Heap.store := []; Heap.log := [] |}.

(** The store after the caller built [messages], and the reference to the
    array. *)
Definition caller (messages : list ConversationMessage) : Heap.State :=
  snd (Heap.alloc_conversation messages empty).

Definition conversation (messages : list ConversationMessage) : Heap.value :=
  match fst (Heap.alloc_conversation messages empty) with
  | inr array => array
  | inl _ => Heap.VUndefined
  end.

End HeapScenario.

(** * What the store holds

    The relation between the two models: which JSON value a value of the
    store denotes, how the caller's conversation sits in the store, and
    when a call over the store agrees with a call over values. *)
Module Rep.

Import Heap(loc, value(..), cell(..), State, store, log, alloc, get, elements,
  isArray, push, traverse, forEach, stringify, post_json, show, join_show,
  openai_part, claude_part, text_of_part, convert_message, alloc_tool_call,
  record_query, acknowledge, part_is_image, message_has_image,
  defined, prop_lookup, is_string, nullable, alloc_tool_calls, loop_return,
  request_messages, thinking_object).

(** [den F h j v]: the value [v] denotes the JSON value [j] in the store
    [h], through cells that all satisfy [F]. *)
Fixpoint den (F : loc -> Prop) (h : list cell) (j : Json) (v : value) {struct j}
    : Prop :=
  match j with
  | JNull => v = VNull
  | JBool b => v = VBool b
  | JNum n => v = VNum n
  | JStr s => v = VStr s
  | JArr js =>
      exists l vs,
        v = VRef l /\ F l /\ h !! l = Some (Arr vs) /\
        (fix all (js : list Json) (vs : list value) : Prop :=
           match js, vs with
           | [], [] => True
           | j :: js', x :: vs' => den F h j x /\ all js' vs'
           | _, _ => False
           end) js vs
  | JObj ps =>
      exists l props,
        v = VRef l /\ F l /\ h !! l = Some (Obj props) /\
        (fix all (ps : list (string * Json)) (props : list (string * value)) : Prop :=
           match ps, props with
           | [], [] => True
           | (k, j) :: ps', (k', x) :: props' =>
               k = k' /\ defined x = true /\ den F h j x /\ all ps' props'
           | _, _ => False
           end) ps props
  end.

(** The elements of an array denote the items of [js], one by one. *)
Fixpoint den_items (F : loc -> Prop) (h : list cell)
    (js : list Json) (vs : list value) : Prop :=
  match js, vs with
  | [], [] => True
  | j :: js', x :: vs' => den F h j x /\ den_items F h js' vs'
  | _, _ => False
  end.

(** The properties of an object denote the members of [ps] in order; none
    is [undefined], which [JSON.stringify] would leave out. *)
Fixpoint den_props (F : loc -> Prop) (h : list cell)
    (ps : list (string * Json)) (props : list (string * value)) : Prop :=
  match ps, props with
  | [], [] => True
  | (k, j) :: ps', (k', x) :: props' =>
      k = k' /\ defined x = true /\ den F h j x /\ den_props F h ps' props'
  | _, _ => False
  end.

(** The measure for induction on JSON values, the nested lists included. *)
Fixpoint size (j : Json) : nat :=
  match j with
  | JArr js => S (fold_right (fun j n => size j + n)%nat 0%nat js)
  | JObj ps => S (fold_right (fun p n => size (snd p) + n)%nat 0%nat ps)
  | _ => 1%nat
  end.

(** Cells that satisfy [F] are the same in [h'] as in [h]. *)
Definition agree (F : loc -> Prop) (h h' : list cell) : Prop :=
  forall l c, F l -> h !! l = Some c -> h' !! l = Some c.

(** The state after the cells [new] were made. *)
Definition extend (s : State) (new : list cell) : State :=
  {| store := store s ++ new; log := log s |}.

(** The cells made since the store had [n] cells. *)
Definition since (n : nat) : loc -> Prop := fun l => (n <= l)%nat.

(** Every cell of [h0] is in [h], unchanged. *)
Definition keeps (h0 h : list cell) : Prop :=
  forall l c, h0 !! l = Some c -> h !! l = Some c.

(** A content part as the caller holds it: an object with its [type] and
    the fields of that variant. *)
Definition part_cell (part : ContentPart) : cell :=
  match part with
  | TextPart t => Obj [("type", VStr "text"); ("text", VStr t)]
  | ImagePart mediaType data =>
      Obj [("type", VStr "image"); ("mediaType", VStr mediaType);
           ("data", VStr data)]
  end.

(** [v] refers to the object of [part]. *)
Definition rep_part (h0 : list cell) (v : value) (part : ContentPart) : Prop :=
  exists l, v = VRef l /\ h0 !! l = Some (part_cell part).

(** [v] is the string, or refers to the array of parts, of the content [c]. *)
Definition rep_content (h0 : list cell) (v : value) (c : Content) : Prop :=
  match c with
  | Str s => v = VStr s
  | Parts parts =>
      exists l vs, v = VRef l /\ h0 !! l = Some (Arr vs) /\
                   Forall2 (rep_part h0) vs parts
  end.

(** [v] refers to the object [{ role, content }] of the message [m]. *)
Definition rep_message (h0 : list cell) (v : value) (m : ConversationMessage)
    : Prop :=
  exists l cv,
    v = VRef l /\
    h0 !! l = Some (Obj [("role", VStr (role_name (role m))); ("content", cv)]) /\
    rep_content h0 cv (content m).

(** [v] refers to an array that holds the conversation [messages]. *)
Definition rep_messages (h0 : list cell) (v : value)
    (messages : list ConversationMessage) : Prop :=
  exists l vs, v = VRef l /\ h0 !! l = Some (Arr vs) /\
               Forall2 (rep_message h0) vs messages.

(** [builds h0 m j]: in any store that keeps [h0], [m] returns a value that
    denotes [j] through cells it has just made, and only adds cells. *)
Definition builds (h0 : list cell) (m : Heap.M value) (j : Json) : Prop :=
  forall s,
    keeps h0 (store s) ->
    exists v new,
      m s = (inr v, extend s new) /\
      den (since (length (store s))) (store s ++ new) j v.

(** The object [toOpenAIContent] makes of one part. *)
Definition openai_part_json (part : ContentPart) : Json :=
  match part with
  | TextPart t => JObj [("type", JStr "text"); ("text", JStr t)]
  | ImagePart mediaType data =>
      JObj [("type", JStr "image_url");
            ("image_url",
             JObj [("url", JStr ("data:" +:+ mediaType +:+ ";base64," +:+ data))])]
  end.

(** The object [contentForClaude] makes of one part. *)
Definition claude_part_json (part : ContentPart) : Json :=
  match part with
  | TextPart t => JObj [("type", JStr "text"); ("text", JStr t)]
  | ImagePart mediaType data =>
      JObj [("type", JStr "image");
            ("source", JObj [("type", JStr "base64");
                             ("media_type", JStr mediaType);
                             ("data", JStr data)])]
  end.

(** The text [toTextContent] makes of one part. *)
Definition part_text (part : ContentPart) : string :=
  match part with TextPart t => t | ImagePart _ _ => "[image]" end.

(** The object [messages.map] makes of one message. *)
Definition message_json (pconvert : Content -> Json) (m : ConversationMessage)
    : Json :=
  JObj [("role", JStr (role_name (role m))); ("content", pconvert (content m))].

(** Run from [s], the store-level call [m] returns what the value-level call
    [p] returns when run from the log of [s], and leaves the same log. *)
Definition agrees {A} (m : Heap.M A) (p : M A) (s : State) : Prop :=
  fst (m s) = fst (p (log s)) /\ log (snd (m s)) = snd (p (log s)).

(** The state after [req] was sent and answered with [r]. *)
Definition sent (s : State) (req : Request) (r : Response) : State :=
  {| store := store s; log := log s ++ [(req, Resolved r)] |}.

(** The state after the cell [l] was updated in place. *)
Definition put (s : State) (l : loc) (c : cell) : State :=
  {| store := <[l := c]> (store s); log := log s |}.

(** The tool-result turn that acknowledges [tc], as an object. *)
Definition ack_cell (tc : OpenAIToolCall) : cell :=
  Obj [("role", VStr "tool");
       ("tool_call_id", VStr (tc_id tc));
       ("name", VStr (tc_name tc));
       ("content", VStr (tc_arguments tc))].

(** The cells other than the two arrays the loop updates in place. *)
Definition outside (l_api l_q : loc) : loc -> Prop :=
  fun l => l <> l_api /\ l <> l_q.

(** The loop's variables in the store [h]: the [tools] array, the
    [apiMessages] array in the cell [l_api], the [searchQueries] array in
    the cell [l_q]. *)
Definition loop_inv (h : list cell) (tools : value) (l_api l_q : loc)
    (msgs : list Json) (qs : list string) : Prop :=
  l_api <> l_q /\
  den (outside l_api l_q) h moonshot_tools tools /\
  h !! l_q = Some (Arr (map VStr qs)) /\
  exists vs, h !! l_api = Some (Arr vs) /\
             den_items (outside l_api l_q) h msgs vs.

(** The callback of [messages.some] in [hasImage]. *)
Definition content_has_image (c : Content) : bool :=
  match c with Str _ => false | Parts parts => existsb is_image parts end.

End Rep.

(** * Around the gateway: URL helpers, the Telegram and issue-tracker
    clients, the environment and the image helpers *)

(** ** Reading strings and requests *)

(** [n] slashes. *)
Fixpoint slashes (n : nat) : string :=
  match n with O => EmptyString | S n' => String "/" (slashes n') end.

(** The last, the first and every character of [s] satisfies [p]. *)
Fixpoint ends_in (p : ascii -> bool) (s : string) : bool :=
  match s with
  | EmptyString => false
  | String c EmptyString => p c
  | String _ rest => ends_in p rest
  end.

Definition starts_in (p : ascii -> bool) (s : string) : bool :=
  match s with
  | EmptyString => false
  | String c _ => p c
  end.

Fixpoint all_in (p : ascii -> bool) (s : string) : bool :=
  match s with
  | EmptyString => true
  | String c rest => p c && all_in p rest
  end.

(** The [thinking] property of a request body. *)
Definition thinking_of (req : Request) : option Json :=
  body req ≫= json_field "thinking".

(** The providers [generateResponse] has a case for. *)
Definition known_providers : list string := ["claude"; "moonshot"; "grok"; "openai"].


(** The endpoint a call for [provider] talks to; [search] is whether web
    search is allowed. *)
Definition endpoint (env : gmap string string) (provider : string) (search : bool)
    : string :=
  if String.eqb provider "claude" then "https://api.anthropic.com/v1/messages"
  else if String.eqb provider "moonshot"
       then "https://api.moonshot.ai/v1/chat/completions"
  else if String.eqb provider "grok"
       then (if search then "https://api.x.ai/v1/responses"
             else "https://api.x.ai/v1/chat/completions")
  else getOpenAIBaseUrl env +:+ (if search then "/responses" else "/chat/completions").

(** The name an adapter puts in front of "API error". *)
Definition error_prefix (provider : string) : string :=
  if String.eqb provider "claude" then "Claude" else provider.

(** ** The rest of the Telegram client ([convex/lib/telegramApi.ts]) *)

Inductive ParseMode := HTML | Markdown | MarkdownV2.

Definition parse_mode_name (p : ParseMode) : string :=
  match p with HTML => "HTML" | Markdown => "Markdown" | MarkdownV2 => "MarkdownV2" end.

Record SendOptions := {
  replyToMessageId : option Z;
  messageThreadId : option Z;
  parseMode : option ParseMode
}.

(** [if (n)] for an optional number: [undefined] and [0] are falsy. *)
Definition truthy_number (n : option Z) : option Z :=
  match n with
  | Some v => if v =? 0 then None else Some v
  | None => None
  end.

Definition json_headers : list (string * string) :=
  [("Content-Type", "application/json")].

(** The object [sendMessage] builds: [chat_id] and [text], then the optional
    properties in the order of the assignments. *)
Definition sendMessage_body (chatId : Z) (text : string)
    (options : option SendOptions) : Json :=
  JObj ([("chat_id", JNum chatId); ("text", JStr text)]
        ++ match truthy_number (options ≫= messageThreadId) with
           | Some thread => [("message_thread_id", JNum thread)]
           | None => []
           end
        ++ match truthy_number (options ≫= replyToMessageId) with
           | Some id => [("reply_parameters", JObj [("message_id", JNum id)])]
           | None => []
           end
        ++ match options ≫= parseMode with
           | Some mode => [("parse_mode", JStr (parse_mode_name mode))]
           | None => []
           end).

Definition telegram_error (response : Response) : exn :=
  Error ("Telegram API error: " +:+ string_of_number (status response)
         +:+ " - " +:+ raw response).

(** A value [response.json()] yielded and the caller passes on whole: the
    view the typed code has of it, and the text it was parsed from. *)
Record Parsed := {
  view : Payload;
  source : string
}.

(** [response.json()], returned as it is. *)
Definition parsed (response : Response) : M Parsed :=
  match json response with
  | PNotJson => throw SyntaxError
  | p => ret {| view := p; source := raw response |}
  end.

Definition sendMessage (up : Upstream) (token : string) (chatId : Z)
    (text : string) (options : option SendOptions) : M Parsed :=
  (response <- fetch up
     (post (BASE_URL +:+ token +:+ "/sendMessage") json_headers
           (sendMessage_body chatId text options)) ;;
   if negb (ok response) then throw (telegram_error response)
   else parsed response)%async.

Inductive ChatAction := typing | upload_document.

Definition chat_action_name (a : ChatAction) : string :=
  match a with typing => "typing" | upload_document => "upload_document" end.

Definition sendChatAction_body (chatId : Z) (action : option ChatAction)
    (messageThreadId : option Z) : Json :=
  JObj ([("chat_id", JNum chatId);
         (* action: "typing" | "upload_document" = "typing" *)
         ("action", JStr (chat_action_name (default typing action)))]
        ++ match truthy_number messageThreadId with
           | Some thread => [("message_thread_id", JNum thread)]
           | None => []
           end).

(** The response is awaited and not looked at. *)
Definition sendChatAction (up : Upstream) (token : string) (chatId : Z)
    (action : option ChatAction) (messageThreadId : option Z) : M unit :=
  (response <- fetch up
     (post (BASE_URL +:+ token +:+ "/sendChatAction") json_headers
           (sendChatAction_body chatId action messageThreadId)) ;;
   ret tt)%async.

(** The status of the response is not checked. *)
Definition setWebhook (up : Upstream) (token webhookUrl secret : string)
    : M Parsed :=
  (response <- fetch up
     (post (BASE_URL +:+ token +:+ "/setWebhook") json_headers
           (JObj [("url", JStr webhookUrl);
                  ("secret_token", JStr secret);
                  ("allowed_updates", JArr [JStr "message"]);
                  ("max_connections", JNum 40)])) ;;
   parsed response)%async.

(** ** The issue tracker client ([convex/lib/github.ts]) *)

Definition createGitHubIssue (up : Upstream) (token repo title body : string)
    : M Parsed :=
  (response <- fetch up
     (post ("https://api.github.com/repos/" +:+ repo +:+ "/issues")
           [("Content-Type", "application/json");
            ("Authorization", "Bearer " +:+ token);
            ("Accept", "application/vnd.github+json");
            ("X-GitHub-Api-Version", "2022-11-28");
            ("User-Agent", "nerdbot")]
           (JObj [("title", JStr title); ("body", JStr body)])) ;;
   if negb (ok response)
   then throw (Error ("GitHub API error: " +:+ string_of_number (status response)
                      +:+ " - " +:+ raw response))
   else parsed response)%async.

(** ** Reading the environment ([convex/lib/env.ts]) *)

(** The names [Object.prototype] has a property for. For every other name
    [process.env[name]] is the variable of that name, or [undefined]; the
    functions below are stated for such names. *)
Definition on_prototype (name : string) : bool :=
  existsb (String.eqb name)
    ["constructor"; "__proto__"; "hasOwnProperty"; "isPrototypeOf";
     "propertyIsEnumerable"; "toLocaleString"; "toString"; "valueOf";
     "__defineGetter__"; "__defineSetter__"; "__lookupGetter__";
     "__lookupSetter__"].

Definition requireEnv (env : gmap string string) (name : string) : exn + string :=
  match env !! name with
  | Some value =>
      if truthy_string value then inr value
      else inl (Error ("Missing required environment variable: " +:+ name))
  | None => inl (Error ("Missing required environment variable: " +:+ name))
  end.

(** [String.prototype.toLowerCase] on one code unit below 256: the letters
    A to Z and the capital letters of Latin-1 (192 to 222, the multiplication
    sign 215 apart) move up by 32. *)
Definition lower_unit (c : ascii) : ascii :=
  let n := nat_of_ascii c in
  if ((65 <=? n)%nat && (n <=? 90)%nat)
     || ((192 <=? n)%nat && (n <=? 222)%nat && negb (n =? 215)%nat)
  then ascii_of_nat (n + 32) else c.

Fixpoint toLowerCase (s : string) : string :=
  match s with
  | EmptyString => EmptyString
  | String c rest => String (lower_unit c) (toLowerCase rest)
  end.

Definition readOptionalThinkingEnv (env : gmap string string) (name : string)
    : exn + ThinkingMode :=
  match env !! name with
  | None => inr disabled
  | Some value =>
      if negb (truthy_string value) then inr disabled
      else
        let normalized := toLowerCase (trim value) in
        if String.eqb normalized "disabled" then inr disabled
        else if String.eqb normalized "enabled" then inr enabled
        else if String.eqb normalized "auto" then inr auto
        else inl (Error ("Invalid value for environment variable: " +:+ name
                         +:+ ". Expected disabled, enabled, or auto."))
  end.

(** ** Classifying an upstream failure ([convex/telegram.ts]) *)

(** [hay.includes(needle)] *)
Fixpoint includes (hay needle : string) : bool :=
  String.prefix needle hay
  || match hay with
     | EmptyString => false
     | String _ rest => includes rest needle
     end.

Definition isImageUnsupportedError (message : string) : bool :=
  let lowered := toLowerCase message in
  includes lowered "image"
  && (includes lowered "unsupported"
      || includes lowered "not supported"
      || includes lowered "not allowed"
      || includes lowered "vision"
      || includes lowered "image_url"
      || includes lowered "multimodal"
      || includes lowered "content type").

(** ** Base64 as the platform offers it ([convex/telegram.ts]) *)

(** [String.fromCharCode(...chunk)] *)
Definition fromCharCode (chunk : list byte) : string :=
  string_of_list_ascii (map ascii_of_byte chunk).

Definition chunkSize : nat := Z.to_nat 32768.     (* 0x8000 *)

(** [for (let i = 0; i < bytes.length; i += chunkSize)]: [fuel] bounds the
    iterations left; each one moves [i] forward, so the length of [bytes]
    and one more is enough. *)
Fixpoint binary_loop (fuel : nat) (bytes : list byte) (i : nat) (binary : string)
    : string :=
  match fuel with
  | O => binary
  | S fuel' =>
      if (i <? length bytes)%nat
      then binary_loop fuel' bytes (i + chunkSize)%nat
             (binary +:+ fromCharCode (firstn chunkSize (skipn i bytes)))
      else binary
  end.

(** [toBase64] with the two encoders the platform may have: [btoa], from a
    binary string, and [Buffer], from the bytes. *)
Definition toBase64_platform (btoa : option (string -> string))
    (buffer : option (list byte -> string)) (bytes : list byte) : exn + string :=
  match btoa with
  | Some encode =>
      inr (encode (binary_loop (S (length bytes)) bytes 0 EmptyString))
  | None =>
      match buffer with
      | Some encode => inr (encode bytes)
      | None => inl (Error "Base64 encoding not supported in this environment")
      end
  end.

(** ** The logger ([convex/lib/logger.ts]) *)

(** [type LogValue = string | number | boolean | null | undefined] *)
Inductive LogValue :=
| LString (s : string)
| LNumber (n : Z)
| LBoolean (b : bool)
| LNull
| LUndefined.

(** The value as [JSON.stringify] writes it inside an object; a property
    whose value is [undefined] is left out. *)
Definition log_json (v : LogValue) : option Json :=
  match v with
  | LString s => Some (JStr s)
  | LNumber n => Some (JNum n)
  | LBoolean b => Some (JBool b)
  | LNull => Some JNull
  | LUndefined => None
  end.

Definition is_digit (c : ascii) : bool :=
  let n := nat_of_ascii c in (48 <=? n)%nat && (n <=? 57)%nat.

Fixpoint digits_value (acc : N) (s : string) : option N :=
  match s with
  | EmptyString => Some acc
  | String c rest =>
      if is_digit c
      then digits_value (acc * 10 + N.of_nat (nat_of_ascii c - 48)) rest
      else None
  end.

(** The array index a property key is, if it is one: the canonical decimal
    string of an integer from 0 to 2^32 - 2. An object lists these keys
    first, in ascending order. *)
Definition array_index (key : string) : option N :=
  match key with
  | EmptyString => None
  | String c rest =>
      if Ascii.eqb c "0" && negb (String.eqb rest "") then None
      else
        match digits_value 0 key with
        | Some n => if (n <=? 4294967294)%N then Some n else None
        | None => None
        end
  end.

Module Logger.

(** The [fields] object: its own properties in the order of their creation,
    and whether its prototype is still [Object.prototype]. *)
Record t := {
  fields : list (string * LogValue);
  plain : bool
}.

(** [private fields: Record<string, LogValue> = {}] *)
Definition empty : t := {| fields := []; plain := true |}.

(** [fields[key] = value] for an ordinary key: a property the object has
    keeps its place, a new one goes last. *)
Fixpoint assign (key : string) (value : LogValue)
    (props : list (string * LogValue)) : list (string * LogValue) :=
  match props with
  | [] => [(key, value)]
  | (k, v) :: rest =>
      if String.eqb k key then (k, value) :: rest
      else (k, v) :: assign key value rest
  end.

(** [this.fields[key] = value; return this]. While the prototype is
    [Object.prototype], the key "__proto__" reaches its setter, which
    ignores every value but [null] and for [null] removes the prototype;
    after that "__proto__" is a key like any other. *)
Definition set (key : string) (value : LogValue) (log : t) : t :=
  if String.eqb key "__proto__" && plain log then
    match value with
    | LNull => {| fields := fields log; plain := false |}
    | _ => log
    end
  else {| fields := assign key value (fields log); plain := plain log |}.

Fixpoint insert_index (n : N) (p : string * LogValue)
    (sorted : list (N * (string * LogValue))) : list (N * (string * LogValue)) :=
  match sorted with
  | [] => [(n, p)]
  | (m, q) :: rest =>
      if (n <=? m)%N then (n, p) :: sorted else (m, q) :: insert_index n p rest
  end.

(** The properties whose key is an array index, in ascending order. *)
Fixpoint indexed (props : list (string * LogValue))
    : list (N * (string * LogValue)) :=
  match props with
  | [] => []
  | p :: rest =>
      match array_index (fst p) with
      | Some n => insert_index n p (indexed rest)
      | None => indexed rest
      end
  end.

(** The other properties, in the order of their creation. *)
Definition named (props : list (string * LogValue)) : list (string * LogValue) :=
  List.filter (fun p => match array_index (fst p) with Some _ => false | None => true end)
    props.

(** The own property keys in the order [JSON.stringify] visits them. *)
Definition ordered (props : list (string * LogValue)) : list (string * LogValue) :=
  map snd (indexed props) ++ named props.

(** [props[key]] for an own property. *)
Fixpoint value_of (key : string) (props : list (string * LogValue))
    : option LogValue :=
  match props with
  | [] => None
  | (k, v) :: rest => if String.eqb k key then Some v else value_of key rest
  end.

(** [JSON.stringify(this.fields)] *)
Definition printed (log : t) : Json :=
  JObj (omap (fun p => pair (fst p) <$> log_json (snd p)) (ordered (fields log))).

(** A chain of calls [.set(k1, v1).set(k2, v2)...] on [log]. *)
Definition after (sets : list (string * LogValue)) (log : t) : t :=
  fold_left (fun l kv => set (fst kv) (snd kv) l) sets log.

End Logger.

(** [createLogger(event)] *)
Definition createLogger (event : string) : Logger.t :=
  Logger.set "event" (LString event) Logger.empty.

(** ** The registration of the webhook ([convex/telegram.ts]) *)

(** [console.log], [console.warn] and [console.error] *)
Inductive Level := LevelLog | LevelWarn | LevelError.

(** What an action leaves behind: the HTTP exchanges and the lines on the
    console. *)
Record Effects := {
  exchanges : list Exchange;
  console : list (Level * Json)
}.

Definition Action (A : Type) : Type := Effects -> (exn + A) * Effects.

Definition act_ret {A} (a : A) : Action A := fun w => (inr a, w).

Definition act_bind {A B} (m : Action A) (k : A -> Action B) : Action B :=
  fun w =>
    match m w with
    | (inl e, w') => (inl e, w')
    | (inr a, w') => k a w'
    end.

(** A computation that throws or returns at once. *)
Definition now {A} (r : exn + A) : Action A := fun w => (r, w).

(** An asynchronous call, its exchanges added to the record. *)
Definition await {A} (m : M A) : Action A :=
  fun w =>
    (fst (m (exchanges w)),
     {| exchanges := snd (m (exchanges w)); console := console w |}).

(** [log.info()], [log.warn()] and [log.error()] *)
Definition emit (level : Level) (log : Logger.t) : Action unit :=
  fun w =>
    (inr tt,
     {| exchanges := exchanges w;
        console := console w ++ [(level, Logger.printed log)] |}).

Definition quiet : Effects := {| exchanges := []; console := [] |}.

(** The handler of [registerWebhook]. [canonical] is
    [JSON.stringify(JSON.parse(text))] as a function of the text. *)
Definition registerWebhook (canonical : string -> string)
    (env : gmap string string) (up : Upstream) : Action Parsed :=
  act_bind (now (requireEnv env "TELEGRAM_BOT_TOKEN")) (fun token =>
  act_bind (now (requireEnv env "TELEGRAM_WEBHOOK_SECRET")) (fun secret =>
  act_bind (now (requireEnv env "CONVEX_SITE_URL")) (fun convexUrl =>
  let webhookUrl := convexUrl +:+ "/api/telegram-webhook" in
  act_bind (await (setWebhook up token webhookUrl secret)) (fun result =>
  act_bind (emit LevelLog
              (Logger.set "result" (LString (canonical (source result)))
                 (Logger.set "url" (LString webhookUrl)
                    (createLogger "register_webhook")))) (fun _ =>
  act_ret result))))).

(** Upstreams that fail. *)
Module Outage.

Definition refusal : Response :=
  {| ok := false; status := 500; contentType := None; raw := "boom";
     json := PNotJson; arrayBuffer := [] |}.

(** Every request is answered with status 500. *)
Definition refuses : Upstream := fun _ _ => Resolved refusal.

End Outage.



(** * Reasoning about runs *)

(** ** One exchange *)

Lemma fetch_eq up req lg :
  fetch up req lg =
    (match up (map fst lg) req with
     | Rejected why => inl (NetworkError why)
     | Resolved r => inr r
     end,
     lg ++ [(req, up (map fst lg) req)]).
Proof. unfold fetch. destruct (up (map fst lg) req); reflexivity. Qed.

Lemma bind_fetch {A} up req (k : Response -> M A) lg :
  bind (fetch up req) k lg =
    match up (map fst lg) req with
    | Rejected why => (inl (NetworkError why), lg ++ [(req, Rejected why)])
    | Resolved r => k r (lg ++ [(req, Resolved r)])
    end.
Proof. unfold bind. rewrite fetch_eq. destruct (up (map fst lg) req); reflexivity. Qed.

(** The endpoint tables, looked up. *)

Lemma moonshot_endpoint :
  non_empty (OPENAI_COMPATIBLE_ENDPOINTS !! "moonshot")
  = Some "https://api.moonshot.ai/v1/chat/completions".
Proof. vm_compute. reflexivity. Qed.

Lemma grok_endpoint :
  non_empty (OPENAI_COMPATIBLE_ENDPOINTS !! "grok")
  = Some "https://api.x.ai/v1/chat/completions".
Proof. vm_compute. reflexivity. Qed.

Lemma grok_responses_endpoint :
  non_empty (RESPONSES_API_ENDPOINTS !! "grok") = Some "https://api.x.ai/v1/responses".
Proof. vm_compute. reflexivity. Qed.

(** ** The loop, round by round *)

Lemma tool_rounds_S up u apiKey model thinking fuel st lg :
  tool_rounds up u apiKey model thinking (S fuel) st lg =
    let req := tool_request u apiKey model thinking (apiMessages st) in
    let out := up (map fst lg) req in
    match round_step st out with
    | Continue st' => tool_rounds up u apiKey model thinking fuel st' (lg ++ [(req, out)])
    | Done res => (res, lg ++ [(req, out)])
    end.
Proof.
  cbn [tool_rounds]. rewrite bind_fetch. cbv zeta.
  destruct (up (map fst lg) _) as [why|response]; [reflexivity|].
  unfold round_step.
  destruct (negb (ok response)); [reflexivity|].
  destruct (json response) as [d|data|d|d| |]; try reflexivity.
  destruct (head (choices data)) as [choice|]; [|reflexivity].
  destruct (String.eqb (finish_reason choice) "stop"); [reflexivity|].
  destruct (pending_calls choice); reflexivity.
Qed.

Lemma tool_rounds_trace up u apiKey model thinking fuel :
  forall st lg,
  exists rounds,
    snd (tool_rounds up u apiKey model thinking fuel st lg) = lg ++ rounds /\
    loop_trace u apiKey model thinking fuel st rounds
      (fst (tool_rounds up u apiKey model thinking fuel st lg)).
Proof.
  induction fuel as [|fuel IH]; intros st lg.
  - exists []. cbn. rewrite app_nil_r. split; [reflexivity|constructor].
  - rewrite tool_rounds_S. cbv zeta.
    set (req := tool_request u apiKey model thinking (apiMessages st)).
    set (out := up (map fst lg) req).
    destruct (round_step st out) as [st'|res] eqn:Hstep.
    + destruct (IH st' (lg ++ [(req, out)])) as (rounds & Hlog & Htr).
      exists ((req, out) :: rounds). split.
      * rewrite Hlog, <- app_assoc. reflexivity.
      * eapply trace_continue; eassumption.
    + exists [(req, out)]. split; [reflexivity|].
      apply trace_done. exact Hstep.
Qed.

Lemma callMoonshotWithSearch_trace up apiKey model systemPrompt messages thinking :
  loop_trace moonshot_url apiKey model thinking MAX_TOOL_ITERATIONS
    (initial_state systemPrompt messages)
    (snd (run (callMoonshotWithSearch up apiKey model systemPrompt messages thinking)))
    (fst (run (callMoonshotWithSearch up apiKey model systemPrompt messages thinking))).
Proof.
  unfold run, callMoonshotWithSearch. rewrite moonshot_endpoint.
  destruct (tool_rounds_trace up moonshot_url apiKey model thinking
              MAX_TOOL_ITERATIONS (initial_state systemPrompt messages) [])
    as (rounds & Hlog & Htr).
  fold moonshot_url. rewrite Hlog. exact Htr.
Qed.

(** ** One round *)

Lemma stop_not_pending choice :
  String.eqb (finish_reason choice) "stop" = true -> pending_calls choice = None.
Proof.
  intros E. apply String.eqb_eq in E. unfold pending_calls. rewrite E. reflexivity.
Qed.

Ltac step_cases out :=
  unfold round_step, prompt_of, completion_of, round_calls, first_choice, round_data;
  destruct out as [why|response]; cbn;
  [| destruct (ok response); cbn;
     [destruct (json response) as [d|data|d|d| |]; cbn;
      [| destruct (head (choices data)) as [choice|] eqn:Hhead; cbn;
         [destruct (String.eqb (finish_reason choice) "stop") eqn:Hstop;
          [| destruct (pending_calls choice) as [calls|] eqn:Hpending ]
         |]
       | | | |]
     |]].

Lemma round_step_continue st out st' :
  round_step st out = Continue st' ->
  exists choice calls,
    first_choice out = Some choice /\
    round_calls out = Some calls /\
    st' = {| apiMessages :=
               apiMessages st
               ++ [assistant_tool_message choice calls]
               ++ map tool_result_message calls;
             totalInputTokens := totalInputTokens st + prompt_of out;
             totalOutputTokens := totalOutputTokens st + completion_of out;
             searchQueries := searchQueries st ++ map tc_arguments calls |}.
Proof.
  step_cases out; intros H; try discriminate H.
  injection H as <-. exists choice, calls. repeat split; assumption.
Qed.

Lemma round_step_returns st out r :
  round_step st out = Done (inr r) ->
  exists choice,
    first_choice out = Some choice /\
    round_calls out = None /\
    r = loop_result choice
          (totalInputTokens st + prompt_of out)
          (totalOutputTokens st + completion_of out)
          (searchQueries st).
Proof.
  step_cases out; intros H; try discriminate H;
    injection H as <-; exists choice; repeat split; try assumption.
  apply stop_not_pending; assumption.
Qed.

Lemma round_step_throws st out e :
  round_step st out = Done (inl e) ->
  e <> exceeded /\ round_calls out = None.
Proof.
  step_cases out; intros H; try discriminate H;
    injection H as <-; (split; [|reflexivity || assumption]);
    try (destruct d; discriminate); try discriminate.
Qed.

(** ** Facts read off a derivation *)

Lemma loop_trace_length u apiKey model thinking fuel st rounds res :
  loop_trace u apiKey model thinking fuel st rounds res -> (length rounds <= fuel)%nat.
Proof. induction 1; cbn; lia. Qed.

Lemma loop_trace_nonempty u apiKey model thinking fuel st rounds res :
  loop_trace u apiKey model thinking (S fuel) st rounds res ->
  exists out rest,
    rounds = (tool_request u apiKey model thinking (apiMessages st), out) :: rest.
Proof. inversion 1; subst; eauto. Qed.

(** The loop runs out of iterations exactly when every one of its [fuel]
    rounds was a tool-call round. *)
Lemma loop_trace_exceeded u apiKey model thinking fuel st rounds res :
  loop_trace u apiKey model thinking fuel st rounds res ->
  res = inl exceeded <->
  length rounds = fuel /\ Forall (fun x => round_calls (snd x) <> None) rounds.
Proof.
  induction 1 as [st|fuel st out res Hstep|fuel st out st' rounds res Hstep Htr IH].
  - split; [intros _; split; [reflexivity|constructor]|reflexivity].
  - split.
    + intros ->. apply round_step_throws in Hstep. destruct Hstep as [Hne _].
      contradiction.
    + intros [_ Hall]. inversion Hall as [|x l Hx _]; subst. cbn in Hx.
      destruct res as [e|r].
      * apply round_step_throws in Hstep. destruct Hstep as [_ Hnone]. contradiction.
      * apply round_step_returns in Hstep.
        destruct Hstep as (choice & _ & Hnone & _). contradiction.
  - apply round_step_continue in Hstep.
    destruct Hstep as (choice & calls & _ & Hcalls & _).
    destruct IH as [IH1 IH2]. cbn [length]. split.
    + intros Hres. destruct (IH1 Hres) as [Hlen Hall].
      split; [lia|]. constructor; [|exact Hall].
      cbn. rewrite Hcalls. discriminate.
    + intros [Hlen Hall]. apply IH2. split; [lia|]. inversion Hall; assumption.
Qed.

(** A returned result is built from the last round's first choice and the
    totals of all rounds. *)
Lemma loop_trace_returns u apiKey model thinking fuel st rounds r :
  loop_trace u apiKey model thinking fuel st rounds (inr r) ->
  exists x choice,
    last rounds = Some x /\
    first_choice (snd x) = Some choice /\
    round_calls (snd x) = None /\
    r = loop_result choice
          (totalInputTokens st + sumZ (map prompt_of (outcomes rounds)))
          (totalOutputTokens st + sumZ (map completion_of (outcomes rounds)))
          (searchQueries st
           ++ map tc_arguments (flat_map acknowledged (outcomes rounds))).
Proof.
  remember (inr r) as res eqn:Hres. intros Htr. revert r Hres.
  induction Htr as [st|fuel st out res Hstep|fuel st out st' rounds res Hstep Htr IH];
    intros r Hres; try subst res.
  - discriminate.
  - apply round_step_returns in Hstep.
    destruct Hstep as (choice & Hchoice & Hnone & ->).
    eexists _, choice. split; [reflexivity|]. cbn [snd]. repeat split; try assumption.
    cbn. unfold acknowledged. rewrite Hnone. cbn.
    rewrite !Z.add_0_r, app_nil_r. reflexivity.
  - destruct (IH r eq_refl) as (x & choice & Hlast & Hchoice & Hnone & ->).
    apply round_step_continue in Hstep.
    destruct Hstep as (c0 & calls & _ & Hcalls & ->).
    exists x, choice. repeat split; try assumption.
    + destruct rounds as [|y rounds]; [discriminate|exact Hlast].
    + cbn. unfold acknowledged at 2. rewrite Hcalls. cbn.
      rewrite map_app, <- !app_assoc, !Z.add_assoc. reflexivity.
Qed.

(** Every request of the loop is a tool request over some message list. *)
Lemma loop_trace_requests u apiKey model thinking fuel st rounds res :
  loop_trace u apiKey model thinking fuel st rounds res ->
  Forall (fun x => exists msgs,
              fst x = tool_request u apiKey model thinking msgs) rounds.
Proof.
  induction 1; repeat constructor; eauto.
Qed.

(** ** The adapters that make one exchange *)

Ltac one_exchange up lg req :=
  rewrite bind_fetch;
  destruct (up (map fst lg) req) as [why|response] eqn:Hout; cbn [fst snd];
  [| destruct (ok response) eqn:Hok; cbn [negb fst snd];
     [destruct (json response) eqn:Hjson; cbn [fst snd]|]].

Lemma callClaude_log up apiKey model systemPrompt messages lg :
  snd (callClaude up apiKey model systemPrompt messages lg) =
    lg ++ [(claude_request apiKey model systemPrompt messages,
            up (map fst lg) (claude_request apiKey model systemPrompt messages))].
Proof.
  unfold callClaude.
  one_exchange up lg (claude_request apiKey model systemPrompt messages);
    reflexivity.
Qed.

Lemma callClaude_returns up apiKey model systemPrompt messages lg r :
  fst (callClaude up apiKey model systemPrompt messages lg) = inr r ->
  exists response data,
    up (map fst lg) (claude_request apiKey model systemPrompt messages)
      = Resolved response /\
    ok response = true /\ json response = PClaude data /\ r = claude_result data.
Proof.
  unfold callClaude.
  one_exchange up lg (claude_request apiKey model systemPrompt messages);
    intros H; try discriminate H.
  injection H as <-. eauto 10.
Qed.

Lemma callOpenAICompatible_log env up provider apiKey model systemPrompt messages
    thinking lg :
  snd (callOpenAICompatible env up provider apiKey model systemPrompt messages
         thinking lg) =
    lg ++ match chat_url env provider with
          | Some u =>
              let req := post u (bearer_headers apiKey)
                           (chat_payload provider model systemPrompt messages thinking) in
              [(req, up (map fst lg) req)]
          | None => []
          end.
Proof.
  unfold callOpenAICompatible.
  destruct (chat_url env provider) as [u|]; [|cbn; rewrite app_nil_r; reflexivity].
  one_exchange up lg (post u (bearer_headers apiKey)
                        (chat_payload provider model systemPrompt messages thinking));
    reflexivity.
Qed.

Lemma callOpenAICompatible_returns env up provider apiKey model systemPrompt
    messages thinking lg r :
  fst (callOpenAICompatible env up provider apiKey model systemPrompt messages
         thinking lg) = inr r ->
  exists u response data,
    chat_url env provider = Some u /\
    up (map fst lg)
       (post u (bearer_headers apiKey)
             (chat_payload provider model systemPrompt messages thinking))
      = Resolved response /\
    ok response = true /\ json response = POpenAI data /\ r = chat_result data.
Proof.
  unfold callOpenAICompatible.
  destruct (chat_url env provider) as [u|]; [|discriminate].
  one_exchange up lg (post u (bearer_headers apiKey)
                        (chat_payload provider model systemPrompt messages thinking));
    intros H; try discriminate H.
  injection H as <-. eauto 10.
Qed.

Lemma callResponsesAPIWithSearch_log env up provider apiKey model systemPrompt
    messages lg :
  snd (callResponsesAPIWithSearch env up provider apiKey model systemPrompt
         messages lg) =
    lg ++ match responses_url env provider with
          | Some u =>
              let req := post u (bearer_headers apiKey)
                           (responses_payload model systemPrompt messages) in
              [(req, up (map fst lg) req)]
          | None => []
          end.
Proof.
  unfold callResponsesAPIWithSearch.
  destruct (responses_url env provider) as [u|]; [|cbn; rewrite app_nil_r; reflexivity].
  one_exchange up lg (post u (bearer_headers apiKey)
                        (responses_payload model systemPrompt messages));
    reflexivity.
Qed.

Lemma callResponsesAPIWithSearch_returns env up provider apiKey model systemPrompt
    messages lg r :
  fst (callResponsesAPIWithSearch env up provider apiKey model systemPrompt
         messages lg) = inr r ->
  exists u response data,
    responses_url env provider = Some u /\
    up (map fst lg)
       (post u (bearer_headers apiKey)
             (responses_payload model systemPrompt messages))
      = Resolved response /\
    ok response = true /\ json response = PResponses data /\
    r = responses_result data.
Proof.
  unfold callResponsesAPIWithSearch.
  destruct (responses_url env provider) as [u|]; [|discriminate].
  one_exchange up lg (post u (bearer_headers apiKey)
                        (responses_payload model systemPrompt messages));
    intros H; try discriminate H.
  injection H as <-. eauto 10.
Qed.

Lemma round_step_stop st out c :
  first_choice out = Some c ->
  finish_reason c = "stop" ->
  round_step st out =
    Done (inr (loop_result c (totalInputTokens st + prompt_of out)
                 (totalOutputTokens st + completion_of out) (searchQueries st))).
Proof.
  step_cases out; intros H Hfin; try discriminate H;
    injection H as <-; rewrite Hfin in Hstop; try discriminate Hstop.
  reflexivity.
Qed.

Lemma loop_trace_stop_first u apiKey model thinking fuel st rounds res req out choice :
  loop_trace u apiKey model thinking fuel st rounds res ->
  head rounds = Some (req, out) ->
  first_choice out = Some choice ->
  finish_reason choice = "stop" ->
  rounds = [(req, out)] /\
  res = inr (loop_result choice (totalInputTokens st + prompt_of out)
               (totalOutputTokens st + completion_of out) (searchQueries st)).
Proof.
  intros Htr Hhead Hchoice Hfin.
  pose proof (round_step_stop st out choice Hchoice Hfin) as Hstep.
  inversion Htr as [st0|fuel0 st0 out0 res0 Hstep0|fuel0 st0 out0 st' rounds0 res0 Hstep0 Htr0];
    subst; cbn in Hhead; try discriminate Hhead;
    injection Hhead as <- <-; rewrite Hstep in Hstep0; try discriminate Hstep0.
  injection Hstep0 as <-. split; reflexivity.
Qed.

(** A returned result of the loop, read off the log of its run. *)
Lemma callMoonshotWithSearch_returns up apiKey model systemPrompt messages thinking r :
  fst (run (callMoonshotWithSearch up apiKey model systemPrompt messages thinking))
    = inr r ->
  let lg := snd (run (callMoonshotWithSearch up apiKey model systemPrompt
                        messages thinking)) in
  exists x choice,
    last lg = Some x /\
    first_choice (snd x) = Some choice /\
    round_calls (snd x) = None /\
    r = loop_result choice
          (sumZ (map prompt_of (outcomes lg)))
          (sumZ (map completion_of (outcomes lg)))
          (map tc_arguments (flat_map acknowledged (outcomes lg))).
Proof.
  intros Hres lg.
  pose proof (callMoonshotWithSearch_trace up apiKey model systemPrompt
                messages thinking) as Htr.
  rewrite Hres in Htr. fold lg in Htr.
  apply loop_trace_returns in Htr.
  destruct Htr as (x & choice & Hlast & Hchoice & Hnone & ->).
  exists x, choice. repeat split; assumption.
Qed.

(** ** The model on concrete runs *)

Example plain_chat_answer :
  exists req out,
    run (generateResponse ∅ Scenario.answers "moonshot" "key" "kimi" "sys"
           Scenario.hello Scenario.search_off)
    = (inr {| text := "Hi there."; inputTokens := Some 5; outputTokens := Some 3;
              webSearchQueries := None |},
       [(req, out)]).
Proof. eexists _, _. vm_compute. reflexivity. Qed.

Example one_search_then_answer :
  exists x1 x2,
    run (generateResponse ∅ Scenario.searches_once "moonshot" "key" "kimi" "sys"
           Scenario.hello Scenario.search_on)
    = (inr {| text := "Found it."; inputTokens := Some 12; outputTokens := Some 7;
              webSearchQueries := Some ["{query: rocq}"] |},
       [x1; x2]).
Proof. eexists _, _. vm_compute. reflexivity. Qed.

Example five_searches_exceed :
  fst (run (generateResponse ∅ Scenario.searches_forever "moonshot" "key" "kimi"
              "sys" Scenario.hello Scenario.search_on))
  = inl (Error "moonshot web search exceeded maximum iterations") /\
  length (snd (run (generateResponse ∅ Scenario.searches_forever "moonshot" "key"
                      "kimi" "sys" Scenario.hello Scenario.search_on))) = 5%nat.
Proof. split; vm_compute; reflexivity. Qed.

Example unknown_provider :
  run (generateResponse ∅ Scenario.answers "foo" "key" "m" "sys" Scenario.hello None)
  = (inl (Error "Unknown AI provider: foo"), []).
Proof. vm_compute. reflexivity. Qed.

Example base_url_from_environment :
  getOpenAIBaseUrl ∅ = "https://api.openai.com/v1" /\
  getOpenAIBaseUrl {[ "OPENAI_BASE_URL" := "   " ]} = "https://api.openai.com/v1" /\
  getOpenAIBaseUrl {[ "OPENAI_BASE_URL" := " http://localhost:8080/v1// " ]}
  = "http://localhost:8080/v1" /\
  getOpenAIResponsesUrl {[ "OPENAI_BASE_URL" := "http://localhost:8080/v1/" ]}
  = "http://localhost:8080/v1/responses".
Proof. repeat split; vm_compute; reflexivity. Qed.

Example upstream_error_message :
  api_error "moonshot"
    {| ok := false; status := 500; contentType := None; raw := "boom";
       json := PNotJson; arrayBuffer := [] |}
  = Error "moonshot API error: 500 - boom".
Proof. vm_compute. reflexivity. Qed.

Example flattened_picture :
  toTextContent (Parts [TextPart "what is this"; ImagePart "image/png" "AQID"])
  = "what is this [image]".
Proof. reflexivity. Qed.

(** * The claims *)

(** C2. The tool-call loop makes at least one and at most five upstream
    requests; it fails with the iteration-limit error exactly when all five
    rounds were tool-call rounds (so it never returns a partial answer
    then); and when the first round answers with finish reason "stop" that
    round is the only exchange and its answer is returned. *)
Theorem callMoonshotWithSearch_round_cap
    up apiKey model systemPrompt messages thinking :
  let res := fst (run (callMoonshotWithSearch up apiKey model systemPrompt
                         messages thinking)) in
  let lg := snd (run (callMoonshotWithSearch up apiKey model systemPrompt
                        messages thinking)) in
  (1 <= length lg <= 5)%nat /\
  (res = inl (Error "moonshot web search exceeded maximum iterations") <->
   length lg = 5%nat /\ Forall (fun x => round_calls (snd x) <> None) lg) /\
  (forall req out choice,
      head lg = Some (req, out) ->
      first_choice out = Some choice ->
      finish_reason choice = "stop" ->
      lg = [(req, out)] /\
      res = inr (loop_result choice (prompt_of out) (completion_of out) [])).
Proof.
  intros res lg.
  pose proof (callMoonshotWithSearch_trace up apiKey model systemPrompt
                messages thinking) as Htr.
  fold res lg in Htr. split; [|split].
  - split; [|exact (loop_trace_length _ _ _ _ _ _ _ _ Htr)].
    destruct (loop_trace_nonempty _ _ _ _ _ _ _ _ Htr) as (out & rest & ->).
    cbn. lia.
  - exact (loop_trace_exceeded _ _ _ _ _ _ _ _ Htr).
  - intros req out choice Hhead Hchoice Hstop.
    destruct (loop_trace_stop_first _ _ _ _ _ _ _ _ _ _ _ Htr Hhead Hchoice Hstop)
      as [Hlg Hres].
    split; assumption.
Qed.

Lemma callMoonshotWithSearch_round_cap_witness :
  snd (run (callMoonshotWithSearch Scenario.answers "key" "kimi" "sys"
              Scenario.hello None))
  = [(tool_request moonshot_url "key" "kimi" None
        (apiMessages (initial_state "sys" Scenario.hello)),
      Scenario.chat [Scenario.stop_choice (Some "Hi there.")] (Scenario.usage 5 3))]
  /\ fst (run (callMoonshotWithSearch Scenario.answers "key" "kimi" "sys"
                 Scenario.hello None))
     = inr {| text := "Hi there."; inputTokens := Some 5; outputTokens := Some 3;
              webSearchQueries := None |}.
Proof.
  destruct (callMoonshotWithSearch_round_cap Scenario.answers "key" "kimi" "sys"
              Scenario.hello None) as (_ & _ & Hstop).
  destruct (Hstop
              (tool_request moonshot_url "key" "kimi" None
                 (apiMessages (initial_state "sys" Scenario.hello)))
              (Scenario.chat [Scenario.stop_choice (Some "Hi there.")]
                 (Scenario.usage 5 3))
              (Scenario.stop_choice (Some "Hi there.")))
    as [Hlg Hres].
  - vm_compute. reflexivity.
  - vm_compute. reflexivity.
  - reflexivity.
  - split; [exact Hlg|]. rewrite Hres. vm_compute. reflexivity.
Defined.

(** C10. On a chat-completions response whose [choices] list is empty the
    plain adapter returns a result with the empty string as text, while the
    tool-call loop throws "moonshot API returned no choices"; at the facade,
    provider "moonshot" behaves either way depending on whether web search
    is allowed. *)
Theorem empty_choices_diverge
    env up provider apiKey model systemPrompt messages thinking :
  (forall u response data,
      chat_url env provider = Some u ->
      up [] (post u (bearer_headers apiKey)
               (chat_payload provider model systemPrompt messages thinking))
        = Resolved response ->
      ok response = true -> json response = POpenAI data -> choices data = [] ->
      exists r,
        fst (run (callOpenAICompatible env up provider apiKey model systemPrompt
                    messages thinking)) = inr r /\
        text r = "") /\
  (forall response data,
      up [] (tool_request moonshot_url apiKey model thinking
               (apiMessages (initial_state systemPrompt messages)))
        = Resolved response ->
      ok response = true -> json response = POpenAI data -> choices data = [] ->
      fst (run (callMoonshotWithSearch up apiKey model systemPrompt messages
                  thinking))
        = inl (Error "moonshot API returned no choices")) /\
  (hasImage messages = false ->
   generateResponse env up "moonshot" apiKey model systemPrompt messages
     (Some {| webSearch := Some false; thinking := thinking |})
   = callOpenAICompatible env up "moonshot" apiKey model systemPrompt messages
       thinking /\
   generateResponse env up "moonshot" apiKey model systemPrompt messages
     (Some {| webSearch := Some true; thinking := thinking |})
   = callMoonshotWithSearch up apiKey model systemPrompt messages thinking).
Proof.
  split; [|split].
  - intros u response data Hurl Hup Hok Hjson Hchoices.
    unfold run, callOpenAICompatible. rewrite Hurl, bind_fetch. cbn [map].
    rewrite Hup, Hok. cbn [negb]. rewrite Hjson.
    eexists. split; [reflexivity|].
    unfold chat_result. cbn [text]. rewrite Hchoices. reflexivity.
  - intros response data Hup Hok Hjson Hchoices.
    unfold run, callMoonshotWithSearch. rewrite moonshot_endpoint.
    fold moonshot_url. change MAX_TOOL_ITERATIONS with 5%nat.
    rewrite tool_rounds_S. cbv zeta. cbn [map].
    rewrite Hup. unfold round_step. rewrite Hok. cbn [negb].
    rewrite Hjson, Hchoices. reflexivity.
  - intros Hno. unfold generateResponse, allowWebSearch. cbn. rewrite Hno.
    split; reflexivity.
Qed.

Lemma empty_choices_diverge_witness :
  (exists r,
      fst (run (generateResponse ∅ Scenario.no_choices "moonshot" "key" "kimi" "sys"
                  Scenario.hello Scenario.search_off)) = inr r /\
      text r = "") /\
  fst (run (generateResponse ∅ Scenario.no_choices "moonshot" "key" "kimi" "sys"
              Scenario.hello Scenario.search_on))
    = inl (Error "moonshot API returned no choices").
Proof.
  destruct (empty_choices_diverge ∅ Scenario.no_choices "moonshot" "key" "kimi"
              "sys" Scenario.hello None) as (Hplain & Hloop & _).
  split.
  - apply (Hplain moonshot_url
             (Scenario.ok_response
                (POpenAI {| choices := []; openai_usage := Scenario.usage 5 0 |}))
             {| choices := []; openai_usage := Scenario.usage 5 0 |});
      vm_compute; reflexivity.
  - apply (Hloop
             (Scenario.ok_response
                (POpenAI {| choices := []; openai_usage := Scenario.usage 5 0 |}))
             {| choices := []; openai_usage := Scenario.usage 5 0 |});
      vm_compute; reflexivity.
Defined.

(** C4. On each of the four adapter paths a returned result carries a text
    that is the upstream content when there is one and the empty string
    otherwise: an empty content list (message API), no first choice or a
    null message content (chat completions and the tool-call loop, read from
    the last round), no "message" output item or one without a text block
    (responses API). *)
Theorem adapters_text_fallback
    env up provider apiKey model systemPrompt messages thinking r :
  (fst (run (callClaude up apiKey model systemPrompt messages)) = inr r ->
   exists response data,
     up [] (claude_request apiKey model systemPrompt messages) = Resolved response /\
     json response = PClaude data /\
     text r = match claude_content data with t :: _ => t | [] => "" end) /\
  (fst (run (callOpenAICompatible env up provider apiKey model systemPrompt
               messages thinking)) = inr r ->
   exists u response data,
     chat_url env provider = Some u /\
     up [] (post u (bearer_headers apiKey)
              (chat_payload provider model systemPrompt messages thinking))
       = Resolved response /\
     json response = POpenAI data /\
     text r = match choices data with
              | c :: _ => match msg_content (message c) with
                          | Some t => t
                          | None => ""
                          end
              | [] => ""
              end) /\
  (fst (run (callMoonshotWithSearch up apiKey model systemPrompt messages
               thinking)) = inr r ->
   exists x choice,
     last (snd (run (callMoonshotWithSearch up apiKey model systemPrompt
                       messages thinking))) = Some x /\
     first_choice (snd x) = Some choice /\
     text r = match msg_content (message choice) with
              | Some t => t
              | None => ""
              end) /\
  (fst (run (callResponsesAPIWithSearch env up provider apiKey model systemPrompt
               messages)) = inr r ->
   exists u response data,
     responses_url env provider = Some u /\
     up [] (post u (bearer_headers apiKey)
              (responses_payload model systemPrompt messages))
       = Resolved response /\
     json response = PResponses data /\
     text r = match List.find is_message (output data) with
              | Some (MessageOutput (t :: _)) => t
              | _ => ""
              end).
Proof.
  repeat apply conj.
  - intros H. apply callClaude_returns in H.
    destruct H as (response & data & Hup & _ & Hjson & ->).
    exists response, data. repeat split; try assumption.
    cbn. destruct (claude_content data); reflexivity.
  - intros H. apply callOpenAICompatible_returns in H.
    destruct H as (u & response & data & Hurl & Hup & _ & Hjson & ->).
    exists u, response, data. repeat split; try assumption.
    cbn. destruct (choices data) as [|c cs]; [reflexivity|].
    cbn. destruct (msg_content (message c)); reflexivity.
  - intros H. apply callMoonshotWithSearch_returns in H.
    destruct H as (x & choice & Hlast & Hchoice & _ & ->).
    exists x, choice. repeat split; assumption.
  - intros H. apply callResponsesAPIWithSearch_returns in H.
    destruct H as (u & response & data & Hurl & Hup & _ & Hjson & ->).
    exists u, response, data. repeat split; try assumption.
    cbn. destruct (List.find is_message (output data)) as [[[|t ts]|]|]; reflexivity.
Qed.

(** Four upstream answers without content, one per path; each run returns
    the empty string. *)
Lemma adapters_text_fallback_witness :
  let nothing := {| text := ""; inputTokens := None; outputTokens := None;
                    webSearchQueries := None |} in
  let zero := {| text := ""; inputTokens := Some 0; outputTokens := Some 0;
                 webSearchQueries := None |} in
  let silent := {| text := ""; inputTokens := None; outputTokens := None;
                   webSearchQueries := Some ["web_search (1 call(s))"] |} in
  (exists response data,
      Scenario.claude_says_nothing []
        (claude_request "key" "claude-sonnet" "sys" Scenario.hello)
        = Resolved response /\
      json response = PClaude data /\
      text nothing = match claude_content data with t :: _ => t | [] => "" end) /\
  (exists u response data,
      chat_url ∅ "grok" = Some u /\
      Scenario.answers_nothing []
        (post u (bearer_headers "key")
           (chat_payload "grok" "grok-4" "sys" Scenario.hello None))
        = Resolved response /\
      json response = POpenAI data /\
      text nothing = match choices data with
                     | c :: _ => match msg_content (message c) with
                                 | Some t => t
                                 | None => ""
                                 end
                     | [] => ""
                     end) /\
  (exists x choice,
      last (snd (run (callMoonshotWithSearch Scenario.answers_nothing
                        "key" "kimi" "sys" Scenario.hello None))) = Some x /\
      first_choice (snd x) = Some choice /\
      text zero = match msg_content (message choice) with
                  | Some t => t
                  | None => ""
                  end) /\
  (exists u response data,
      responses_url ∅ "grok" = Some u /\
      Scenario.searched_silently []
        (post u (bearer_headers "key")
           (responses_payload "grok-4" "sys" Scenario.hello))
        = Resolved response /\
      json response = PResponses data /\
      text silent = match List.find is_message (output data) with
                    | Some (MessageOutput (t :: _)) => t
                    | _ => ""
                    end).
Proof.
  intros nothing zero silent. repeat apply conj.
  - pose proof (adapters_text_fallback ∅ Scenario.claude_says_nothing "claude"
                  "key" "claude-sonnet" "sys" Scenario.hello None nothing)
      as (H & _).
    apply H. vm_compute. reflexivity.
  - pose proof (adapters_text_fallback ∅ Scenario.answers_nothing "grok"
                  "key" "grok-4" "sys" Scenario.hello None nothing)
      as (_ & H & _).
    apply H. vm_compute. reflexivity.
  - pose proof (adapters_text_fallback ∅ Scenario.answers_nothing "moonshot"
                  "key" "kimi" "sys" Scenario.hello None zero)
      as (_ & _ & H & _).
    apply H. vm_compute. reflexivity.
  - pose proof (adapters_text_fallback ∅ Scenario.searched_silently "grok"
                  "key" "grok-4" "sys" Scenario.hello None silent)
      as (_ & _ & _ & H).
    apply H. vm_compute. reflexivity.
Defined.

(** C5 (as amended). On the message-API, plain chat-completions and
    responses-API paths the token counts are the upstream usage fields, hence
    absent when the usage record is missing. On the tool-call loop they are
    always present and equal the sums, over all rounds of the call, of the
    usage fields, a missing usage or field counting as zero. *)
Theorem token_counts
    env up provider apiKey model systemPrompt messages thinking r :
  (fst (run (callClaude up apiKey model systemPrompt messages)) = inr r ->
   exists response data,
     up [] (claude_request apiKey model systemPrompt messages) = Resolved response /\
     json response = PClaude data /\
     inputTokens r = claude_usage data ≫= input_tokens /\
     outputTokens r = claude_usage data ≫= output_tokens /\
     (claude_usage data = None -> inputTokens r = None /\ outputTokens r = None)) /\
  (fst (run (callOpenAICompatible env up provider apiKey model systemPrompt
               messages thinking)) = inr r ->
   exists u response data,
     chat_url env provider = Some u /\
     up [] (post u (bearer_headers apiKey)
              (chat_payload provider model systemPrompt messages thinking))
       = Resolved response /\
     json response = POpenAI data /\
     inputTokens r = openai_usage data ≫= prompt_tokens /\
     outputTokens r = openai_usage data ≫= completion_tokens /\
     (openai_usage data = None -> inputTokens r = None /\ outputTokens r = None)) /\
  (fst (run (callResponsesAPIWithSearch env up provider apiKey model systemPrompt
               messages)) = inr r ->
   exists u response data,
     responses_url env provider = Some u /\
     up [] (post u (bearer_headers apiKey)
              (responses_payload model systemPrompt messages))
       = Resolved response /\
     json response = PResponses data /\
     inputTokens r = resp_usage data ≫= prompt_tokens /\
     outputTokens r = resp_usage data ≫= completion_tokens /\
     (resp_usage data = None -> inputTokens r = None /\ outputTokens r = None)) /\
  (fst (run (callMoonshotWithSearch up apiKey model systemPrompt messages
               thinking)) = inr r ->
   let lg := snd (run (callMoonshotWithSearch up apiKey model systemPrompt
                         messages thinking)) in
   inputTokens r = Some (sumZ (map prompt_of (outcomes lg))) /\
   outputTokens r = Some (sumZ (map completion_of (outcomes lg)))).
Proof.
  repeat apply conj.
  - intros H. apply callClaude_returns in H.
    destruct H as (response & data & Hup & _ & Hjson & ->).
    exists response, data. repeat split; try assumption;
      cbn; rewrite H; reflexivity.
  - intros H. apply callOpenAICompatible_returns in H.
    destruct H as (u & response & data & Hurl & Hup & _ & Hjson & ->).
    exists u, response, data. repeat split; try assumption;
      cbn; rewrite H; reflexivity.
  - intros H. apply callResponsesAPIWithSearch_returns in H.
    destruct H as (u & response & data & Hurl & Hup & _ & Hjson & ->).
    exists u, response, data. repeat split; try assumption;
      cbn; rewrite H; reflexivity.
  - intros H lg. apply callMoonshotWithSearch_returns in H.
    destruct H as (x & choice & _ & _ & _ & ->). split; reflexivity.
Qed.

(** Two rounds of the loop: 5 + 7 prompt tokens and 3 + 4 completion tokens.
    The plain adapter, answered without usage: no counts. *)
Lemma token_counts_witness :
  let found := {| text := "Found it."; inputTokens := Some 12;
                  outputTokens := Some 7;
                  webSearchQueries := Some ["{query: rocq}"] |} in
  let plain := {| text := "Hi there."; inputTokens := None; outputTokens := None;
                  webSearchQueries := None |} in
  (inputTokens found
   = Some (sumZ (map prompt_of
                   (outcomes (snd (run (callMoonshotWithSearch
                                          Scenario.searches_once "key" "kimi" "sys"
                                          Scenario.hello None)))))) /\
   outputTokens found
   = Some (sumZ (map completion_of
                   (outcomes (snd (run (callMoonshotWithSearch
                                          Scenario.searches_once "key" "kimi" "sys"
                                          Scenario.hello None))))))) /\
  sumZ (map prompt_of
          (outcomes (snd (run (callMoonshotWithSearch
                                 Scenario.searches_once "key" "kimi" "sys"
                                 Scenario.hello None))))) = 5 + 7 /\
  (exists u response data,
      chat_url ∅ "grok" = Some u /\
      Scenario.answers_without_usage []
        (post u (bearer_headers "key")
           (chat_payload "grok" "grok-4" "sys" Scenario.hello None))
        = Resolved response /\
      json response = POpenAI data /\
      inputTokens plain = openai_usage data ≫= prompt_tokens /\
      outputTokens plain = openai_usage data ≫= completion_tokens /\
      (openai_usage data = None ->
       inputTokens plain = None /\ outputTokens plain = None)).
Proof.
  intros found plain. split; [|split].
  - pose proof (token_counts ∅ Scenario.searches_once "moonshot" "key" "kimi" "sys"
                  Scenario.hello None found) as (_ & _ & _ & Hloop).
    apply Hloop. vm_compute. reflexivity.
  - vm_compute. reflexivity.
  - pose proof (token_counts ∅ Scenario.answers_without_usage "grok" "key" "grok-4"
                  "sys" Scenario.hello None plain) as (_ & Hplain & _).
    apply Hplain. vm_compute. reflexivity.
Defined.

(** C5 as stated fails on the tool-call loop: the upstream omits usage and
    the counts are present, with value zero. *)
Lemma token_counts_present_without_usage :
  ~ (forall up apiKey model systemPrompt messages thinking r,
        fst (run (callMoonshotWithSearch up apiKey model systemPrompt messages
                    thinking)) = inr r ->
        Forall (fun out => round_data out ≫= openai_usage = None)
          (outcomes (snd (run (callMoonshotWithSearch up apiKey model
                                 systemPrompt messages thinking)))) ->
        inputTokens r = None /\ outputTokens r = None).
Proof.
  intros H.
  destruct (H Scenario.answers_without_usage "key" "kimi" "sys" Scenario.hello None
              {| text := "Hi there."; inputTokens := Some 0; outputTokens := Some 0;
                 webSearchQueries := None |}) as [Hin _].
  - vm_compute. reflexivity.
  - vm_compute. repeat constructor.
  - discriminate Hin.
Qed.

(** C6. [webSearchQueries] is present only when a search call was made. On
    the tool-call loop it holds the argument strings of the tool calls the
    loop acknowledged, one per call, over all rounds in order, and is absent
    when there was none. On the responses API it holds the one string
    "web_search (N call(s))", N being the number of "web_search_call" output
    items, and is absent when N is zero. The message-API and plain
    chat-completions adapters never set it. *)
Theorem web_search_queries
    env up provider apiKey model systemPrompt messages thinking r :
  (fst (run (callMoonshotWithSearch up apiKey model systemPrompt messages
               thinking)) = inr r ->
   let lg := snd (run (callMoonshotWithSearch up apiKey model systemPrompt
                         messages thinking)) in
   let queries := map tc_arguments (flat_map acknowledged (outcomes lg)) in
   webSearchQueries r = match queries with [] => None | _ => Some queries end) /\
  (fst (run (callResponsesAPIWithSearch env up provider apiKey model systemPrompt
               messages)) = inr r ->
   exists u response data,
     responses_url env provider = Some u /\
     up [] (post u (bearer_headers apiKey)
              (responses_payload model systemPrompt messages))
       = Resolved response /\
     json response = PResponses data /\
     let n := length (List.filter is_web_search_call (output data)) in
     webSearchQueries r =
       if (n =? 0)%nat then None
       else Some ["web_search (" +:+ string_of_number (Z.of_nat n) +:+ " call(s))"]) /\
  (fst (run (callClaude up apiKey model systemPrompt messages)) = inr r ->
   webSearchQueries r = None) /\
  (fst (run (callOpenAICompatible env up provider apiKey model systemPrompt
               messages thinking)) = inr r ->
   webSearchQueries r = None).
Proof.
  repeat apply conj.
  - intros H lg queries. apply callMoonshotWithSearch_returns in H.
    destruct H as (x & choice & _ & _ & _ & ->). reflexivity.
  - intros H. apply callResponsesAPIWithSearch_returns in H.
    destruct H as (u & response & data & Hurl & Hup & _ & Hjson & ->).
    exists u, response, data. repeat split; try assumption.
    cbn. destruct (List.filter is_web_search_call (output data)); reflexivity.
  - intros H. apply callClaude_returns in H.
    destruct H as (response & data & _ & _ & _ & ->). reflexivity.
  - intros H. apply callOpenAICompatible_returns in H.
    destruct H as (u & response & data & _ & _ & _ & _ & ->). reflexivity.
Qed.

(** One acknowledged tool call gives one raw argument string; two
    server-side searches give "web_search (2 call(s))". *)
Lemma web_search_queries_witness :
  webSearchQueries {| text := "Found it."; inputTokens := Some 12;
                      outputTokens := Some 7;
                      webSearchQueries := Some ["{query: rocq}"] |}
  = Some (map tc_arguments
            (flat_map acknowledged
               (outcomes (snd (run (callMoonshotWithSearch Scenario.searches_once
                                      "key" "kimi" "sys" Scenario.hello None)))))) /\
  exists r,
    fst (run (callResponsesAPIWithSearch ∅ Scenario.searched_twice "grok" "key"
                "grok-4" "sys" Scenario.hello)) = inr r /\
    webSearchQueries r = Some ["web_search (2 call(s))"].
Proof.
  split.
  - pose proof (web_search_queries ∅ Scenario.searches_once "moonshot" "key" "kimi"
                  "sys" Scenario.hello None
                  {| text := "Found it."; inputTokens := Some 12;
                     outputTokens := Some 7;
                     webSearchQueries := Some ["{query: rocq}"] |})
      as (Hloop & _).
    rewrite Hloop by (vm_compute; reflexivity). vm_compute. reflexivity.
  - eexists. split; [vm_compute; reflexivity|].
    pose proof (web_search_queries ∅ Scenario.searched_twice "grok" "key" "grok-4"
                  "sys" Scenario.hello None
                  {| text := "Found via search!"; inputTokens := Some 10;
                     outputTokens := Some 20;
                     webSearchQueries := Some ["web_search (2 call(s))"] |})
      as (_ & Hresp & _).
    destruct Hresp as (u & response & data & Hurl & Hup & Hjson & Hq).
    + vm_compute. reflexivity.
    + reflexivity.
Defined.

(** C7 (as amended). The message-API, plain chat-completions and tool-call
    loop adapters put [max_tokens: 1024] in every request body; the
    responses-API adapter sends a body without a [max_tokens] property. *)
Theorem max_tokens_in_requests
    env up provider apiKey model systemPrompt messages thinking :
  Forall (fun x => max_tokens_of (fst x) = Some (JNum 1024))
    (snd (run (callClaude up apiKey model systemPrompt messages))) /\
  Forall (fun x => max_tokens_of (fst x) = Some (JNum 1024))
    (snd (run (callOpenAICompatible env up provider apiKey model systemPrompt
                 messages thinking))) /\
  Forall (fun x => max_tokens_of (fst x) = Some (JNum 1024))
    (snd (run (callMoonshotWithSearch up apiKey model systemPrompt messages
                 thinking))) /\
  Forall (fun x => max_tokens_of (fst x) = None)
    (snd (run (callResponsesAPIWithSearch env up provider apiKey model
                 systemPrompt messages))).
Proof.
  repeat apply conj.
  - unfold run. rewrite callClaude_log. repeat constructor.
  - unfold run. rewrite callOpenAICompatible_log.
    destruct (chat_url env provider); repeat constructor.
  - pose proof (callMoonshotWithSearch_trace up apiKey model systemPrompt
                  messages thinking) as Htr.
    apply loop_trace_requests in Htr.
    eapply Forall_impl; [exact Htr|].
    intros x (msgs & Hreq). unfold max_tokens_of. rewrite Hreq. reflexivity.
  - unfold run. rewrite callResponsesAPIWithSearch_log.
    destruct (responses_url env provider); repeat constructor.
Qed.

(** C7 as stated fails on the responses-API path: the request sent for
    provider "grok" has no [max_tokens] property. *)
Lemma responses_request_without_max_tokens :
  ~ (forall env up provider apiKey model systemPrompt messages,
        Forall (fun x => max_tokens_of (fst x) = Some (JNum 1024))
          (snd (run (callResponsesAPIWithSearch env up provider apiKey model
                       systemPrompt messages)))).
Proof.
  intros H.
  specialize (H ∅ Scenario.searched_twice "grok" "key" "grok-4" "sys" Scenario.hello).
  vm_compute in H. inversion H as [|x l Hx _]. discriminate Hx.
Qed.

Lemma hasImage_blocks options messages :
  hasImage messages = true -> truthy (allowWebSearch options messages) = false.
Proof.
  intros H. unfold allowWebSearch. rewrite H.
  destruct (options ≫= webSearch) as [[|]|]; reflexivity.
Qed.

Lemma no_image_allows options messages :
  hasImage messages = false ->
  truthy (allowWebSearch options messages) = true <-> options ≫= webSearch = Some true.
Proof.
  intros H. unfold allowWebSearch. rewrite H.
  destruct (options ≫= webSearch) as [[|]|]; cbn; split; congruence.
Qed.

(** C1. Without an image part in the conversation, web search is allowed
    exactly when [options.webSearch] is true, and then "moonshot" goes to the
    tool-call loop and "grok" and "openai" to the responses API. With an
    image part, web search is not allowed whatever the options say:
    [generateResponse] is the message-API adapter for "claude" and the plain
    chat-completions adapter for "moonshot", "grok" and "openai", and no
    request it sends carries a [tools] property. *)
Theorem image_disables_web_search
    env up provider apiKey model systemPrompt messages options :
  (hasImage messages = false ->
   (truthy (allowWebSearch options messages) = true <->
    options ≫= webSearch = Some true) /\
   (options ≫= webSearch = Some true ->
    generateResponse env up "moonshot" apiKey model systemPrompt messages options
      = callMoonshotWithSearch up apiKey model systemPrompt messages
          (options ≫= thinking) /\
    generateResponse env up "grok" apiKey model systemPrompt messages options
      = callResponsesAPIWithSearch env up "grok" apiKey model systemPrompt messages /\
    generateResponse env up "openai" apiKey model systemPrompt messages options
      = callResponsesAPIWithSearch env up "openai" apiKey model systemPrompt
          messages)) /\
  (hasImage messages = true ->
   truthy (allowWebSearch options messages) = false /\
   generateResponse env up provider apiKey model systemPrompt messages options
     = (if String.eqb provider "claude"
        then callClaude up apiKey model systemPrompt messages
        else if String.eqb provider "moonshot" || String.eqb provider "grok"
                || String.eqb provider "openai"
        then callOpenAICompatible env up provider apiKey model systemPrompt
               messages (options ≫= thinking)
        else throw (Error ("Unknown AI provider: " +:+ provider))) /\
   Forall (fun x => tools_of (fst x) = None)
     (snd (run (generateResponse env up provider apiKey model systemPrompt
                  messages options)))).
Proof.
  split.
  - intros Hno. split; [apply no_image_allows; exact Hno|].
    intros Hws. apply (no_image_allows options) in Hno.
    apply Hno in Hws. unfold generateResponse. cbn. rewrite Hws. repeat split.
  - intros Himg. pose proof (hasImage_blocks options messages Himg) as Hallow.
    split; [exact Hallow|].
    assert (generateResponse env up provider apiKey model systemPrompt messages options
            = (if String.eqb provider "claude"
               then callClaude up apiKey model systemPrompt messages
               else if String.eqb provider "moonshot" || String.eqb provider "grok"
                       || String.eqb provider "openai"
               then callOpenAICompatible env up provider apiKey model systemPrompt
                      messages (options ≫= thinking)
               else throw (Error ("Unknown AI provider: " +:+ provider)))) as Heq.
    { unfold generateResponse. rewrite Hallow.
      destruct (String.eqb provider "claude"); [reflexivity|].
      destruct (String.eqb provider "moonshot"); [reflexivity|].
      destruct (String.eqb provider "grok"); [reflexivity|].
      destruct (String.eqb provider "openai"); reflexivity. }
    split; [exact Heq|]. rewrite Heq. unfold run.
    destruct (String.eqb provider "claude").
    + rewrite callClaude_log. repeat constructor.
    + destruct (String.eqb provider "moonshot" || String.eqb provider "grok"
                || String.eqb provider "openai").
      * rewrite callOpenAICompatible_log.
        destruct (chat_url env provider); [|constructor].
        repeat constructor. unfold tools_of, chat_payload. cbn.
        destruct (String.eqb provider "moonshot"); [|reflexivity].
        destruct (options ≫= thinking); reflexivity.
      * constructor.
Qed.

(** A text conversation with web search requested goes to the tool-call
    loop; a picture with the same options goes to the plain adapter. *)
Lemma image_disables_web_search_witness :
  generateResponse ∅ Scenario.answers "moonshot" "key" "kimi" "sys"
    Scenario.hello Scenario.search_on
  = callMoonshotWithSearch Scenario.answers "key" "kimi" "sys" Scenario.hello None /\
  truthy (allowWebSearch Scenario.search_on Scenario.picture) = false /\
  generateResponse ∅ Scenario.answers "moonshot" "key" "kimi" "sys"
    Scenario.picture Scenario.search_on
  = callOpenAICompatible ∅ Scenario.answers "moonshot" "key" "kimi" "sys"
      Scenario.picture None /\
  Forall (fun x => tools_of (fst x) = None)
    (snd (run (generateResponse ∅ Scenario.answers "moonshot" "key" "kimi" "sys"
                 Scenario.picture Scenario.search_on))).
Proof.
  split.
  - destruct (image_disables_web_search ∅ Scenario.answers "moonshot" "key" "kimi"
                "sys" Scenario.hello Scenario.search_on) as [Htext _].
    destruct Htext as [_ Hroute]; [reflexivity|].
    destruct Hroute as [Hloop _]; [reflexivity|]. exact Hloop.
  - destruct (image_disables_web_search ∅ Scenario.answers "moonshot" "key" "kimi"
                "sys" Scenario.picture Scenario.search_on) as [_ Himg].
    apply Himg. reflexivity.
Defined.

(** ** The ambient configuration *)

Lemma joinUrl_truthy base path : truthy_string (joinUrl base path) = true.
Proof.
  unfold joinUrl. cbv zeta. destruct (normalizeBaseUrl base); reflexivity.
Qed.

Lemma chat_url_env env1 env2 provider :
  provider <> "openai" -> chat_url env1 provider = chat_url env2 provider.
Proof.
  intros Hne. unfold chat_url.
  destruct (String.eqb provider "openai") eqn:E; [|reflexivity].
  apply String.eqb_eq in E. contradiction.
Qed.

Lemma responses_url_env env1 env2 provider :
  provider <> "openai" -> responses_url env1 provider = responses_url env2 provider.
Proof.
  intros Hne. unfold responses_url.
  destruct (String.eqb provider "openai") eqn:E; [|reflexivity].
  apply String.eqb_eq in E. contradiction.
Qed.

Lemma chat_url_openai env :
  chat_url env "openai" = Some (joinUrl (getOpenAIBaseUrl env) "chat/completions").
Proof.
  unfold chat_url, non_empty, getOpenAIChatCompletionsUrl. cbn [String.eqb Ascii.eqb Bool.eqb].
  rewrite joinUrl_truthy. reflexivity.
Qed.

Lemma responses_url_openai env :
  responses_url env "openai" = Some (joinUrl (getOpenAIBaseUrl env) "responses").
Proof.
  unfold responses_url, non_empty, getOpenAIResponsesUrl. cbn [String.eqb Ascii.eqb Bool.eqb].
  rewrite joinUrl_truthy. reflexivity.
Qed.

(** C8 (as amended). For every provider other than "openai" a call does the
    same whatever the environment holds. For "openai" the call sends one
    request, to the chat-completions or responses path under the base URL
    read from [OPENAI_BASE_URL] (trimmed, trailing slashes removed,
    "https://api.openai.com/v1" when unset or blank); method, headers and
    body of that request do not depend on the environment. *)
Theorem environment_only_sets_openai_base
    env1 env2 up provider apiKey model systemPrompt messages options :
  (provider <> "openai" ->
   run (generateResponse env1 up provider apiKey model systemPrompt messages options)
   = run (generateResponse env2 up provider apiKey model systemPrompt messages
            options)) /\
  requests (snd (run (generateResponse env1 up "openai" apiKey model systemPrompt
                        messages options)))
  = [post (joinUrl (getOpenAIBaseUrl env1)
             (if truthy (allowWebSearch options messages)
              then "responses" else "chat/completions"))
          (bearer_headers apiKey)
          (if truthy (allowWebSearch options messages)
           then responses_payload model systemPrompt messages
           else chat_payload "openai" model systemPrompt messages
                  (options ≫= thinking))].
Proof.
  split.
  - intros Hne. unfold run, generateResponse, callOpenAICompatible,
      callResponsesAPIWithSearch.
    rewrite (chat_url_env env1 env2 provider Hne),
      (responses_url_env env1 env2 provider Hne).
    reflexivity.
  - unfold run, requests, generateResponse. cbn [String.eqb Ascii.eqb Bool.eqb].
    destruct (truthy (allowWebSearch options messages)).
    + rewrite callResponsesAPIWithSearch_log, responses_url_openai. reflexivity.
    + rewrite callOpenAICompatible_log, chat_url_openai. reflexivity.
Qed.

Lemma environment_only_sets_openai_base_witness :
  run (generateResponse ∅ Scenario.answers "grok" "key" "grok-4" "sys"
         Scenario.hello Scenario.search_off)
  = run (generateResponse {[ "OPENAI_BASE_URL" := "http://localhost:8080/v1/" ]}
           Scenario.answers "grok" "key" "grok-4" "sys"
           Scenario.hello Scenario.search_off).
Proof.
  apply (environment_only_sets_openai_base ∅
           {[ "OPENAI_BASE_URL" := "http://localhost:8080/v1/" ]}
           Scenario.answers "grok" "key" "grok-4" "sys" Scenario.hello
           Scenario.search_off).
  discriminate.
Defined.

(** C8 as stated fails for provider "openai": with [OPENAI_BASE_URL] set the
    same arguments produce a request to another URL. *)
Lemma openai_url_follows_environment :
  ~ (forall env1 env2 up provider apiKey model systemPrompt messages options,
        requests (snd (run (generateResponse env1 up provider apiKey model
                              systemPrompt messages options)))
        = requests (snd (run (generateResponse env2 up provider apiKey model
                                systemPrompt messages options)))).
Proof.
  intros H.
  specialize (H ∅ {[ "OPENAI_BASE_URL" := "http://localhost:8080/v1/" ]}
                Scenario.answers "openai" "key" "gpt-4o" "sys" Scenario.hello
                Scenario.search_off).
  vm_compute in H. discriminate H.
Qed.

Lemma over_limit_spec size :
  over_limit size = true <-> exists n, size = Some n /\ MAX_IMAGE_BYTES < n.
Proof.
  unfold over_limit, MAX_IMAGE_BYTES. destruct size as [n|].
  - rewrite andb_true_iff, negb_true_iff, Z.eqb_neq, Z.ltb_lt. split.
    + intros [_ H]. eauto.
    + intros (m & Hm & H). injection Hm as ->. lia.
  - split; [discriminate|]. intros (m & Hm & _). discriminate.
Qed.

Lemma getFile_log up token fileId0 :
  exists req out, snd (run (getFile up token fileId0)) = [(req, out)].
Proof.
  unfold run, getFile. rewrite bind_fetch. cbn [map].
  destruct (up [] _) as [why|response]; [eauto|].
  destruct (negb (ok response)); [eauto|].
  destruct (json response) as [d|d|d|d| |]; eauto.
Qed.

(** C3 (as amended). The resolver fails with "IMAGE_TOO_LARGE"
    - when the declared size exceeds 5 MiB, before any network call;
    - else, when the file lookup returns a path and a size exceeding 5 MiB,
      after the lookup and without a download;
    - else, when the downloaded bytes are longer than 5 MiB, whatever the
      declared and the reported size were.
    When the lookup returns no path it fails with "IMAGE_FILE_PATH_MISSING",
    whatever size the lookup reports. *)
Theorem image_size_checks encoder up token image :
  MAX_IMAGE_BYTES = 5242880 /\
  (forall n,
      fileSize image = Some n -> MAX_IMAGE_BYTES < n ->
      run (fetchImageForModel encoder up token image)
      = (inl (Error "IMAGE_TOO_LARGE"), [])) /\
  (forall info lg path n,
      over_limit (fileSize image) = false ->
      run (getFile up token (fileId image)) = (inr info, lg) ->
      non_empty (file_path info) = Some path ->
      file_size info = Some n -> MAX_IMAGE_BYTES < n ->
      run (fetchImageForModel encoder up token image)
      = (inl (Error "IMAGE_TOO_LARGE"), lg) /\ length lg = 1%nat) /\
  (forall info lg path download lg',
      over_limit (fileSize image) = false ->
      run (getFile up token (fileId image)) = (inr info, lg) ->
      non_empty (file_path info) = Some path ->
      over_limit (file_size info) = false ->
      downloadTelegramFile up token path lg = (inr download, lg') ->
      MAX_IMAGE_BYTES < byteLength (bytes download) ->
      run (fetchImageForModel encoder up token image)
      = (inl (Error "IMAGE_TOO_LARGE"), lg')) /\
  (forall info lg,
      over_limit (fileSize image) = false ->
      run (getFile up token (fileId image)) = (inr info, lg) ->
      non_empty (file_path info) = None ->
      run (fetchImageForModel encoder up token image)
      = (inl (Error "IMAGE_FILE_PATH_MISSING"), lg)).
Proof.
  split; [reflexivity|]. split; [|split; [|split]].
  - intros n Hsize Hover.
    assert (over_limit (fileSize image) = true) as H
      by (apply over_limit_spec; eauto).
    unfold run, fetchImageForModel. rewrite H. reflexivity.
  - intros info lg path n Hdecl Hfile Hpath Hsize Hover.
    assert (over_limit (file_size info) = true) as H
      by (apply over_limit_spec; eauto).
    split.
    + unfold run, fetchImageForModel, bind in *. rewrite Hdecl, Hfile, Hpath, H.
      reflexivity.
    + destruct (getFile_log up token (fileId image)) as (req & out & Hlog).
      rewrite Hfile in Hlog. cbn in Hlog. subst lg. reflexivity.
  - intros info lg path download lg' Hdecl Hfile Hpath Hrep Hdl Hover.
    apply Z.ltb_lt in Hover.
    unfold run, fetchImageForModel, bind in *.
    rewrite Hdecl, Hfile, Hpath, Hrep, Hdl, Hover. reflexivity.
  - intros info lg Hdecl Hfile Hpath.
    unfold run, fetchImageForModel, bind in *. rewrite Hdecl, Hfile, Hpath.
    reflexivity.
Qed.

Lemma oversized_length :
  MAX_IMAGE_BYTES < byteLength ImageScenario.oversized.
Proof.
  unfold byteLength, ImageScenario.oversized.
  rewrite repeat_length, Z2Nat.id; unfold MAX_IMAGE_BYTES; lia.
Qed.

(** A declared size of 6,000,000 fails without a request; a reported size of
    6,000,000 fails after the lookup; a download of 5 MiB + 1 bytes fails
    although 3 bytes were declared and reported. *)
Lemma image_size_checks_witness :
  run (fetchImageForModel None (ImageScenario.telegram None [])
         "token" (ImageScenario.photo (Some 6000000)))
  = (inl (Error "IMAGE_TOO_LARGE"), []) /\
  fst (run (fetchImageForModel None
              (ImageScenario.telegram
                 (Some {| file_path := Some "photos/file.jpg";
                          file_size := Some 6000000 |}) [])
              "token" (ImageScenario.photo None)))
  = inl (Error "IMAGE_TOO_LARGE") /\
  fst (run (fetchImageForModel None
              (ImageScenario.telegram
                 (Some {| file_path := Some "photos/file.jpg";
                          file_size := Some 3 |}) ImageScenario.oversized)
              "token" (ImageScenario.photo (Some 3))))
  = inl (Error "IMAGE_TOO_LARGE").
Proof.
  split; [|split].
  - destruct (image_size_checks None (ImageScenario.telegram None [])
                "token" (ImageScenario.photo (Some 6000000))) as (_ & Hdecl & _).
    apply (Hdecl 6000000); [reflexivity|unfold MAX_IMAGE_BYTES; lia].
  - destruct (image_size_checks None
                (ImageScenario.telegram
                   (Some {| file_path := Some "photos/file.jpg";
                            file_size := Some 6000000 |}) [])
                "token" (ImageScenario.photo None)) as (_ & _ & Hrep & _ & _).
    destruct (Hrep {| file_path := Some "photos/file.jpg";
                      file_size := Some 6000000 |}
                [(ImageScenario.lookup,
                  ImageScenario.file_response
                    (Some {| file_path := Some "photos/file.jpg";
                             file_size := Some 6000000 |}))]
                "photos/file.jpg" 6000000) as [Hrun _].
    + reflexivity.
    + lazy. reflexivity.
    + reflexivity.
    + reflexivity.
    + unfold MAX_IMAGE_BYTES. lia.
    + rewrite Hrun. reflexivity.
  - destruct (image_size_checks None
                (ImageScenario.telegram
                   (Some {| file_path := Some "photos/file.jpg";
                            file_size := Some 3 |}) ImageScenario.oversized)
                "token" (ImageScenario.photo (Some 3))) as (_ & _ & _ & Hdl & _).
    rewrite (Hdl {| file_path := Some "photos/file.jpg"; file_size := Some 3 |}
               [(ImageScenario.lookup,
                 ImageScenario.file_response
                   (Some {| file_path := Some "photos/file.jpg";
                            file_size := Some 3 |}))]
               "photos/file.jpg"
               {| bytes := ImageScenario.oversized;
                  dl_contentType := Some "image/png" |}
               [(ImageScenario.lookup,
                 ImageScenario.file_response
                   (Some {| file_path := Some "photos/file.jpg";
                            file_size := Some 3 |}));
                ({| url := FILE_BASE_URL +:+ "token" +:+ "/" +:+ "photos/file.jpg";
                    method := "GET"; headers := []; body := None |},
                 ImageScenario.download_response ImageScenario.oversized)]).
    + reflexivity.
    + reflexivity.
    + lazy -[ImageScenario.oversized]. reflexivity.
    + reflexivity.
    + reflexivity.
    + lazy -[ImageScenario.oversized]. reflexivity.
    + exact oversized_length.
Defined.

(** C3 as stated fails when the lookup reports a size over the ceiling but
    no path: the resolver stops at the path check with
    "IMAGE_FILE_PATH_MISSING". *)
Lemma missing_path_precedes_reported_size :
  ~ (forall encoder up token image info lg n,
        run (getFile up token (fileId image)) = (inr info, lg) ->
        file_size info = Some n -> MAX_IMAGE_BYTES < n ->
        fst (run (fetchImageForModel encoder up token image))
        = inl (Error "IMAGE_TOO_LARGE")).
Proof.
  intros H.
  specialize (H None
                (ImageScenario.telegram
                   (Some {| file_path := None; file_size := Some 6000000 |}) [])
                "token" (ImageScenario.photo None)
                {| file_path := None; file_size := Some 6000000 |}
                [(ImageScenario.lookup,
                  ImageScenario.file_response
                    (Some {| file_path := None; file_size := Some 6000000 |}))]
                6000000).
  assert (fst (run (fetchImageForModel None
                      (ImageScenario.telegram
                         (Some {| file_path := None; file_size := Some 6000000 |}) [])
                      "token" (ImageScenario.photo None)))
          = inl (Error "IMAGE_FILE_PATH_MISSING")) as Hrun
    by (vm_compute; reflexivity).
  rewrite Hrun in H.
  assert (inl (Error "IMAGE_FILE_PATH_MISSING")
          = (inl (Error "IMAGE_TOO_LARGE") : exn + ImageData)) as Habs.
  { apply H; [vm_compute; reflexivity|reflexivity|unfold MAX_IMAGE_BYTES; lia]. }
  discriminate Habs.
Qed.

(** * The caller's conversation is left alone *)

Module HeapFacts.
Import Heap.
Local Open Scope store_scope.

Lemma preserved_refl n s : preserved n s s.
Proof. split; [lia|reflexivity]. Qed.

Lemma preserved_trans n s1 s2 s3 :
  preserved n s1 s2 -> preserved n s2 s3 -> preserved n s1 s3.
Proof.
  intros [H1 H1'] [H2 H2']. split; [lia|].
  intros l Hl. rewrite H2', H1' by exact Hl. reflexivity.
Qed.

Lemma safe_ret n {A} (a : A) (Q : A -> Prop) : Q a -> safe n (ret a) Q.
Proof. intros H s _. split; [apply preserved_refl|exact H]. Qed.

Lemma safe_throw n {A} e (Q : A -> Prop) : safe n (throw e) Q.
Proof. intros s _. split; [apply preserved_refl|exact I]. Qed.

Lemma safe_bind n {A B} (m : M A) (k : A -> M B) (Q : A -> Prop) (R : B -> Prop) :
  safe n m Q -> (forall a, Q a -> safe n (k a) R) -> safe n (bind m k) R.
Proof.
  intros Hm Hk s Hs. unfold bind.
  destruct (Hm s Hs) as [Hpre HQ].
  destruct (m s) as [[e|a] s1]; cbn [fst snd] in *.
  - split; [exact Hpre|exact I].
  - destruct (Hk a HQ s1) as [Hpre' HR]; [destruct Hpre; lia|].
    split; [eapply preserved_trans; eassumption|exact HR].
Qed.

Lemma safe_weaken n {A} (m : M A) (Q R : A -> Prop) :
  safe n m Q -> (forall a, Q a -> R a) -> safe n m R.
Proof.
  intros Hm HQR s Hs. destruct (Hm s Hs) as [Hpre HQ]. split; [exact Hpre|].
  destruct (fst (m s)); [exact I|apply HQR; exact HQ].
Qed.

Lemma safe_alloc n c : safe n (alloc c) (fresh n).
Proof.
  intros s Hs. unfold alloc. cbn. split; [|exact Hs].
  split; cbn.
  - rewrite length_app. lia.
  - intros l Hl. apply lookup_app_l. lia.
Qed.

Lemma safe_get n v key : safe n (get v key) any.
Proof.
  intros s _. destruct v as [| | | | |l]; cbn;
    try (split; [apply preserved_refl|exact I]).
  destruct (store s !! l) as [[?|?]|]; cbn; (split; [apply preserved_refl|exact I]).
Qed.

Lemma safe_elements n v : safe n (elements v) any.
Proof.
  intros s _. destruct v as [| | | | |l]; cbn;
    try (split; [apply preserved_refl|exact I]).
  destruct (store s !! l) as [[?|?]|]; cbn; (split; [apply preserved_refl|exact I]).
Qed.

Lemma safe_isArray n v : safe n (isArray v) any.
Proof.
  intros s _. destruct v as [| | | | |l]; cbn;
    try (split; [apply preserved_refl|exact I]).
  destruct (store s !! l) as [[?|?]|]; cbn; (split; [apply preserved_refl|exact I]).
Qed.

Lemma preserved_insert n s l c :
  (n <= l)%nat ->
  preserved n s {| store := <[l := c]> (store s); log := log s |}.
Proof.
  intros Hl. split; cbn.
  - rewrite length_insert. lia.
  - intros l' Hl'. apply list_lookup_insert_ne. lia.
Qed.

Lemma safe_push n arr x : fresh n arr -> safe n (push arr x) any.
Proof.
  intros Hfresh s _. destruct arr as [| | | | |l]; cbn;
    try (split; [apply preserved_refl|exact I]).
  destruct (store s !! l) as [[?|?]|]; cbn;
    try (split; [apply preserved_refl|exact I]).
  split; [apply preserved_insert; exact Hfresh|exact I].
Qed.

Lemma safe_set n obj key x : fresh n obj -> safe n (set obj key x) any.
Proof.
  intros Hfresh s _. destruct obj as [| | | | |l]; cbn;
    try (split; [apply preserved_refl|exact I]).
  destruct (store s !! l) as [[?|?]|]; cbn;
    try (split; [apply preserved_refl|exact I]).
  split; [apply preserved_insert; exact Hfresh|exact I].
Qed.

Lemma safe_post_json n up u hs payload : safe n (post_json up u hs payload) any.
Proof.
  intros s _. unfold post_json.
  destruct (stringify _ _ _); [|split; [apply preserved_refl|exact I]].
  cbv zeta. destruct (up _ _); cbn; (split; [split; cbn; [lia|reflexivity]|exact I]).
Qed.

Lemma safe_traverse n {A B} (f : A -> M B) l :
  (forall x, safe n (f x) any) -> safe n (traverse f l) any.
Proof.
  intros Hf. induction l as [|x l IH]; cbn [traverse].
  - apply safe_ret. exact I.
  - eapply safe_bind; [apply Hf|]. intros y _.
    eapply safe_bind; [exact IH|]. intros ys _. apply safe_ret. exact I.
Qed.

Lemma safe_forEach n {A} (f : A -> M unit) l :
  (forall x, safe n (f x) any) -> safe n (forEach f l) any.
Proof.
  intros Hf. induction l as [|x l IH]; cbn [forEach].
  - apply safe_ret. exact I.
  - eapply safe_bind; [apply Hf|]. intros _ _. exact IH.
Qed.

Lemma safe_some n {A} (p : A -> M bool) l :
  (forall x, safe n (p x) any) -> safe n (some p l) any.
Proof.
  intros Hp. induction l as [|x l IH]; cbn [some].
  - apply safe_ret. exact I.
  - eapply safe_bind; [apply Hp|]. intros [|] _; [apply safe_ret; exact I|exact IH].
Qed.

Lemma safe_any n {A} (m : M A) (Q : A -> Prop) : safe n m Q -> safe n m any.
Proof. intros H. eapply safe_weaken; [exact H|]. intros; exact I. Qed.

Create HintDb safe.
#[local] Hint Resolve safe_throw safe_get safe_elements safe_isArray safe_post_json
  safe_alloc : safe.
#[local] Hint Extern 1 (safe _ (ret _) any) => apply safe_ret; exact I : safe.
#[local] Hint Extern 2 (safe _ (alloc _) any) =>
  apply (safe_any _ _ _ (safe_alloc _ _)) : safe.
#[local] Hint Extern 1 (safe _ (push _ _) any) => apply safe_push; assumption : safe.
#[local] Hint Extern 1 (safe _ (set _ _ _) any) => apply safe_set; assumption : safe.

(** Walks through a computation, discharging each call with the hints. *)
Ltac walk :=
  repeat first
    [ solve [eauto with safe]
    | eapply safe_bind; [solve [eauto with safe]|intros ? ?]
    | eapply (safe_bind _ _ _ any); [|intros ? _]
    | apply safe_traverse; intros ?
    | apply safe_forEach; intros ?
    | apply safe_some; intros ?
    | match goal with
      | |- safe _ (if ?b then _ else _) _ => destruct b
      | |- safe _ (match ?x with _ => _ end) _ => destruct x
      end ].

Lemma safe_toOpenAIContent n c : safe n (toOpenAIContent c) any.
Proof. unfold toOpenAIContent, openai_part. walk. Qed.

Lemma safe_toTextContent n c : safe n (toTextContent c) any.
Proof. unfold toTextContent, text_of_part. walk. Qed.

Lemma safe_contentForClaude n c : safe n (contentForClaude c) any.
Proof. unfold contentForClaude, claude_part. walk. Qed.

Lemma safe_hasImage n messages : safe n (hasImage messages) any.
Proof. unfold hasImage, message_has_image, part_is_image. walk. Qed.

#[local] Hint Resolve safe_toOpenAIContent safe_toTextContent safe_contentForClaude
  safe_hasImage : safe.

Lemma safe_request_messages n convert systemPrompt messages :
  (forall c, safe n (convert c) any) ->
  safe n (request_messages convert systemPrompt messages) (fresh n).
Proof.
  intros Hc. unfold request_messages, convert_messages, convert_message. walk.
Qed.

Lemma safe_convert_messages n convert messages :
  (forall c, safe n (convert c) any) ->
  safe n (convert_messages convert messages) any.
Proof. intros Hc. unfold convert_messages, convert_message. walk. Qed.

#[local] Hint Resolve safe_request_messages safe_convert_messages : safe.

Lemma safe_thinking_object n t : safe n (thinking_object t) (fresh n).
Proof. apply safe_alloc. Qed.

#[local] Hint Resolve safe_thinking_object : safe.

Lemma safe_callClaude n up apiKey model systemPrompt messages :
  safe n (callClaude up apiKey model systemPrompt messages) any.
Proof. unfold callClaude. walk. Qed.

Lemma safe_callOpenAICompatible n env up provider apiKey model systemPrompt
    messages thinking :
  safe n (callOpenAICompatible env up provider apiKey model systemPrompt messages
            thinking) any.
Proof. unfold callOpenAICompatible. walk. Qed.

Lemma safe_callResponsesAPIWithSearch n env up provider apiKey model systemPrompt
    messages :
  safe n (callResponsesAPIWithSearch env up provider apiKey model systemPrompt
            messages) any.
Proof. unfold callResponsesAPIWithSearch. walk. Qed.

Lemma safe_alloc_tool_calls n calls : safe n (alloc_tool_calls calls) any.
Proof. unfold alloc_tool_calls, alloc_tool_call. walk. Qed.

#[local] Hint Resolve safe_alloc_tool_calls : safe.

Lemma safe_tool_rounds n up u apiKey model thinking tools apiMessages searchQueries
    fuel :
  fresh n apiMessages -> fresh n searchQueries ->
  forall tin tout,
    safe n (tool_rounds up u apiKey model thinking tools apiMessages searchQueries
              fuel tin tout) any.
Proof.
  intros Hapi Hq. induction fuel as [|fuel IH]; intros tin tout; cbn [tool_rounds].
  - apply safe_throw.
  - unfold loop_return, record_query, acknowledge. walk; apply IH.
Qed.

#[local] Hint Extern 1 (safe _ (tool_rounds _ _ _ _ _ _ _ _ _ _ _) _) =>
  apply safe_tool_rounds; assumption : safe.

Lemma safe_callMoonshotWithSearch n up apiKey model systemPrompt messages thinking :
  safe n (callMoonshotWithSearch up apiKey model systemPrompt messages thinking) any.
Proof.
  unfold callMoonshotWithSearch. rewrite moonshot_endpoint. walk.
Qed.

Lemma safe_generateResponse n env up provider apiKey model systemPrompt messages
    options :
  safe n (generateResponse env up provider apiKey model systemPrompt messages
            options) any.
Proof.
  unfold generateResponse, allowWebSearch.
  eapply (safe_bind _ _ _ any); [walk|]. intros allow _.
  repeat match goal with
         | |- safe _ (if ?b then _ else _) _ => destruct b
         end;
    auto using safe_callClaude, safe_callOpenAICompatible,
      safe_callMoonshotWithSearch, safe_callResponsesAPIWithSearch, safe_throw.
Qed.

(** C9. Whatever the provider, the options and the upstream answers, every
    array and object that was in the store when [generateResponse] was
    called is the same when it returns or throws: the supplied [messages]
    array, each message, each content array and each part. What the adapters
    build and what the tool-call loop pushes to lives in cells made during
    the call. *)
Theorem generateResponse_leaves_messages
    env up provider apiKey model systemPrompt messages options s l c :
  store s !! l = Some c ->
  store (snd (generateResponse env up provider apiKey model systemPrompt messages
                options s)) !! l = Some c.
Proof.
  intros Hcell.
  destruct (safe_generateResponse (length (store s)) env up provider apiKey model
              systemPrompt messages options s) as [[_ Hsame] _]; [lia|].
  rewrite Hsame; [exact Hcell|].
  apply lookup_lt_Some in Hcell. exact Hcell.
Qed.

(** After a run of the tool-call loop with one search round, the caller's
    array and its message are as before. *)
Lemma generateResponse_leaves_messages_witness :
  let s' := snd (generateResponse ∅ Scenario.searches_once "moonshot" "key" "kimi"
                   "sys" (HeapScenario.conversation Scenario.hello)
                   Scenario.search_on (HeapScenario.caller Scenario.hello)) in
  store s' !! 1%nat = Some (Arr [VRef 0%nat]) /\
  store s' !! 0%nat = Some (Obj [("role", VStr "user"); ("content", VStr "hello")]).
Proof.
  split.
  - apply (generateResponse_leaves_messages ∅ Scenario.searches_once "moonshot"
             "key" "kimi" "sys" (HeapScenario.conversation Scenario.hello)
             Scenario.search_on (HeapScenario.caller Scenario.hello)).
    reflexivity.
  - apply (generateResponse_leaves_messages ∅ Scenario.searches_once "moonshot"
             "key" "kimi" "sys" (HeapScenario.conversation Scenario.hello)
             Scenario.search_on (HeapScenario.caller Scenario.hello)).
    reflexivity.
Defined.

End HeapFacts.

(** On these conversations the run over the store sends the requests and
    returns the result of the run over values, by evaluation. *)
Example store_run_agrees_tool_loop :
  let out := Heap.generateResponse ∅ Scenario.searches_once "moonshot" "key" "kimi"
               "sys" (HeapScenario.conversation Scenario.hello)
               Scenario.search_on (HeapScenario.caller Scenario.hello) in
  (fst out, Heap.log (snd out))
  = run (generateResponse ∅ Scenario.searches_once "moonshot" "key" "kimi"
           "sys" Scenario.hello Scenario.search_on).
Proof. vm_compute. reflexivity. Qed.

Example store_run_agrees_picture :
  let out := Heap.generateResponse ∅ Scenario.answers "claude" "key" "claude-sonnet"
               "sys" (HeapScenario.conversation Scenario.picture)
               Scenario.search_on (HeapScenario.caller Scenario.picture) in
  (fst out, Heap.log (snd out))
  = run (generateResponse ∅ Scenario.answers "claude" "key" "claude-sonnet"
           "sys" Scenario.picture Scenario.search_on).
Proof. vm_compute. reflexivity. Qed.

Example store_run_agrees_responses :
  let out := Heap.generateResponse ∅ Scenario.searched_twice "openai" "key" "gpt-4o"
               "sys" (HeapScenario.conversation Scenario.picture)
               Scenario.search_off (HeapScenario.caller Scenario.picture) in
  (fst out, Heap.log (snd out))
  = run (generateResponse ∅ Scenario.searched_twice "openai" "key" "gpt-4o"
           "sys" Scenario.picture Scenario.search_off).
Proof. vm_compute. reflexivity. Qed.

(** * The run over the store agrees with the run over values

    [JSON.stringify] of a payload built in the store is the payload of the
    value-level model, so every adapter sends the same requests and returns
    the same result in both models. *)
Module Refinement.

Import Rep.
Import Heap(loc, value(..), cell(..), State, store, log, alloc, get, elements,
  isArray, push, traverse, forEach, stringify, post_json, show, join_show,
  openai_part, claude_part, text_of_part, convert_message, alloc_tool_call,
  record_query, acknowledge, part_is_image, message_has_image,
  defined, prop_lookup, is_string, nullable, alloc_tool_calls, loop_return,
  request_messages, thinking_object).

(** ** What a value in the store stringifies to *)

Lemma den_arr F h js v :
  den F h (JArr js) v <->
  exists l vs, v = VRef l /\ F l /\ h !! l = Some (Arr vs) /\ den_items F h js vs.
Proof.
  assert (forall js vs,
    (fix all (js : list Json) (vs : list value) : Prop :=
       match js, vs with
       | [], [] => True
       | j :: js', x :: vs' => den F h j x /\ all js' vs'
       | _, _ => False
       end) js vs <-> den_items F h js vs) as Hall.
  { clear. induction js as [|j js IH]; intros [|x vs]; cbn; try tauto.
    rewrite IH. tauto. }
  cbn [den]. split; intros (l & vs & Hv & HF & Hl & H); exists l, vs;
    repeat split; try assumption; apply Hall; exact H.
Qed.

Lemma den_obj F h ps v :
  den F h (JObj ps) v <->
  exists l props,
    v = VRef l /\ F l /\ h !! l = Some (Obj props) /\ den_props F h ps props.
Proof.
  assert (forall ps props,
    (fix all (ps : list (string * Json)) (props : list (string * value)) : Prop :=
       match ps, props with
       | [], [] => True
       | (k, j) :: ps', (k', x) :: props' =>
           k = k' /\ defined x = true /\ den F h j x /\ all ps' props'
       | _, _ => False
       end) ps props <-> den_props F h ps props) as Hall.
  { clear. induction ps as [|[k j] ps IH]; intros [|[k' x] props]; cbn; try tauto.
    rewrite IH. tauto. }
  cbn [den]. split; intros (l & props & Hv & HF & Hl & H); exists l, props;
    repeat split; try assumption; apply Hall; exact H.
Qed.

Lemma Json_size_ind (P : Json -> Prop) :
  (forall j, (forall j', (size j' < size j)%nat -> P j') -> P j) -> forall j, P j.
Proof.
  intros H j. remember (size j) as n eqn:Hn. revert j Hn.
  induction n as [n IH] using lt_wf_ind. intros j ->.
  apply H. intros j' Hlt. eapply IH; [exact Hlt|reflexivity].
Qed.

Lemma size_item j js : In j js -> (size j < size (JArr js))%nat.
Proof.
  cbn [size]. induction js as [|j0 js IH]; cbn; [tauto|].
  intros [->|Hin]; [lia|]. specialize (IH Hin). lia.
Qed.

Lemma size_prop k j ps : In (k, j) ps -> (size j < size (JObj ps))%nat.
Proof.
  cbn [size]. induction ps as [|[k0 j0] ps IH]; cbn; [tauto|].
  intros [Heq|Hin]; [injection Heq as -> ->; lia|]. specialize (IH Hin). lia.
Qed.

(** A value denotes at most one JSON value. *)
Lemma den_fun F h j1 : forall j2 v, den F h j1 v -> den F h j2 v -> j1 = j2.
Proof.
  induction j1 as [j1 IH] using Json_size_ind. intros j2 v H1 H2.
  destruct j1 as [| b1 | n1 | s1 | js1 | ps1].
  - cbn in H1. subst v. destruct j2; cbn in H2; try congruence.
    + apply den_arr in H2. destruct H2 as (l & vs & Hv & _). discriminate.
    + apply den_obj in H2. destruct H2 as (l & vs & Hv & _). discriminate.
  - cbn in H1. subst v. destruct j2; cbn in H2; try congruence.
    + apply den_arr in H2. destruct H2 as (l & vs & Hv & _). discriminate.
    + apply den_obj in H2. destruct H2 as (l & vs & Hv & _). discriminate.
  - cbn in H1. subst v. destruct j2; cbn in H2; try congruence.
    + apply den_arr in H2. destruct H2 as (l & vs & Hv & _). discriminate.
    + apply den_obj in H2. destruct H2 as (l & vs & Hv & _). discriminate.
  - cbn in H1. subst v. destruct j2; cbn in H2; try congruence.
    + apply den_arr in H2. destruct H2 as (l & vs & Hv & _). discriminate.
    + apply den_obj in H2. destruct H2 as (l & vs & Hv & _). discriminate.
  - apply den_arr in H1. destruct H1 as (l & vs & -> & _ & Hl & Hall).
    destruct j2 as [| | | | js2 | ps2]; try (cbn in H2; discriminate).
    + apply den_arr in H2. destruct H2 as (l' & vs' & Hv & _ & Hl' & Hall').
      injection Hv as <-. rewrite Hl in Hl'. injection Hl' as <-.
      f_equal.
      assert (forall j, In j js1 -> forall j2 v, den F h j v -> den F h j2 v -> j = j2)
        as IH' by (intros j Hin; apply IH, size_item, Hin).
      clear IH Hl. revert vs js2 Hall Hall' IH'.
      induction js1 as [|j js1 IHl]; intros [|x vs] [|j2 js2]; cbn; try tauto.
      intros [Hj Hall] [Hj2 Hall'] IH'. f_equal.
      * eapply IH'; [left; reflexivity|exact Hj|exact Hj2].
      * eapply IHl; [exact Hall|exact Hall'|]. intros j0 Hin. apply IH'. right. exact Hin.
    + apply den_obj in H2. destruct H2 as (l' & props & Hv & _ & Hl' & _).
      injection Hv as <-. rewrite Hl in Hl'. discriminate.
  - apply den_obj in H1. destruct H1 as (l & props & -> & _ & Hl & Hall).
    destruct j2 as [| | | | js2 | ps2]; try (cbn in H2; discriminate).
    + apply den_arr in H2. destruct H2 as (l' & vs' & Hv & _ & Hl' & _).
      injection Hv as <-. rewrite Hl in Hl'. discriminate.
    + apply den_obj in H2. destruct H2 as (l' & props' & Hv & _ & Hl' & Hall').
      injection Hv as <-. rewrite Hl in Hl'. injection Hl' as <-.
      f_equal.
      assert (forall k j, In (k, j) ps1 ->
                forall j2 v, den F h j v -> den F h j2 v -> j = j2)
        as IH' by (intros k j Hin; eapply IH, size_prop, Hin).
      clear IH Hl. revert props ps2 Hall Hall' IH'.
      induction ps1 as [|[k j] ps1 IHl]; intros [|[k' x] props] [|[k2 j2] ps2];
        cbn; try tauto.
      intros (-> & _ & Hj & Hall) (-> & _ & Hj2 & Hall') IH'. f_equal.
      * f_equal. eapply IH'; [left; reflexivity|exact Hj|exact Hj2].
      * eapply IHl; [exact Hall|exact Hall'|].
        intros k0 j0 Hin. eapply IH'. right. exact Hin.
Qed.

Lemma room_for_one (n : nat) l (anc : list loc) :
  List.NoDup (l :: anc) -> (forall a, In a (l :: anc) -> (a < n)%nat) ->
  (S (length anc) <= n)%nat.
Proof.
  intros Hnd Hlt.
  assert (length (l :: anc) <= length (seq 0 n))%nat as H.
  { apply NoDup_incl_length; [exact Hnd|].
    intros a Ha. apply in_seq. specialize (Hlt a Ha). lia. }
  rewrite length_seq in H. exact H.
Qed.

Lemma stringify_ref fuel h l :
  stringify (S fuel) h (VRef l) =
    match h !! l with
    | None => None
    | Some (Arr elems) => JArr <$> mapM (stringify fuel h) elems
    | Some (Obj props) =>
        JObj <$> mapM (fun p => pair (fst p) <$> stringify fuel h (snd p))
                   (List.filter (fun p => defined (snd p)) props)
    end.
Proof. reflexivity. Qed.

Lemma stringify_items F h fuel js :
  forall vs,
    den_items F h js vs ->
    (forall j x, In j js -> den F h j x -> stringify fuel h x = Some j) ->
    mapM (stringify fuel h) vs = Some js.
Proof.
  induction js as [|j js IH]; intros [|x vs]; cbn [den_items]; try tauto.
  intros [Hx Hall] Hrec. cbn.
  rewrite (Hrec j x (or_introl eq_refl) Hx). cbn.
  rewrite (IH vs Hall (fun j' x' Hin => Hrec j' x' (or_intror Hin))).
  reflexivity.
Qed.

Lemma stringify_fields F h fuel ps :
  forall props,
    den_props F h ps props ->
    (forall k j x, In (k, j) ps -> den F h j x -> stringify fuel h x = Some j) ->
    mapM (fun p => pair (fst p) <$> stringify fuel h (snd p))
      (List.filter (fun p => defined (snd p)) props) = Some ps.
Proof.
  induction ps as [|[k j] ps IH]; intros [|[k' x] props]; cbn [den_props]; try tauto.
  intros (-> & Hdef & Hx & Hall) Hrec. cbn. rewrite Hdef. cbn.
  rewrite (Hrec k' j x (or_introl eq_refl) Hx). cbn.
  rewrite (IH props Hall (fun k0 j' x' Hin => Hrec k0 j' x' (or_intror Hin))).
  reflexivity.
Qed.

(** [JSON.stringify] with fuel beyond the size of the store returns what the
    value denotes. *)
Lemma stringify_den_under F h j :
  forall v anc,
    den F h j v ->
    List.NoDup anc ->
    (forall a, In a anc ->
       (a < length h)%nat /\
       exists ja, den F h ja (VRef a) /\ (size j < size ja)%nat) ->
    stringify (S (length h - length anc)) h v = Some j.
Proof.
  induction j as [j IH] using Json_size_ind. intros v anc Hden Hnd Hanc.
  destruct j as [| b | n | s | js | ps];
    try (cbn in Hden; subst v; reflexivity).
  - pose proof Hden as Hden0.
    apply den_arr in Hden. destruct Hden as (l & vs & -> & _ & Hl & Hall).
    assert (~ In l anc) as Hfresh.
    { intros Hin. destruct (Hanc l Hin) as (_ & ja & Hja & Hlt).
      rewrite (den_fun F h _ _ _ Hja Hden0) in Hlt. lia. }
    assert (S (length anc) <= length h)%nat as Hroom.
    { apply (room_for_one _ l); [apply List.NoDup_cons; assumption|].
      intros a [<-|Ha]; [eapply lookup_lt_Some; exact Hl|apply Hanc, Ha]. }
    replace (length h - length anc)%nat
      with (S (length h - length (l :: anc)))%nat
      by (unfold loc in *; cbn [length]; lia).
    rewrite stringify_ref, Hl.
    assert (forall j' x, In j' js -> den F h j' x ->
              stringify (S (length h - length (l :: anc))) h x = Some j') as Hrec.
    { intros j' x Hin Hx. apply IH; [apply size_item, Hin|exact Hx| |].
      - apply List.NoDup_cons; assumption.
      - intros a [<-|Ha].
        + split; [eapply lookup_lt_Some; exact Hl|].
          exists (JArr js). split; [exact Hden0|apply size_item, Hin].
        + destruct (Hanc a Ha) as (Hlt & ja & Hja & Hsz).
          split; [exact Hlt|]. exists ja. split; [exact Hja|].
          pose proof (size_item _ _ Hin). lia. }
    rewrite (stringify_items F h _ js vs Hall Hrec). reflexivity.
  - pose proof Hden as Hden0.
    apply den_obj in Hden. destruct Hden as (l & props & -> & _ & Hl & Hall).
    assert (~ In l anc) as Hfresh.
    { intros Hin. destruct (Hanc l Hin) as (_ & ja & Hja & Hlt).
      rewrite (den_fun F h _ _ _ Hja Hden0) in Hlt. lia. }
    assert (S (length anc) <= length h)%nat as Hroom.
    { apply (room_for_one _ l); [apply List.NoDup_cons; assumption|].
      intros a [<-|Ha]; [eapply lookup_lt_Some; exact Hl|apply Hanc, Ha]. }
    replace (length h - length anc)%nat
      with (S (length h - length (l :: anc)))%nat
      by (unfold loc in *; cbn [length]; lia).
    rewrite stringify_ref, Hl.
    assert (forall k j' x, In (k, j') ps -> den F h j' x ->
              stringify (S (length h - length (l :: anc))) h x = Some j') as Hrec.
    { intros k j' x Hin Hx. apply IH; [eapply size_prop, Hin|exact Hx| |].
      - apply List.NoDup_cons; assumption.
      - intros a [<-|Ha].
        + split; [eapply lookup_lt_Some; exact Hl|].
          exists (JObj ps). split; [exact Hden0|eapply size_prop, Hin].
        + destruct (Hanc a Ha) as (Hlt & ja & Hja & Hsz).
          split; [exact Hlt|]. exists ja. split; [exact Hja|].
          pose proof (size_prop _ _ _ Hin). lia. }
    rewrite (stringify_fields F h _ ps props Hall Hrec). reflexivity.
Qed.

Lemma stringify_den F h j v :
  den F h j v -> stringify (S (length h)) h v = Some j.
Proof.
  intros Hden.
  pose proof (stringify_den_under F h j v [] Hden (List.NoDup_nil _)) as H.
  cbn [length] in H. rewrite Nat.sub_0_r in H. apply H. intros a [].
Qed.

(** ** Denotations under changes of the store *)

Lemma den_items_impl (F F' : loc -> Prop) h h' js :
  forall vs,
    (forall j x, In j js -> den F h j x -> den F' h' j x) ->
    den_items F h js vs -> den_items F' h' js vs.
Proof.
  induction js as [|j js IH]; intros [|x vs] Himp; cbn; try tauto.
  intros [Hx Hall]. split.
  - apply Himp; [left; reflexivity|exact Hx].
  - apply IH; [|exact Hall]. intros j' x' Hin. apply Himp. right. exact Hin.
Qed.

Lemma den_props_impl (F F' : loc -> Prop) h h' ps :
  forall props,
    (forall k j x, In (k, j) ps -> den F h j x -> den F' h' j x) ->
    den_props F h ps props -> den_props F' h' ps props.
Proof.
  induction ps as [|[k j] ps IH]; intros [|[k' x] props] Himp; cbn; try tauto.
  intros (Hk & Hd & Hx & Hall). repeat split; try assumption.
  - eapply Himp; [left; reflexivity|exact Hx].
  - apply IH; [|exact Hall]. intros k0 j' x' Hin. eapply Himp. right. exact Hin.
Qed.

Lemma den_mono (F F' : loc -> Prop) h h' j :
  forall v,
    (forall l, F l -> F' l) -> agree F h h' ->
    den F h j v -> den F' h' j v.
Proof.
  induction j as [j IH] using Json_size_ind. intros v HF Hagree Hden.
  destruct j as [| b | n | s | js | ps]; try exact Hden.
  - apply den_arr in Hden. destruct Hden as (l & vs & -> & Hl & Hcell & Hall).
    apply den_arr. exists l, vs. repeat split; auto.
    eapply den_items_impl; [|exact Hall].
    intros j x Hin. apply IH; auto. apply size_item, Hin.
  - apply den_obj in Hden. destruct Hden as (l & props & -> & Hl & Hcell & Hall).
    apply den_obj. exists l, props. repeat split; auto.
    eapply den_props_impl; [|exact Hall].
    intros k j x Hin. apply IH; auto. eapply size_prop, Hin.
Qed.

Lemma agree_app F h new : agree F h (h ++ new).
Proof. intros l c _ Hl. apply lookup_app_l_Some. exact Hl. Qed.

Lemma agree_insert (F : loc -> Prop) h l c :
  ~ F l -> agree F h (<[l := c]> h).
Proof.
  intros HF l' c' HF' Hl'. rewrite list_lookup_insert_ne; [exact Hl'|].
  intros ->. contradiction.
Qed.

Lemma agree_trans F h1 h2 h3 : agree F h1 h2 -> agree F h2 h3 -> agree F h1 h3.
Proof. intros H12 H23 l c HF Hl. eauto. Qed.

Lemma den_items_mono (F F' : loc -> Prop) h h' js vs :
  (forall l, F l -> F' l) -> agree F h h' ->
  den_items F h js vs -> den_items F' h' js vs.
Proof.
  intros HF Hagree. apply den_items_impl. intros j x _. apply den_mono; assumption.
Qed.

Lemma den_items_app F h js1 js2 vs1 vs2 :
  den_items F h js1 vs1 -> den_items F h js2 vs2 ->
  den_items F h (js1 ++ js2) (vs1 ++ vs2).
Proof.
  revert vs1. induction js1 as [|j js1 IH]; intros [|x vs1]; cbn; try tauto.
  intros [Hx Hall] H2. split; [exact Hx|apply IH; assumption].
Qed.

(** ** Running the store primitives *)

Lemma extend_nil s : extend s [] = s.
Proof. destruct s. unfold extend. cbn. rewrite app_nil_r. reflexivity. Qed.

Lemma extend_extend s new1 new2 :
  extend (extend s new1) new2 = extend s (new1 ++ new2).
Proof. unfold extend. cbn. rewrite app_assoc. reflexivity. Qed.

Lemma bind_eq {A B} (m : Heap.M A) (k : A -> Heap.M B) s a s' :
  m s = (inr a, s') -> Heap.bind m k s = k a s'.
Proof. intros H. unfold Heap.bind. rewrite H. reflexivity. Qed.

Lemma alloc_eq c s :
  alloc c s = (inr (VRef (length (store s))), extend s [c]).
Proof. reflexivity. Qed.

Lemma get_eq s l props key :
  store s !! l = Some (Obj props) ->
  get (VRef l) key s = (inr (default VUndefined (prop_lookup key props)), s).
Proof. intros H. cbn. rewrite H. reflexivity. Qed.

Lemma elements_eq s l vs :
  store s !! l = Some (Arr vs) -> elements (VRef l) s = (inr vs, s).
Proof. intros H. cbn. rewrite H. reflexivity. Qed.

Lemma isArray_eq s l vs :
  store s !! l = Some (Arr vs) -> isArray (VRef l) s = (inr true, s).
Proof. intros H. cbn. rewrite H. reflexivity. Qed.

Lemma lookup_new (h : list cell) c : (h ++ [c]) !! length h = Some c.
Proof. rewrite lookup_app_r by lia. rewrite Nat.sub_diag. reflexivity. Qed.

(** ** The caller's conversation in the store *)

Lemma keeps_refl h : keeps h h.
Proof. intros l c H. exact H. Qed.

Lemma keeps_app h0 h new : keeps h0 h -> keeps h0 (h ++ new).
Proof. intros H l c Hl. apply lookup_app_l_Some, H, Hl. Qed.

(** ** Builders of request payloads *)

Lemma since_le n m l : (n <= m)%nat -> since m l -> since n l.
Proof. unfold since. lia. Qed.

Lemma traverse_builds {A X} h0 (f : A -> Heap.M value) (g : X -> Json)
    (R : A -> X -> Prop) :
  (forall v x, R v x -> builds h0 (f v) (g x)) ->
  forall vs xs, Forall2 R vs xs ->
  forall s, keeps h0 (store s) ->
    exists vs' new,
      traverse f vs s = (inr vs', extend s new) /\
      den_items (since (length (store s))) (store s ++ new) (map g xs) vs'.
Proof.
  intros Hf vs xs Hall. induction Hall as [|v x vs xs Hvx Hall IH]; intros s Hk.
  - exists [], []. rewrite extend_nil. split; [reflexivity|exact I].
  - destruct (Hf v x Hvx s Hk) as (v' & new1 & Hrun1 & Hden1).
    destruct (IH (extend s new1)) as (vs' & new2 & Hrun2 & Hden2).
    { apply keeps_app, Hk. }
    exists (v' :: vs'), (new1 ++ new2). split.
    + cbn [traverse]. rewrite (bind_eq _ _ _ _ _ Hrun1).
      rewrite (bind_eq _ _ _ _ _ Hrun2). rewrite extend_extend. reflexivity.
    + cbn [map den_items]. cbn [extend store] in Hden2. split.
      * rewrite app_assoc. eapply den_mono; [|apply agree_app|exact Hden1]. auto.
      * rewrite app_assoc. eapply den_items_mono; [| |exact Hden2].
        -- intros l. apply since_le. rewrite length_app. lia.
        -- intros l c _ H. exact H.
Qed.

Lemma rep_part_get h0 s v part :
  keeps h0 (store s) -> rep_part h0 v part ->
  exists l, v = VRef l /\ store s !! l = Some (part_cell part).
Proof. intros Hk (l & -> & Hl). exists l. split; [reflexivity|apply Hk, Hl]. Qed.

(** Stepping through a computation. *)

Lemma bind_ret {A B} (a : A) (k : A -> Heap.M B) s :
  Heap.bind (Heap.ret a) k s = k a s.
Proof. reflexivity. Qed.

Lemma bind_alloc {B} c (k : value -> Heap.M B) s :
  Heap.bind (alloc c) k s = k (VRef (length (store s))) (extend s [c]).
Proof. reflexivity. Qed.

Lemma bind_get {B} s l props key (k : value -> Heap.M B) :
  store s !! l = Some (Obj props) ->
  Heap.bind (get (VRef l) key) k s
  = k (default VUndefined (prop_lookup key props)) s.
Proof. intros H. apply bind_eq, get_eq, H. Qed.

Lemma bind_elements {B} s l vs (k : list value -> Heap.M B) :
  store s !! l = Some (Arr vs) ->
  Heap.bind (elements (VRef l)) k s = k vs s.
Proof. intros H. apply bind_eq, elements_eq, H. Qed.

Lemma lookup_at (h : list cell) new (i : nat) :
  (h ++ new) !! (length h + i)%nat = new !! i.
Proof. rewrite lookup_app_r by lia. f_equal. lia. Qed.

Lemma lookup_at_0 (h : list cell) new : (h ++ new) !! length h = new !! 0%nat.
Proof. rewrite <- (lookup_at h new 0). f_equal. lia. Qed.

Lemma store_extend s new : store (extend s new) = store s ++ new.
Proof. reflexivity. Qed.

(** Closes [den F h (JObj _) (VRef _)] and [den F h (JArr _) (VRef _)] goals
    over cells that sit at a known offset behind [store s]. *)
Ltac new_cell :=
  first [ rewrite lookup_at_0; reflexivity
        | rewrite lookup_at; reflexivity ].

(** Reads the property just looked up. *)
Ltac look :=
  cbn [prop_lookup String.eqb Ascii.eqb Bool.eqb default from_option id is_string].

Lemma openai_part_builds h0 v part :
  rep_part h0 v part -> builds h0 (openai_part v) (openai_part_json part).
Proof.
  intros Hrep s Hk.
  destruct (rep_part_get h0 s v part Hk Hrep) as (lp & -> & Hlp).
  unfold openai_part.
  destruct part as [t|mediaType data]; cbn [part_cell] in Hlp.
  - rewrite (bind_get s lp _ "type" _ Hlp). look.
    rewrite (bind_get s lp _ "text" _ Hlp). look.
    rewrite alloc_eq. eexists _, _. split; [reflexivity|].
    apply den_obj. eexists _, _. repeat split.
    + unfold since. lia.
    + new_cell.
    + cbn. repeat split.
  - rewrite (bind_get s lp _ "type" _ Hlp). look.
    rewrite (bind_get s lp _ "mediaType" _ Hlp). look.
    rewrite (bind_get s lp _ "data" _ Hlp). look.
    rewrite bind_alloc, alloc_eq, extend_extend.
    eexists _, _. split; [reflexivity|].
    rewrite store_extend, length_app. cbn [length app show].
    apply den_obj. eexists _, _. repeat split.
    + unfold since. lia.
    + new_cell.
    + cbn [den_props defined]. repeat split.
      apply den_obj. eexists _, _. repeat split.
      * unfold since. apply Nat.le_refl.
      * new_cell.
      * cbn. repeat split.
Qed.

Lemma claude_part_builds h0 v part :
  rep_part h0 v part -> builds h0 (claude_part v) (claude_part_json part).
Proof.
  intros Hrep s Hk.
  destruct (rep_part_get h0 s v part Hk Hrep) as (lp & -> & Hlp).
  unfold claude_part.
  destruct part as [t|mediaType data]; cbn [part_cell] in Hlp.
  - rewrite (bind_get s lp _ "type" _ Hlp). look.
    rewrite (bind_get s lp _ "text" _ Hlp). look.
    rewrite alloc_eq. eexists _, _. split; [reflexivity|].
    apply den_obj. eexists _, _. repeat split.
    + unfold since. lia.
    + new_cell.
    + cbn. repeat split.
  - rewrite (bind_get s lp _ "type" _ Hlp). look.
    rewrite (bind_get s lp _ "mediaType" _ Hlp). look.
    rewrite (bind_get s lp _ "data" _ Hlp). look.
    rewrite bind_alloc, alloc_eq, extend_extend.
    eexists _, _. split; [reflexivity|].
    rewrite store_extend, length_app. cbn [length app].
    apply den_obj. eexists _, _. repeat split.
    + unfold since. lia.
    + new_cell.
    + cbn [den_props defined]. repeat split.
      apply den_obj. eexists _, _. repeat split.
      * unfold since. apply Nat.le_refl.
      * new_cell.
      * cbn. repeat split.
Qed.

Lemma text_of_part_eq h0 v part s :
  keeps h0 (store s) -> rep_part h0 v part ->
  text_of_part v s = (inr (VStr (part_text part)), s).
Proof.
  intros Hk Hrep.
  destruct (rep_part_get h0 s v part Hk Hrep) as (lp & -> & Hlp).
  unfold text_of_part.
  destruct part as [t|mediaType data]; cbn [part_cell] in Hlp.
  - rewrite (bind_get s lp _ "type" _ Hlp). look.
    rewrite (get_eq s lp _ "text" Hlp). reflexivity.
  - rewrite (bind_get s lp _ "type" _ Hlp). look. reflexivity.
Qed.

(** A traversal that reads only. *)
Lemma traverse_reads {A X B} (f : A -> Heap.M B) (g : X -> B)
    (R : A -> X -> Prop) s :
  (forall v x, R v x -> f v s = (inr (g x), s)) ->
  forall vs xs, Forall2 R vs xs -> traverse f vs s = (inr (map g xs), s).
Proof.
  intros Hf vs xs Hall. induction Hall as [|v x vs xs Hvx Hall IH].
  - reflexivity.
  - cbn [traverse map]. rewrite (bind_eq _ _ _ _ _ (Hf v x Hvx)).
    rewrite (bind_eq _ _ _ _ _ IH). reflexivity.
Qed.

Lemma den_defined F h j v : den F h j v -> defined v = true.
Proof.
  destruct j; cbn [den]; try (intros ->; reflexivity).
  - intros (l & vs & -> & _). reflexivity.
  - intros (l & ps & -> & _). reflexivity.
Qed.

Lemma array_builds h0 {A} (f : A -> Heap.M value) {X} (g : X -> Json)
    (R : A -> X -> Prop) vs xs :
  (forall v x, R v x -> builds h0 (f v) (g x)) ->
  Forall2 R vs xs ->
  builds h0 (Heap.bind (traverse f vs) (fun converted => alloc (Arr converted)))
    (JArr (map g xs)).
Proof.
  intros Hf Hall s Hk.
  destruct (traverse_builds h0 f g R Hf vs xs Hall s Hk)
    as (vs' & new & Hrun & Hden).
  rewrite (bind_eq _ _ _ _ _ Hrun), alloc_eq, extend_extend.
  eexists _, _. split; [reflexivity|].
  rewrite store_extend. apply den_arr. eexists _, vs'. repeat split.
  - unfold since. rewrite length_app. lia.
  - rewrite app_assoc. apply lookup_new.
  - rewrite app_assoc. eapply den_items_mono; [| |exact Hden]; [auto|apply agree_app].
Qed.

Lemma toOpenAIContent_builds h0 cv c :
  rep_content h0 cv c -> builds h0 (Heap.toOpenAIContent cv) (toOpenAIContent c).
Proof.
  destruct c as [str|parts]; cbn [rep_content].
  - intros -> s _. exists (VStr str), []. rewrite extend_nil. split; reflexivity.
  - intros (l & vs & -> & Hl & Hparts) s Hk.
    unfold Heap.toOpenAIContent. rewrite (bind_elements s l vs _ (Hk _ _ Hl)).
    apply (array_builds h0 openai_part openai_part_json (rep_part h0) vs parts
             (openai_part_builds h0) Hparts s Hk).
Qed.

Lemma contentForClaude_builds h0 cv c :
  rep_content h0 cv c -> builds h0 (Heap.contentForClaude cv) (contentForClaude c).
Proof.
  destruct c as [str|parts]; cbn [rep_content].
  - intros -> s _. exists (VStr str), []. rewrite extend_nil. split; reflexivity.
  - intros (l & vs & -> & Hl & Hparts) s Hk.
    unfold Heap.contentForClaude. rewrite (bind_elements s l vs _ (Hk _ _ Hl)).
    apply (array_builds h0 claude_part claude_part_json (rep_part h0) vs parts
             (claude_part_builds h0) Hparts s Hk).
Qed.

Lemma toTextContent_builds h0 cv c :
  rep_content h0 cv c ->
  builds h0 (Heap.toTextContent cv) (JStr (toTextContent c)).
Proof.
  destruct c as [str|parts]; cbn [rep_content].
  - intros -> s _. exists (VStr str), []. rewrite extend_nil. split; reflexivity.
  - intros (l & vs & -> & Hl & Hparts) s Hk.
    unfold Heap.toTextContent. rewrite (bind_elements s l vs _ (Hk _ _ Hl)).
    rewrite (bind_eq _ _ _ _ _
               (traverse_reads text_of_part (fun p => VStr (part_text p))
                  (rep_part h0) s
                  (fun v x Hvx => text_of_part_eq h0 v x s Hk Hvx) vs parts Hparts)).
    rewrite bind_alloc, bind_ret || rewrite bind_alloc.
    eexists _, _. split; [reflexivity|].
    cbn [den toTextContent]. f_equal. f_equal.
    rewrite map_map. reflexivity.
Qed.

Lemma rep_message_get h0 s v m :
  keeps h0 (store s) -> rep_message h0 v m ->
  exists l cv,
    v = VRef l /\
    store s !! l = Some (Obj [("role", VStr (role_name (role m))); ("content", cv)]) /\
    rep_content h0 cv (content m).
Proof.
  intros Hk (l & cv & -> & Hl & Hc). exists l, cv.
  split; [reflexivity|]. split; [apply Hk, Hl|exact Hc].
Qed.

Lemma convert_message_builds h0 convert pconvert v m :
  (forall cv c, rep_content h0 cv c -> builds h0 (convert cv) (pconvert c)) ->
  rep_message h0 v m ->
  builds h0 (convert_message convert v) (message_json pconvert m).
Proof.
  intros Hconv Hrep s Hk.
  destruct (rep_message_get h0 s v m Hk Hrep) as (l & cv & -> & Hl & Hc).
  unfold convert_message.
  rewrite (bind_get s l _ "role" _ Hl). look.
  rewrite (bind_get s l _ "content" _ Hl). look.
  destruct (Hconv cv (content m) Hc s Hk) as (c' & new & Hrun & Hden).
  rewrite (bind_eq _ _ _ _ _ Hrun), alloc_eq, extend_extend.
  eexists _, _. split; [reflexivity|].
  rewrite store_extend. apply den_obj. eexists _, _. repeat split.
  - unfold since. rewrite length_app. lia.
  - rewrite app_assoc. apply lookup_new.
  - cbn [den_props]. repeat split.
    + eapply den_defined, Hden.
    + rewrite app_assoc. eapply den_mono; [|apply agree_app|exact Hden]. auto.
Qed.

Lemma convert_messages_builds h0 convert pconvert v messages :
  (forall cv c, rep_content h0 cv c -> builds h0 (convert cv) (pconvert c)) ->
  rep_messages h0 v messages ->
  builds h0 (Heap.convert_messages convert v)
    (JArr (convert_messages pconvert messages)).
Proof.
  intros Hconv (l & vs & -> & Hl & Hall) s Hk.
  unfold Heap.convert_messages. rewrite (bind_elements s l vs _ (Hk _ _ Hl)).
  apply (array_builds h0 (convert_message convert) (message_json pconvert)
           (rep_message h0) vs messages
           (fun v x => convert_message_builds h0 convert pconvert v x Hconv)
           Hall s Hk).
Qed.

Lemma request_messages_builds h0 convert pconvert systemPrompt v messages :
  (forall cv c, rep_content h0 cv c -> builds h0 (convert cv) (pconvert c)) ->
  rep_messages h0 v messages ->
  builds h0 (request_messages convert systemPrompt v)
    (JArr (system_message systemPrompt :: convert_messages pconvert messages)).
Proof.
  intros Hconv Hrep s Hk. unfold request_messages.
  rewrite bind_alloc.
  set (sys := Obj [("role", VStr "system"); ("content", VStr systemPrompt)]).
  destruct (convert_messages_builds h0 convert pconvert v messages Hconv Hrep
              (extend s [sys]))
    as (mapped & new & Hrun & Hden).
  { apply keeps_app, Hk. }
  rewrite (bind_eq _ _ _ _ _ Hrun).
  apply den_arr in Hden. destruct Hden as (lm & converted & -> & _ & Hlm & Hitems).
  rewrite (bind_elements (extend (extend s [sys]) new) lm converted _ Hlm).
  rewrite alloc_eq, !extend_extend.
  eexists _, _. split; [reflexivity|].
  rewrite !store_extend in *. apply den_arr. eexists _, _. repeat split.
  - unfold since. rewrite !length_app. lia.
  - rewrite !app_assoc. apply lookup_new.
  - cbn [den_items]. split.
    + apply den_obj. eexists _, _. repeat split.
      * unfold since. apply Nat.le_refl.
      * rewrite <- !app_assoc. new_cell.
      * cbn. repeat split.
    + rewrite !app_assoc. eapply den_items_mono; [| |exact Hitems].
      * intros l0. apply since_le. rewrite length_app. lia.
      * apply agree_app.
Qed.

(** ** Agreement of a store-level call with the value-level one *)

Lemma agrees_step {A} (m m' : Heap.M A) p s s' :
  m s = m' s' -> log s' = log s -> agrees m' p s' -> agrees m p s.
Proof. unfold agrees. intros -> <-. tauto. Qed.

Lemma post_json_agrees {A} F up u hs payload j s
    (k : Response -> Heap.M A) (p : Response -> M A) :
  den F (store s) j payload ->
  (forall r, agrees (k r) (p r) (sent s (post u hs j) r)) ->
  agrees (Heap.bind (post_json up u hs payload) k)
         (bind (fetch up (post u hs j)) p) s.
Proof.
  intros Hden Hk. unfold agrees, Heap.bind, bind, post_json, fetch.
  rewrite (stringify_den _ _ _ _ Hden).
  destruct (up (map fst (log s)) (post u hs j)) as [why|r] eqn:Hout.
  - split; reflexivity.
  - apply Hk.
Qed.

Lemma post_json_run {A} F up u hs payload j s lg
    (k : Response -> Heap.M A) (p : Response -> M A) :
  log s = lg ->
  den F (store s) j payload ->
  (forall r, agrees (k r) (p r) (sent s (post u hs j) r)) ->
  fst (Heap.bind (post_json up u hs payload) k s)
  = fst (bind (fetch up (post u hs j)) p lg) /\
  log (snd (Heap.bind (post_json up u hs payload) k s))
  = snd (bind (fetch up (post u hs j)) p lg).
Proof. intros <-. apply post_json_agrees. Qed.

Lemma callClaude_agrees h0 up apiKey model systemPrompt v messages s :
  rep_messages h0 v messages -> keeps h0 (store s) ->
  agrees (Heap.callClaude up apiKey model systemPrompt v)
         (callClaude up apiKey model systemPrompt messages) s.
Proof.
  intros Hrep Hk. unfold Heap.callClaude, callClaude.
  destruct (convert_messages_builds h0 Heap.contentForClaude contentForClaude
              v messages (contentForClaude_builds h0) Hrep s Hk)
    as (mapped & new & Hrun & Hden).
  eapply agrees_step.
  { rewrite (bind_eq _ _ _ _ _ Hrun), bind_alloc. reflexivity. }
  { reflexivity. }
  eapply (post_json_agrees Heap.any).
  - rewrite !store_extend. apply den_obj. eexists _, _. repeat split.
    + apply lookup_new.
    + cbn [den_props defined]. repeat split.
      * eapply den_defined, Hden.
      * eapply den_mono; [|apply agree_app|exact Hden]. intros l _. exact I.
  - intros r. unfold agrees. destruct (ok r); [|split; reflexivity].
    destruct (json r); split; reflexivity.
Qed.

(** A cell of a store that has grown since it was made. *)
Ltac late_cell :=
  first [ apply lookup_new | apply lookup_app_l_Some; late_cell ].

(** [agree F h h'] where [h'] is [h] with more cells behind it. *)
Ltac grown :=
  first [ apply agree_app | eapply agree_trans; [|apply agree_app]; grown ].

Lemma callResponsesAPIWithSearch_agrees h0 env up provider apiKey model
    systemPrompt v messages s :
  rep_messages h0 v messages -> keeps h0 (store s) ->
  agrees (Heap.callResponsesAPIWithSearch env up provider apiKey model
            systemPrompt v)
         (callResponsesAPIWithSearch env up provider apiKey model
            systemPrompt messages) s.
Proof.
  intros Hrep Hk. unfold Heap.callResponsesAPIWithSearch, callResponsesAPIWithSearch.
  destruct (responses_url env provider) as [u|]; [|split; reflexivity].
  destruct (request_messages_builds h0 Heap.toTextContent
              (fun c => JStr (toTextContent c)) systemPrompt v messages
              (toTextContent_builds h0) Hrep s Hk)
    as (input & new & Hrun & Hden).
  eapply agrees_step.
  { rewrite (bind_eq _ _ _ _ _ Hrun). do 3 rewrite bind_alloc. reflexivity. }
  { reflexivity. }
  eapply (post_json_agrees Heap.any).
  - rewrite !store_extend. apply den_obj. eexists _, _. repeat split.
    + late_cell.
    + cbn [den_props defined]. repeat split.
      * eapply den_defined, Hden.
      * eapply den_mono; [| |exact Hden]; [intros l _; exact I|grown].
      * apply den_arr. eexists _, _. repeat split; [late_cell|].
        cbn [den_items]. split; [|exact I].
        apply den_obj. eexists _, _. repeat split; [late_cell|].
        cbn. repeat split.
  - intros r. unfold agrees. destruct (ok r); [|split; reflexivity].
    destruct (json r); split; reflexivity.
Qed.

(** ** Updates in place *)

Lemma bind_assoc {A B C} (m : Heap.M A) (f : A -> Heap.M B) (k : B -> Heap.M C) s :
  Heap.bind (Heap.bind m f) k s = Heap.bind m (fun x => Heap.bind (f x) k) s.
Proof. unfold Heap.bind. destruct (m s) as [[e|a] s']; reflexivity. Qed.

Lemma set_eq s l props key x :
  store s !! l = Some (Obj props) ->
  Heap.set (VRef l) key x s = (inr tt, put s l (Obj (props ++ [(key, x)]))).
Proof. intros H. cbn. rewrite H. reflexivity. Qed.

Lemma push_eq s l vs x :
  store s !! l = Some (Arr vs) ->
  push (VRef l) x s = (inr tt, put s l (Arr (vs ++ [x]))).
Proof. intros H. cbn. rewrite H. reflexivity. Qed.

Lemma bind_set {B} s l props key x (k : unit -> Heap.M B) :
  store s !! l = Some (Obj props) ->
  Heap.bind (Heap.set (VRef l) key x) k s
  = k tt (put s l (Obj (props ++ [(key, x)]))).
Proof. intros H. apply bind_eq, set_eq, H. Qed.

Lemma bind_push {B} s l vs x (k : unit -> Heap.M B) :
  store s !! l = Some (Arr vs) ->
  Heap.bind (push (VRef l) x) k s = k tt (put s l (Arr (vs ++ [x]))).
Proof. intros H. apply bind_eq, push_eq, H. Qed.

(** The cells a denotation goes through are cells of the store. *)
Lemma den_bounded F h j :
  forall v, den F h j v -> den (fun l => F l /\ (l < length h)%nat) h j v.
Proof.
  induction j as [j IH] using Json_size_ind. intros v Hden.
  destruct j as [| b | n | s | js | ps]; try exact Hden.
  - apply den_arr in Hden. destruct Hden as (l & vs & -> & Hl & Hcell & Hall).
    apply den_arr. exists l, vs. repeat split; auto.
    + eapply lookup_lt_Some, Hcell.
    + eapply den_items_impl; [|exact Hall].
      intros j x Hin. apply IH. apply size_item, Hin.
  - apply den_obj in Hden. destruct Hden as (l & props & -> & Hl & Hcell & Hall).
    apply den_obj. exists l, props. repeat split; auto.
    + eapply lookup_lt_Some, Hcell.
    + eapply den_props_impl; [|exact Hall].
      intros k j x Hin. apply IH. eapply size_prop, Hin.
Qed.

(** A value made before the cell [l] keeps its denotation when [l] is
    updated. *)
Lemma den_before F h j v new l c :
  den F h j v -> (length h <= l)%nat ->
  den Heap.any (<[l := c]> (h ++ new)) j v.
Proof.
  intros Hden Hl. apply den_bounded in Hden.
  eapply den_mono; [| |exact Hden]; [intros l0 _; exact I|].
  eapply agree_trans; [apply agree_app|].
  apply agree_insert. intros [_ Hlt]. lia.
Qed.

Lemma thinking_field_if (b : bool) t :
  (if b then thinking_field t else []) = thinking_field (if b then t else None).
Proof. destruct b; reflexivity. Qed.

Lemma callOpenAICompatible_agrees h0 env up provider apiKey model systemPrompt
    v messages thinking s :
  rep_messages h0 v messages -> keeps h0 (store s) ->
  agrees (Heap.callOpenAICompatible env up provider apiKey model systemPrompt
            v thinking)
         (callOpenAICompatible env up provider apiKey model systemPrompt
            messages thinking) s.
Proof.
  intros Hrep Hk. unfold Heap.callOpenAICompatible, callOpenAICompatible.
  destruct (chat_url env provider) as [u|]; [|split; reflexivity].
  destruct (request_messages_builds h0 Heap.toOpenAIContent toOpenAIContent
              systemPrompt v messages (toOpenAIContent_builds h0) Hrep s Hk)
    as (msgs & new & Hrun & Hden).
  unfold chat_payload. rewrite thinking_field_if.
  destruct (if String.eqb provider "moonshot" then thinking else None)
    as [mode|].
  - unfold agrees.
    rewrite (bind_eq _ _ _ _ _ Hrun), bind_alloc.
    cbv beta iota. unfold thinking_object.
    rewrite bind_assoc, bind_alloc.
    erewrite bind_set by (rewrite !store_extend; late_cell).
    eapply (post_json_run Heap.any); [reflexivity| |].
    + cbn [put store]. rewrite !store_extend.
      apply den_obj. eexists _, _. repeat split.
      * apply list_lookup_insert_eq. rewrite !length_app. cbn [length]. lia.
      * cbn [app den_props defined thinking_field]. repeat split.
        -- eapply den_defined, Hden.
        -- rewrite <- (app_assoc (store s ++ new)).
           eapply den_before; [exact Hden|lia].
        -- apply den_obj. eexists _, _. repeat split.
           ++ rewrite list_lookup_insert_ne by (rewrite !length_app; cbn [length]; lia).
              late_cell.
           ++ cbn. repeat split.
    + intros r. unfold agrees. destruct (ok r); [|split; reflexivity].
      destruct (json r); split; reflexivity.
  - eapply agrees_step.
    { rewrite (bind_eq _ _ _ _ _ Hrun), bind_alloc. cbv beta iota.
      rewrite bind_ret. reflexivity. }
    { reflexivity. }
    eapply (post_json_agrees Heap.any).
    + rewrite !store_extend. apply den_obj. eexists _, _. repeat split; [late_cell|].
      cbn [app den_props defined thinking_field]. repeat split.
      * eapply den_defined, Hden.
      * eapply den_mono; [| |exact Hden]; [intros l _; exact I|grown].
    + intros r. unfold agrees. destruct (ok r); [|split; reflexivity].
      destruct (json r); split; reflexivity.
Qed.

(** ** The tool-call loop *)

Lemma put_put s l c c' : put (put s l c) l c' = put s l c'.
Proof. unfold put. cbn. rewrite list_insert_insert_eq. reflexivity. Qed.

Lemma put_same s l c : store s !! l = Some c -> put s l c = s.
Proof.
  intros H. destruct s as [h lg]. unfold put. cbn [store log] in *.
  rewrite list_insert_id by exact H. reflexivity.
Qed.

Lemma lookup_put s l c : (l < length (store s))%nat -> store (put s l c) !! l = Some c.
Proof. intros H. apply list_lookup_insert_eq, H. Qed.

Lemma forEach_record_query l_q calls :
  forall s qs,
    store s !! l_q = Some (Arr (map VStr qs)) ->
    forEach (record_query (VRef l_q)) calls s
    = (inr tt, put s l_q (Arr (map VStr (qs ++ map tc_arguments calls)))).
Proof.
  induction calls as [|tc calls IH]; intros s qs Hq.
  - cbn [forEach map]. rewrite app_nil_r, (put_same _ _ _ Hq). reflexivity.
  - cbn [forEach map]. unfold record_query at 1.
    rewrite (bind_push s l_q _ _ _ Hq).
    rewrite (IH _ (qs ++ [tc_arguments tc])).
    + rewrite put_put, <- app_assoc. reflexivity.
    + rewrite map_app. apply lookup_put. eapply lookup_lt_Some, Hq.
Qed.

Lemma forEach_acknowledge l_api calls :
  forall s vs,
    store s !! l_api = Some (Arr vs) ->
    exists s' acks,
      forEach (acknowledge (VRef l_api)) calls s = (inr tt, s') /\
      log s' = log s /\
      store s' !! l_api = Some (Arr (vs ++ acks)) /\
      agree (fun l => l <> l_api) (store s) (store s') /\
      den_items (since (length (store s))) (store s')
        (map tool_result_message calls) acks.
Proof.
  induction calls as [|tc calls IH]; intros s vs Hapi.
  - exists s, []. rewrite app_nil_r. repeat split; try assumption.
    intros l c _ H. exact H.
  - pose proof (lookup_lt_Some _ _ _ Hapi) as Hlt.
    set (n := length (store s)) in *.
    set (s1 := put (extend s [ack_cell tc]) l_api (Arr (vs ++ [VRef n]))).
    assert (agree (fun l => l <> l_api) (store s) (store s1)) as Hag1.
    { eapply agree_trans; [apply agree_app|]. apply agree_insert. tauto. }
    destruct (IH s1 (vs ++ [VRef n])) as (s' & acks & Hrun & Hlog & Hl & Hag & Hden).
    { apply lookup_put. cbn [extend store]. rewrite length_app. lia. }
    exists s', (VRef n :: acks). repeat split.
    + cbn [forEach]. unfold acknowledge at 1.
      rewrite bind_assoc, bind_alloc.
      erewrite bind_push by (rewrite store_extend; apply lookup_app_l_Some, Hapi).
      exact Hrun.
    + exact Hlog.
    + rewrite <- app_assoc in Hl. exact Hl.
    + eapply agree_trans; [exact Hag1|exact Hag].
    + apply den_obj. eexists n, _. repeat split.
      * unfold since. apply Nat.le_refl.
      * apply Hag; [lia|]. unfold s1. cbn [put extend store].
        rewrite list_lookup_insert_ne by lia. apply lookup_new.
      * cbn. repeat split.
    + eapply den_items_mono; [| |exact Hden].
      * intros l. apply since_le. unfold s1. cbn [put extend store].
        rewrite length_insert, length_app. fold n. lia.
      * intros l c _ H. exact H.
Qed.

Lemma alloc_tool_call_builds h0 tc :
  builds h0 (alloc_tool_call tc) (tool_call_json tc).
Proof.
  intros s _. unfold alloc_tool_call. rewrite bind_alloc, alloc_eq, extend_extend.
  eexists _, _. split; [reflexivity|].
  rewrite !store_extend. apply den_obj. eexists _, _. repeat split.
  - unfold since. rewrite length_app. lia.
  - rewrite app_assoc. apply lookup_new.
  - cbn [den_props defined]. repeat split.
    apply den_obj. eexists _, _. repeat split.
    + unfold since. apply Nat.le_refl.
    + new_cell.
    + cbn. repeat split.
Qed.

Lemma alloc_tool_calls_builds h0 calls :
  builds h0 (alloc_tool_calls calls) (JArr (map tool_call_json calls)).
Proof.
  apply (array_builds h0 alloc_tool_call tool_call_json eq calls calls).
  - intros tc ? <-. apply alloc_tool_call_builds.
  - clear. induction calls; constructor; auto.
Qed.

Lemma loop_return_eq choice tin tout l_q qs s :
  store s !! l_q = Some (Arr (map VStr qs)) ->
  loop_return choice tin tout (VRef l_q) s
  = (inr (loop_result choice tin tout qs), s).
Proof.
  intros Hq. unfold loop_return. rewrite (bind_elements s l_q _ _ Hq).
  unfold Heap.ret. rewrite map_map. cbn [show]. rewrite map_id. reflexivity.
Qed.

Lemma thinking_extra thinking s :
  exists extra new,
    match thinking with
    | Some mode =>
        Heap.bind (thinking_object mode) (fun t => Heap.ret [("thinking", t)])
    | None => Heap.ret []
    end s = (inr extra, extend s new) /\
    den_props (since (length (store s))) (store s ++ new)
      (thinking_field thinking) extra.
Proof.
  destruct thinking as [mode|].
  - eexists _, _. split.
    + unfold thinking_object. rewrite bind_alloc. reflexivity.
    + cbn [thinking_field den_props defined]. repeat split.
      apply den_obj. eexists _, _. repeat split.
      * unfold since. apply Nat.le_refl.
      * apply lookup_new.
      * cbn. repeat split.
  - exists [], []. rewrite extend_nil. split; [reflexivity|exact I].
Qed.

Lemma den_props_mono (F F' : loc -> Prop) h h' ps props :
  (forall l, F l -> F' l) -> agree F h h' ->
  den_props F h ps props -> den_props F' h' ps props.
Proof.
  intros HF Hagree. apply den_props_impl. intros k j x _.
  apply den_mono; assumption.
Qed.

Lemma den_props_app F h ps1 ps2 props1 props2 :
  den_props F h ps1 props1 -> den_props F h ps2 props2 ->
  den_props F h (ps1 ++ ps2) (props1 ++ props2).
Proof.
  revert props1. induction ps1 as [|[k j] ps1 IH]; intros [|[k' x] props1];
    cbn; try tauto.
  intros (Hk & Hd & Hx & Hall) H2. repeat split; try assumption.
  apply IH; assumption.
Qed.

(** A cell that was in the store before it grew. *)
Ltac old_cell H :=
  first [ exact H | apply lookup_app_l_Some; old_cell H ].

Lemma agree_weaken (F F' : loc -> Prop) h h' :
  (forall l, F l -> F' l) -> agree F' h h' -> agree F h h'.
Proof. intros HF H l c Hl. apply H, HF, Hl. Qed.

Lemma den_nullable F h s : den F h (nullable_string s) (nullable s).
Proof. destruct s; reflexivity. Qed.

Lemma defined_nullable s : defined (nullable s) = true.
Proof. destruct s; reflexivity. Qed.

(** What one round does to the store after a tool-call response: the loop's
    variables hold the next round's values. *)
Lemma round_updates tools l_api l_q choice calls s msgs qs :
  loop_inv (store s) tools l_api l_q msgs qs ->
  exists s',
    (forall A (k : Heap.M A),
       Heap.bind (forEach (record_query (VRef l_q)) calls) (fun _ =>
       Heap.bind (alloc_tool_calls calls) (fun echoed =>
       Heap.bind (alloc (Obj [("role", VStr "assistant");
                              ("content", nullable (msg_content (message choice)));
                              ("tool_calls", echoed)])) (fun turn =>
       Heap.bind (push (VRef l_api) turn) (fun _ =>
       Heap.bind (forEach (acknowledge (VRef l_api)) calls) (fun _ => k))))) s
       = k s') /\
    log s' = log s /\
    loop_inv (store s') tools l_api l_q
      (msgs ++ [assistant_tool_message choice calls]
            ++ map tool_result_message calls)
      (qs ++ map tc_arguments calls).
Proof.
  intros (Hne & Htools & Hq & vs & Hapi & Hmsgs).
  pose proof (lookup_lt_Some _ _ _ Hq) as Hlq.
  pose proof (lookup_lt_Some _ _ _ Hapi) as Hla.
  set (G := outside l_api l_q) in *.
  set (s3 := put s l_q (Arr (map VStr (qs ++ map tc_arguments calls)))).
  assert (length (store s3) = length (store s)) as Hlen3
    by apply length_insert.
  assert (agree G (store s) (store s3)) as Hag3.
  { apply agree_insert. unfold G, outside. tauto. }
  destruct (alloc_tool_calls_builds [] calls s3) as (echoed & new & Hrun3 & Hden3).
  { intros l c Hl. rewrite lookup_nil in Hl. discriminate. }
  apply den_bounded in Hden3.
  set (lt := length (store s3 ++ new)).
  set (turn := Obj [("role", VStr "assistant");
                    ("content", nullable (msg_content (message choice)));
                    ("tool_calls", echoed)]).
  set (s5 := extend (extend s3 new) [turn]).
  assert (store s5 !! l_api = Some (Arr vs)) as Hapi5.
  { unfold s5. rewrite !store_extend. do 2 apply lookup_app_l_Some.
    unfold s3. cbn [put store]. rewrite list_lookup_insert_ne by auto.
    exact Hapi. }
  set (s6 := put s5 l_api (Arr (vs ++ [VRef lt]))).
  assert (length (store s5) = S lt) as Hlen5.
  { unfold s5, lt. rewrite !store_extend, !length_app. cbn [length]. lia. }
  assert (length (store s) <= lt)%nat as Hlt.
  { unfold lt. rewrite length_app. lia. }
  destruct (forEach_acknowledge l_api calls s6 (vs ++ [VRef lt]))
    as (s7 & acks & Hrun7 & Hlog7 & Hl7 & Hag7 & Hden7).
  { apply lookup_put. lia. }
  assert (agree (fun l => l <> l_api) (store s3 ++ new) (store s7)) as Hag47.
  { eapply agree_trans; [|exact Hag7].
    unfold s6, s5. cbn [put store]. rewrite !store_extend.
    eapply agree_trans; [apply agree_app|]. apply agree_insert. tauto. }
  assert (agree G (store s) (store s7)) as Hag.
  { eapply agree_trans; [exact Hag3|].
    eapply agree_trans; [apply agree_app|].
    eapply agree_weaken; [|exact Hag47]. unfold G, outside. tauto. }
  exists s7. split; [|split].
  - intros A k.
    rewrite (bind_eq _ _ _ _ _ (forEach_record_query l_q calls s qs Hq)).
    rewrite (bind_eq _ _ _ _ _ Hrun3), bind_alloc.
    erewrite bind_push by exact Hapi5.
    rewrite (bind_eq _ _ _ _ _ Hrun7). reflexivity.
  - rewrite Hlog7. reflexivity.
  - split; [exact Hne|]. split; [|split].
    + eapply den_mono; [|exact Hag|exact Htools]. auto.
    + apply Hag47; [auto|]. apply lookup_app_l_Some, lookup_put. exact Hlq.
    + exists ((vs ++ [VRef lt]) ++ acks). split; [exact Hl7|].
      rewrite (app_assoc msgs). apply den_items_app; [apply den_items_app|].
      * eapply den_items_mono; [|exact Hag|exact Hmsgs]. auto.
      * cbn [den_items]. split; [|exact I].
        apply den_obj. eexists lt, _. repeat split.
        -- unfold G, outside. lia.
        -- unfold G, outside. lia.
        -- apply Hag7; [lia|]. unfold s6, s5. cbn [put store].
           rewrite list_lookup_insert_ne by lia.
           rewrite !store_extend. apply lookup_new.
        -- cbn [den_props]. repeat split.
           ++ apply defined_nullable.
           ++ apply den_nullable.
           ++ eapply den_defined, Hden3.
           ++ eapply den_mono; [| |exact Hden3].
              ** unfold G, outside. intros l [Hl _]. unfold since in Hl. lia.
              ** eapply agree_weaken; [|exact Hag47].
                 intros l [Hl _]. unfold since in Hl. lia.
      * eapply den_items_mono; [| |exact Hden7].
        -- unfold G, outside, since. intros l Hl. unfold s6 in Hl.
           cbn [put store] in Hl. rewrite length_insert in Hl. lia.
        -- intros l c _ H. exact H.
Qed.

Lemma loop_inv_app h new tools l_api l_q msgs qs :
  loop_inv h tools l_api l_q msgs qs ->
  loop_inv (h ++ new) tools l_api l_q msgs qs.
Proof.
  intros (Hne & Htools & Hq & vs & Hapi & Hmsgs). split; [exact Hne|].
  split; [|split].
  - eapply den_mono; [|apply agree_app|exact Htools]. auto.
  - apply lookup_app_l_Some, Hq.
  - exists vs. split; [apply lookup_app_l_Some, Hapi|].
    eapply den_items_mono; [|apply agree_app|exact Hmsgs]. auto.
Qed.

Lemma tool_rounds_agrees up u apiKey model thinking tools l_api l_q fuel :
  forall s msgs qs tin tout,
    loop_inv (store s) tools l_api l_q msgs qs ->
    agrees (Heap.tool_rounds up u apiKey model thinking tools
              (VRef l_api) (VRef l_q) fuel tin tout)
           (tool_rounds up u apiKey model thinking fuel
              {| apiMessages := msgs; totalInputTokens := tin;
                 totalOutputTokens := tout; searchQueries := qs |}) s.
Proof.
  induction fuel as [|fuel IH];
    intros s msgs qs tin tout (Hne & Htools & Hq & vs & Hapi & Hmsgs).
  - split; reflexivity.
  - cbn [Heap.tool_rounds tool_rounds apiMessages totalInputTokens
         totalOutputTokens searchQueries].
    unfold agrees.
    destruct (thinking_extra thinking s) as (extra & new & Hrun & Hextra).
    rewrite (bind_eq _ _ _ _ _ Hrun), bind_alloc.
    unfold tool_request.
    eapply (post_json_run Heap.any); [reflexivity| |].
    + rewrite !store_extend. apply den_obj. eexists _, _.
      repeat split; [late_cell|].
      apply den_props_app.
      * cbn [den_props defined]. repeat split.
        -- apply den_arr. exists l_api, vs. repeat split; [old_cell Hapi|].
           eapply den_items_mono; [| |exact Hmsgs]; [intros l _; exact I|grown].
        -- eapply den_defined, Htools.
        -- eapply den_mono; [| |exact Htools]; [intros l _; exact I|grown].
      * eapply den_props_mono; [| |exact Hextra]; [intros l _; exact I|grown].
    + intros r.
      match goal with
      | |- agrees _ _ ?s2 =>
          assert (loop_inv (store s2) tools l_api l_q msgs qs) as Hinv
            by (cbn [sent store]; rewrite !store_extend;
                do 2 apply loop_inv_app; repeat split; eauto);
          generalize Hinv; generalize s2
      end.
      clear - IH. intros s2 Hinv. unfold agrees.
      destruct (ok r); [|split; reflexivity]. cbn [negb].
      destruct (json r) as [d|data|d|d| |]; try (split; reflexivity).
      destruct (head (choices data)) as [choice|]; [|split; reflexivity].
      assert (store s2 !! l_q = Some (Arr (map VStr qs))) as Hq2
        by apply Hinv.
      destruct (String.eqb (finish_reason choice) "stop").
      * rewrite (loop_return_eq _ _ _ _ _ _ Hq2). split; reflexivity.
      * destruct (pending_calls choice) as [calls|].
        -- destruct (round_updates tools l_api l_q choice calls s2 msgs qs Hinv)
             as (s' & Hrun' & Hlog' & Hinv').
           rewrite Hrun', <- Hlog'. apply IH, Hinv'.
        -- rewrite (loop_return_eq _ _ _ _ _ _ Hq2). split; reflexivity.
Qed.

(** A value does not contain the cell it is stored in: the cells under
    [l] denote smaller JSON values than [l] does. *)
Lemma den_strict F h J l :
  den F h J (VRef l) ->
  forall j x, (size j < size J)%nat -> den F h j x ->
    den (fun l' => F l' /\ l' <> l) h j x.
Proof.
  intros Hroot. induction j as [j IH] using Json_size_ind. intros x Hlt Hden.
  destruct j as [| b | n | s | js | ps]; try exact Hden.
  - pose proof Hden as Hden0.
    apply den_arr in Hden. destruct Hden as (l' & vs & -> & Hl & Hcell & Hall).
    apply den_arr. exists l', vs. repeat split; auto.
    + intros ->. rewrite (den_fun F h _ _ _ Hden0 Hroot) in Hlt. lia.
    + eapply den_items_impl; [|exact Hall].
      intros j x Hin. pose proof (size_item _ _ Hin).
      apply IH; [assumption|lia].
  - pose proof Hden as Hden0.
    apply den_obj in Hden. destruct Hden as (l' & props & -> & Hl & Hcell & Hall).
    apply den_obj. exists l', props. repeat split; auto.
    + intros ->. rewrite (den_fun F h _ _ _ Hden0 Hroot) in Hlt. lia.
    + eapply den_props_impl; [|exact Hall].
      intros k j x Hin. pose proof (size_prop _ _ _ Hin).
      apply IH; [assumption|lia].
Qed.

Lemma den_items_strict (F : loc -> Prop) h js l vs :
  F l -> h !! l = Some (Arr vs) -> den_items F h js vs ->
  den_items (fun l' => F l' /\ l' <> l) h js vs.
Proof.
  intros HF Hl Hall.
  assert (den F h (JArr js) (VRef l)) as Hroot.
  { apply den_arr. exists l, vs. repeat split; assumption. }
  eapply den_items_impl; [|exact Hall].
  intros j x Hin Hx. eapply den_strict; [exact Hroot|apply size_item, Hin|exact Hx].
Qed.

Lemma callMoonshotWithSearch_agrees h0 up apiKey model systemPrompt v messages
    thinking s :
  rep_messages h0 v messages -> keeps h0 (store s) ->
  agrees (Heap.callMoonshotWithSearch up apiKey model systemPrompt v thinking)
         (callMoonshotWithSearch up apiKey model systemPrompt messages thinking)
         s.
Proof.
  intros Hrep Hk. unfold Heap.callMoonshotWithSearch, callMoonshotWithSearch.
  destruct (non_empty (OPENAI_COMPATIBLE_ENDPOINTS !! "moonshot")) as [u|];
    [|split; reflexivity].
  set (f := Obj [("name", VStr "$web_search")]).
  set (tool := Obj [("type", VStr "builtin_function");
                    ("function", VRef (length (store s)))]).
  set (tools := Arr [VRef (length (store (extend s [f])))]).
  set (s3 := extend (extend (extend s [f]) [tool]) [tools]).
  destruct (request_messages_builds h0 Heap.toOpenAIContent toOpenAIContent
              systemPrompt v messages (toOpenAIContent_builds h0) Hrep s3)
    as (api & new & Hrun & Hden).
  { unfold s3. rewrite !store_extend. do 3 apply keeps_app. exact Hk. }
  apply den_bounded in Hden. apply den_arr in Hden.
  destruct Hden as (l_api & vs & -> & [Hge Hlt] & Hapi & Hitems).
  apply (den_items_strict _ _ _ l_api vs (conj Hge Hlt) Hapi) in Hitems.
  unfold since in Hge.
  assert (length (store s3) = length (store s) + 3)%nat as Hlen3.
  { unfold s3. rewrite !store_extend, !length_app. cbn [length]. lia. }
  eapply agrees_step.
  { do 3 rewrite bind_alloc. fold s3.
    rewrite (bind_eq _ _ _ _ _ Hrun), bind_alloc. reflexivity. }
  { reflexivity. }
  apply tool_rounds_agrees. rewrite !store_extend.
  set (l_q := length (store s3 ++ new)) in *.
  assert (forall l, (l < length (store s3))%nat -> outside l_api l_q l) as Hout.
  { intros l Hl. unfold outside. lia. }
  split; [lia|]. split; [|split].
  - apply den_arr. eexists _, _. repeat split.
    + apply Hout. rewrite Hlen3, ?store_extend, ?length_app. cbn [length]. lia.
    + apply Hout. rewrite Hlen3, ?store_extend, ?length_app. cbn [length]. lia.
    + unfold s3. rewrite !store_extend. do 2 apply lookup_app_l_Some. late_cell.
    + cbn [den_items]. split; [|exact I].
      apply den_obj. eexists _, _. repeat split.
      * apply Hout. rewrite Hlen3, ?store_extend, ?length_app. cbn [length]. lia.
      * apply Hout. rewrite Hlen3, ?store_extend, ?length_app. cbn [length]. lia.
      * unfold s3. rewrite !store_extend. do 2 apply lookup_app_l_Some. late_cell.
      * cbn [den_props defined]. repeat split.
        apply den_obj. eexists _, _. repeat split.
        -- apply Hout. rewrite Hlen3. lia.
        -- apply Hout. rewrite Hlen3. lia.
        -- unfold s3. rewrite !store_extend. do 2 apply lookup_app_l_Some. late_cell.
        -- cbn. repeat split.
  - apply lookup_new.
  - exists vs. split; [apply lookup_app_l_Some, Hapi|].
    eapply den_items_mono; [|apply agree_app|exact Hitems].
    intros l [[_ Hl] Hnl]. unfold outside. lia.
Qed.

(** ** The facade *)

Lemma some_reads {A X} (p : A -> Heap.M bool) (g : X -> bool)
    (R : A -> X -> Prop) s :
  (forall v x, R v x -> p v s = (inr (g x), s)) ->
  forall vs xs, Forall2 R vs xs -> Heap.some p vs s = (inr (existsb g xs), s).
Proof.
  intros Hp vs xs Hall. induction Hall as [|v x vs xs Hvx Hall IH].
  - reflexivity.
  - cbn [Heap.some existsb]. rewrite (bind_eq _ _ _ _ _ (Hp v x Hvx)).
    destruct (g x); [reflexivity|exact IH].
Qed.

Lemma part_is_image_eq h0 v part s :
  keeps h0 (store s) -> rep_part h0 v part ->
  part_is_image v s = (inr (is_image part), s).
Proof.
  intros Hk Hrep.
  destruct (rep_part_get h0 s v part Hk Hrep) as (lp & -> & Hlp).
  unfold part_is_image.
  destruct part; cbn [part_cell] in Hlp;
    rewrite (bind_get s lp _ "type" _ Hlp); reflexivity.
Qed.

Lemma message_has_image_eq h0 v m s :
  keeps h0 (store s) -> rep_message h0 v m ->
  message_has_image v s = (inr (content_has_image (content m)), s).
Proof.
  intros Hk Hrep.
  destruct (rep_message_get h0 s v m Hk Hrep) as (l & cv & -> & Hl & Hc).
  unfold message_has_image. rewrite (bind_get s l _ "content" _ Hl). look.
  destruct (content m) as [str|parts]; cbn [rep_content] in Hc.
  - subst cv. reflexivity.
  - destruct Hc as (lc & vs & -> & Hlc & Hparts). apply Hk in Hlc.
    rewrite (bind_eq _ _ _ _ _ (isArray_eq s lc vs Hlc)).
    rewrite (bind_elements s lc vs _ Hlc).
    apply (some_reads part_is_image is_image (rep_part h0) s); [|exact Hparts].
    intros p x Hpx. apply (part_is_image_eq h0); assumption.
Qed.

Lemma hasImage_eq h0 v messages s :
  keeps h0 (store s) -> rep_messages h0 v messages ->
  Heap.hasImage v s = (inr (hasImage messages), s).
Proof.
  intros Hk (l & vs & -> & Hl & Hall). unfold Heap.hasImage.
  rewrite (bind_elements s l vs _ (Hk _ _ Hl)).
  apply (some_reads message_has_image (fun m => content_has_image (content m))
           (rep_message h0) s); [|exact Hall].
  intros x m Hxm. apply (message_has_image_eq h0); assumption.
Qed.

Lemma allowWebSearch_eq h0 options v messages s :
  keeps h0 (store s) -> rep_messages h0 v messages ->
  Heap.allowWebSearch options v s = (inr (allowWebSearch options messages), s).
Proof.
  intros Hk Hrep. unfold Heap.allowWebSearch, allowWebSearch.
  destruct (options ≫= webSearch) as [[|]|]; try reflexivity.
  rewrite (bind_eq _ _ _ _ _ (hasImage_eq h0 v messages s Hk Hrep)).
  reflexivity.
Qed.

(** Run on a store that holds the conversation, the store-level facade
    returns what the value-level facade returns and sends the same
    requests. *)
Lemma generateResponse_agrees h0 env up provider apiKey model systemPrompt
    v messages options s :
  rep_messages h0 v messages -> keeps h0 (store s) ->
  agrees (Heap.generateResponse env up provider apiKey model systemPrompt
            v options)
         (generateResponse env up provider apiKey model systemPrompt
            messages options) s.
Proof.
  intros Hrep Hk. unfold Heap.generateResponse, generateResponse.
  eapply agrees_step;
    [apply bind_eq, (allowWebSearch_eq h0 options v messages s Hk Hrep)
    |reflexivity|].
  cbv zeta.
  destruct (String.eqb provider "claude");
    [apply (callClaude_agrees h0); assumption|].
  destruct (String.eqb provider "moonshot").
  { destruct (truthy (allowWebSearch options messages)).
    - apply (callMoonshotWithSearch_agrees h0); assumption.
    - apply (callOpenAICompatible_agrees h0); assumption. }
  destruct (String.eqb provider "grok").
  { destruct (truthy (allowWebSearch options messages)).
    - apply (callResponsesAPIWithSearch_agrees h0); assumption.
    - apply (callOpenAICompatible_agrees h0); assumption. }
  destruct (String.eqb provider "openai").
  { destruct (truthy (allowWebSearch options messages)).
    - apply (callResponsesAPIWithSearch_agrees h0); assumption.
    - apply (callOpenAICompatible_agrees h0); assumption. }
  split; reflexivity.
Qed.

(** ** The caller's store *)

Lemma rep_part_keeps h0 h v part :
  keeps h0 h -> rep_part h0 v part -> rep_part h v part.
Proof. intros Hk (l & -> & Hl). exists l. split; [reflexivity|apply Hk, Hl]. Qed.

Lemma rep_content_keeps h0 h v c :
  keeps h0 h -> rep_content h0 v c -> rep_content h v c.
Proof.
  intros Hk. destruct c as [str|parts]; cbn [rep_content]; [tauto|].
  intros (l & vs & -> & Hl & Hall). exists l, vs.
  split; [reflexivity|]. split; [apply Hk, Hl|].
  eapply Forall2_impl; [exact Hall|].
  intros x p. apply rep_part_keeps, Hk.
Qed.

Lemma rep_message_keeps h0 h v m :
  keeps h0 h -> rep_message h0 v m -> rep_message h v m.
Proof.
  intros Hk (l & cv & -> & Hl & Hc). exists l, cv.
  split; [reflexivity|]. split; [apply Hk, Hl|].
  eapply rep_content_keeps; [exact Hk|exact Hc].
Qed.

Lemma traverse_allocs {A} (f : A -> Heap.M value)
    (R : list cell -> value -> A -> Prop) :
  (forall h h' v a, keeps h h' -> R h v a -> R h' v a) ->
  (forall a s, exists v new,
      f a s = (inr v, extend s new) /\ R (store s ++ new) v a) ->
  forall xs s, exists vs new,
    traverse f xs s = (inr vs, extend s new) /\
    Forall2 (R (store s ++ new)) vs xs.
Proof.
  intros Hmono Hf. induction xs as [|a xs IH]; intros s.
  - exists [], []. rewrite extend_nil. split; [reflexivity|constructor].
  - destruct (Hf a s) as (v & new1 & Hrun1 & Hv).
    destruct (IH (extend s new1)) as (vs & new2 & Hrun2 & Hvs).
    exists (v :: vs), (new1 ++ new2). split.
    + cbn [traverse]. rewrite (bind_eq _ _ _ _ _ Hrun1).
      rewrite (bind_eq _ _ _ _ _ Hrun2), extend_extend. reflexivity.
    + rewrite store_extend in Hvs. rewrite app_assoc. constructor.
      * eapply Hmono; [|exact Hv]. apply keeps_app, keeps_refl.
      * exact Hvs.
Qed.

Lemma alloc_part_rep part s :
  exists v new,
    Heap.alloc_part part s = (inr v, extend s new) /\
    rep_part (store s ++ new) v part.
Proof.
  exists (VRef (length (store s))), [part_cell part]. split.
  - destruct part; reflexivity.
  - exists (length (store s)). split; [reflexivity|apply lookup_new].
Qed.

Lemma alloc_content_rep c s :
  exists v new,
    Heap.alloc_content c s = (inr v, extend s new) /\
    rep_content (store s ++ new) v c.
Proof.
  destruct c as [str|parts].
  - exists (VStr str), []. rewrite extend_nil. split; reflexivity.
  - destruct (traverse_allocs Heap.alloc_part rep_part rep_part_keeps
                alloc_part_rep parts s) as (vs & new & Hrun & Hall).
    exists (VRef (length (store s ++ new))), (new ++ [Arr vs]). split.
    + cbn [Heap.alloc_content]. rewrite (bind_eq _ _ _ _ _ Hrun), alloc_eq.
      rewrite extend_extend. reflexivity.
    + rewrite app_assoc. eexists _, vs.
      split; [reflexivity|]. split; [apply lookup_new|].
      eapply Forall2_impl; [exact Hall|].
      intros x p. apply rep_part_keeps, keeps_app, keeps_refl.
Qed.

Lemma alloc_message_rep m s :
  exists v new,
    Heap.alloc_message m s = (inr v, extend s new) /\
    rep_message (store s ++ new) v m.
Proof.
  destruct (alloc_content_rep (content m) s) as (cv & new & Hrun & Hc).
  eexists _, _. split.
  - unfold Heap.alloc_message. rewrite (bind_eq _ _ _ _ _ Hrun), alloc_eq.
    rewrite extend_extend. reflexivity.
  - rewrite app_assoc. eexists _, cv.
    split; [reflexivity|]. split; [apply lookup_new|].
    eapply rep_content_keeps; [|exact Hc]. apply keeps_app, keeps_refl.
Qed.

Lemma alloc_conversation_rep messages s :
  exists v new,
    Heap.alloc_conversation messages s = (inr v, extend s new) /\
    rep_messages (store s ++ new) v messages.
Proof.
  destruct (traverse_allocs Heap.alloc_message rep_message rep_message_keeps
              alloc_message_rep messages s) as (vs & new & Hrun & Hall).
  eexists _, _. split.
  - unfold Heap.alloc_conversation. rewrite (bind_eq _ _ _ _ _ Hrun), alloc_eq.
    rewrite extend_extend. reflexivity.
  - rewrite app_assoc. eexists _, vs.
    split; [reflexivity|]. split; [apply lookup_new|].
    eapply Forall2_impl; [exact Hall|].
    intros x m. apply rep_message_keeps, keeps_app, keeps_refl.
Qed.

(** X19. Called with the conversation as the caller built it, the store-level
    facade and the value-level facade return the same result and send the
    same requests. *)
Theorem store_run_agrees env up provider apiKey model systemPrompt messages
    options :
  let r := Heap.generateResponse env up provider apiKey model systemPrompt
             (HeapScenario.conversation messages) options
             (HeapScenario.caller messages) in
  fst r = fst (run (generateResponse env up provider apiKey model systemPrompt
                      messages options)) /\
  log (snd r) = snd (run (generateResponse env up provider apiKey model
                            systemPrompt messages options)).
Proof.
  unfold HeapScenario.conversation, HeapScenario.caller.
  destruct (alloc_conversation_rep messages HeapScenario.empty)
    as (v & new & Hrun & Hrep).
  rewrite Hrun. cbn [fst snd]. cbv zeta.
  apply (generateResponse_agrees (store (extend HeapScenario.empty new)));
    [exact Hrep|apply keeps_refl].
Qed.

End Refinement.

(** * More properties of the gateway and of the code around it *)

(** ** Strings *)

Lemma append_cons c s t : String c s +:+ t = String c (s +:+ t).
Proof. reflexivity. Qed.

Lemma append_nil_l t : "" +:+ t = t.
Proof. reflexivity. Qed.

Lemma append_nil_r s : s +:+ "" = s.
Proof. induction s as [|c s IH]; [reflexivity|]. rewrite append_cons, IH. reflexivity. Qed.

Lemma append_assoc s t u : (s +:+ t) +:+ u = s +:+ t +:+ u.
Proof.
  induction s as [|c s IH]; [reflexivity|]. rewrite !append_cons, IH. reflexivity.
Qed.

Lemma drop_trailing_cons p c s :
  drop_trailing p (String c s) =
    match drop_trailing p s with
    | EmptyString => if p c then EmptyString else String c EmptyString
    | kept => String c kept
    end.
Proof. reflexivity. Qed.

Lemma drop_trailing_all p t : all_in p t = true -> drop_trailing p t = "".
Proof.
  induction t as [|c t IH]; [reflexivity|].
  cbn [all_in]. intros [Hc Ht]%andb_prop.
  rewrite drop_trailing_cons, (IH Ht), Hc. reflexivity.
Qed.

Lemma drop_trailing_app_all p s t :
  all_in p t = true -> drop_trailing p (s +:+ t) = drop_trailing p s.
Proof.
  intros Ht. induction s as [|c s IH].
  - rewrite append_nil_l. apply drop_trailing_all, Ht.
  - rewrite append_cons, !drop_trailing_cons, IH. reflexivity.
Qed.

Lemma ends_in_cons p c s :
  ends_in p (String c s) = match s with EmptyString => p c | _ => ends_in p s end.
Proof. destruct s; reflexivity. Qed.

(** A string whose last character [p] rejects is left as it is. *)
Lemma drop_trailing_fixed p s : ends_in p s = false -> drop_trailing p s = s.
Proof.
  induction s as [|c s IH]; [reflexivity|].
  rewrite ends_in_cons, drop_trailing_cons. destruct s as [|c' s].
  - intros Hc. cbn. rewrite Hc. reflexivity.
  - intros Hs. rewrite (IH Hs). reflexivity.
Qed.

Lemma drop_trailing_ends p s : ends_in p (drop_trailing p s) = false.
Proof.
  induction s as [|c s IH]; [reflexivity|].
  rewrite drop_trailing_cons.
  destruct (drop_trailing p s) as [|c' kept] eqn:Hs.
  - destruct (p c) eqn:Hc; [reflexivity|]. cbn. exact Hc.
  - rewrite ends_in_cons. exact IH.
Qed.

Lemma drop_trailing_removed p s :
  exists t, all_in p t = true /\ s = drop_trailing p s +:+ t.
Proof.
  induction s as [|c s (t & Ht & IH)]; [exists ""; split; reflexivity|].
  rewrite drop_trailing_cons.
  destruct (drop_trailing p s) as [|c' kept] eqn:Hs.
  - rewrite append_nil_l in IH. destruct (p c) eqn:Hc.
    + exists (String c t). split; [cbn; rewrite Hc, Ht; reflexivity|].
      rewrite <- IH. reflexivity.
    + exists t. split; [exact Ht|].
      rewrite append_cons, append_nil_l, <- IH. reflexivity.
  - exists t. split; [exact Ht|]. rewrite append_cons, <- IH. reflexivity.
Qed.

Lemma drop_leading_app_all p t s :
  all_in p t = true -> drop_leading p (t +:+ s) = drop_leading p s.
Proof.
  induction t as [|c t IH]; [reflexivity|].
  cbn [all_in]. intros [Hc Ht]%andb_prop.
  rewrite append_cons. cbn [drop_leading]. rewrite Hc. apply IH, Ht.
Qed.

Lemma drop_leading_fixed p s : starts_in p s = false -> drop_leading p s = s.
Proof. destruct s as [|c s]; [reflexivity|]. cbn. intros ->. reflexivity. Qed.

Lemma all_in_slashes n : all_in is_slash (slashes n) = true.
Proof. induction n as [|n IH]; [reflexivity|exact IH]. Qed.

Lemma all_in_is_slash t : all_in is_slash t = true -> exists n, t = slashes n.
Proof.
  induction t as [|c t IH]; [exists O; reflexivity|].
  cbn [all_in]. intros [Hc Ht]%andb_prop. destruct (IH Ht) as (n & ->).
  apply Ascii.eqb_eq in Hc. subst c. exists (S n). reflexivity.
Qed.

(** ** URL helpers *)

(** X1. [normalizeBaseUrl] removes the trailing slashes of its argument and
    nothing else: the result does not end with a slash, the argument is the
    result followed by slashes only, and a string without a trailing slash
    comes back from under any number of slashes. *)
Theorem normalizeBaseUrl_strips (value : string) :
  ends_in is_slash (normalizeBaseUrl value) = false /\
  (exists n, value = normalizeBaseUrl value +:+ slashes n) /\
  (forall b n, ends_in is_slash b = false -> value = b +:+ slashes n ->
               normalizeBaseUrl value = b).
Proof.
  unfold normalizeBaseUrl. split; [apply drop_trailing_ends|]. split.
  - destruct (drop_trailing_removed is_slash value) as (t & Ht & Hvalue).
    destruct (all_in_is_slash t Ht) as (n & ->). exists n. exact Hvalue.
  - intros b n Hb ->. rewrite drop_trailing_app_all by apply all_in_slashes.
    apply drop_trailing_fixed, Hb.
Qed.

Lemma normalizeBaseUrl_strips_witness :
  normalizeBaseUrl "http://localhost:8080/v1//" = "http://localhost:8080/v1".
Proof.
  apply (proj2 (proj2 (normalizeBaseUrl_strips "http://localhost:8080/v1//"))
           "http://localhost:8080/v1" 2%nat); reflexivity.
Defined.

(** X2. [joinUrl] puts exactly one slash between the base and the path,
    however many slashes the base ends with and the path starts with. *)
Theorem joinUrl_one_slash (b p : string) (n m : nat) :
  ends_in is_slash b = false -> starts_in is_slash p = false ->
  joinUrl (b +:+ slashes n) (slashes m +:+ p) = b +:+ "/" +:+ p.
Proof.
  intros Hb Hp. unfold joinUrl, normalizeBaseUrl.
  rewrite drop_trailing_app_all, drop_leading_app_all by apply all_in_slashes.
  rewrite (drop_trailing_fixed _ b Hb), (drop_leading_fixed _ p Hp). reflexivity.
Qed.

Lemma joinUrl_one_slash_witness :
  joinUrl "https://api.openai.com/v1///" "//chat/completions"
  = "https://api.openai.com/v1/chat/completions".
Proof.
  apply (joinUrl_one_slash "https://api.openai.com/v1" "chat/completions" 3 2);
    reflexivity.
Defined.

Lemma trim_empty : trim "" = "".
Proof. reflexivity. Qed.

Lemma getOpenAIBaseUrl_ends env : ends_in is_slash (getOpenAIBaseUrl env) = false.
Proof.
  unfold getOpenAIBaseUrl.
  destruct (env !! "OPENAI_BASE_URL") as [v|]; [|reflexivity].
  destruct (negb (truthy_string v)); [reflexivity|].
  destruct (negb (truthy_string (trim v))); [reflexivity|].
  apply drop_trailing_ends.
Qed.

Lemma joinUrl_base base path :
  ends_in is_slash base = false -> starts_in is_slash path = false ->
  joinUrl base path = base +:+ "/" +:+ path.
Proof.
  intros Hb Hp. unfold joinUrl, normalizeBaseUrl.
  rewrite (drop_trailing_fixed _ base Hb), (drop_leading_fixed _ path Hp).
  reflexivity.
Qed.

(** X3. The base URL for "openai" is "https://api.openai.com/v1" when
    [OPENAI_BASE_URL] is unset, empty or only white space, and otherwise the
    variable without the white space around it and without trailing slashes.
    It never ends with a slash, so the two openai endpoints are the base
    followed by "/chat/completions" and "/responses". *)
Theorem openai_base_url (env : gmap string string) :
  (env !! "OPENAI_BASE_URL" = None ->
   getOpenAIBaseUrl env = "https://api.openai.com/v1") /\
  (forall v, env !! "OPENAI_BASE_URL" = Some v -> trim v = "" ->
             getOpenAIBaseUrl env = "https://api.openai.com/v1") /\
  (forall v, env !! "OPENAI_BASE_URL" = Some v -> trim v <> "" ->
             getOpenAIBaseUrl env = normalizeBaseUrl (trim v)) /\
  ends_in is_slash (getOpenAIBaseUrl env) = false /\
  getOpenAIChatCompletionsUrl env = getOpenAIBaseUrl env +:+ "/chat/completions" /\
  getOpenAIResponsesUrl env = getOpenAIBaseUrl env +:+ "/responses".
Proof.
  repeat apply conj.
  - intros H. unfold getOpenAIBaseUrl. rewrite H. reflexivity.
  - intros v H Hblank. unfold getOpenAIBaseUrl. rewrite H, Hblank.
    destruct (negb (truthy_string v)); reflexivity.
  - intros v H Hfull. unfold getOpenAIBaseUrl. rewrite H.
    destruct v as [|c v]; [contradiction Hfull; reflexivity|].
    destruct (trim (String c v)) as [|c' t]; [contradiction Hfull; reflexivity|].
    reflexivity.
  - apply getOpenAIBaseUrl_ends.
  - apply joinUrl_base; [apply getOpenAIBaseUrl_ends|reflexivity].
  - apply joinUrl_base; [apply getOpenAIBaseUrl_ends|reflexivity].
Qed.

Lemma openai_base_url_witness :
  getOpenAIBaseUrl {[ "OPENAI_BASE_URL" := "  " ]} = "https://api.openai.com/v1" /\
  getOpenAIBaseUrl {[ "OPENAI_BASE_URL" := " http://proxy/v1/ " ]}
  = normalizeBaseUrl (trim " http://proxy/v1/ ").
Proof.
  split.
  - apply (proj1 (proj2 (openai_base_url {[ "OPENAI_BASE_URL" := "  " ]})) "  ");
      reflexivity.
  - apply (proj1 (proj2 (proj2
             (openai_base_url {[ "OPENAI_BASE_URL" := " http://proxy/v1/ " ]})))
             " http://proxy/v1/ "); [reflexivity|discriminate].
Defined.

(** ** Where a call goes and how it fails *)

Lemma route_claude env up apiKey model systemPrompt messages options :
  generateResponse env up "claude" apiKey model systemPrompt messages options
  = callClaude up apiKey model systemPrompt messages.
Proof. reflexivity. Qed.

Lemma route_moonshot env up apiKey model systemPrompt messages options :
  generateResponse env up "moonshot" apiKey model systemPrompt messages options
  = if truthy (allowWebSearch options messages)
    then callMoonshotWithSearch up apiKey model systemPrompt messages
           (options ≫= thinking)
    else callOpenAICompatible env up "moonshot" apiKey model systemPrompt messages
           (options ≫= thinking).
Proof. reflexivity. Qed.

Lemma route_grok env up apiKey model systemPrompt messages options :
  generateResponse env up "grok" apiKey model systemPrompt messages options
  = if truthy (allowWebSearch options messages)
    then callResponsesAPIWithSearch env up "grok" apiKey model systemPrompt messages
    else callOpenAICompatible env up "grok" apiKey model systemPrompt messages
           (options ≫= thinking).
Proof. reflexivity. Qed.

Lemma route_openai env up apiKey model systemPrompt messages options :
  generateResponse env up "openai" apiKey model systemPrompt messages options
  = if truthy (allowWebSearch options messages)
    then callResponsesAPIWithSearch env up "openai" apiKey model systemPrompt
           messages
    else callOpenAICompatible env up "openai" apiKey model systemPrompt messages
           (options ≫= thinking).
Proof. reflexivity. Qed.

Lemma route_unknown env up provider apiKey model systemPrompt messages options :
  ~ In provider known_providers ->
  generateResponse env up provider apiKey model systemPrompt messages options
  = throw (Error ("Unknown AI provider: " +:+ provider)).
Proof.
  intros Hnot. unfold generateResponse.
  destruct (String.eqb_spec provider "claude") as [->|_];
    [contradiction Hnot; cbn; tauto|].
  destruct (String.eqb_spec provider "moonshot") as [->|_];
    [contradiction Hnot; cbn; tauto|].
  destruct (String.eqb_spec provider "grok") as [->|_];
    [contradiction Hnot; cbn; tauto|].
  destruct (String.eqb_spec provider "openai") as [->|_];
    [contradiction Hnot; cbn; tauto|].
  reflexivity.
Qed.

Lemma chat_url_moonshot env :
  chat_url env "moonshot" = Some "https://api.moonshot.ai/v1/chat/completions".
Proof. vm_compute. reflexivity. Qed.

Lemma chat_url_grok env :
  chat_url env "grok" = Some "https://api.x.ai/v1/chat/completions".
Proof. vm_compute. reflexivity. Qed.

Lemma responses_url_grok env :
  responses_url env "grok" = Some "https://api.x.ai/v1/responses".
Proof. vm_compute. reflexivity. Qed.

Lemma known_cases provider :
  In provider known_providers ->
  provider = "claude" \/ provider = "moonshot" \/ provider = "grok"
  \/ provider = "openai".
Proof. cbn. intuition congruence. Qed.

Lemma loop_urls up apiKey model systemPrompt messages thinking :
  let lg := snd (run (callMoonshotWithSearch up apiKey model systemPrompt messages
                        thinking)) in
  lg <> [] /\
  Forall (fun x => url (fst x) = moonshot_url /\ method (fst x) = "POST") lg.
Proof.
  cbv zeta.
  pose proof (callMoonshotWithSearch_trace up apiKey model systemPrompt messages
                thinking) as Htr.
  split.
  - destruct (loop_trace_nonempty _ _ _ _ _ _ _ _ Htr) as (out & rest & Hlg).
    rewrite Hlg. discriminate.
  - apply loop_trace_requests in Htr.
    eapply Forall_impl; [exact Htr|].
    intros x (msgs & Hreq). rewrite Hreq. split; reflexivity.
Qed.

(** X4. A call for one of the four providers sends at least one request, and
    every request of the call is a POST to one endpoint, fixed by the
    provider and by whether web search is allowed: there is no "no endpoint
    configured" failure behind [generateResponse]. A call for any other
    provider sends nothing and throws "Unknown AI provider". *)
Theorem requests_go_to_endpoint
    env up provider apiKey model systemPrompt messages options :
  let out := run (generateResponse env up provider apiKey model systemPrompt
                    messages options) in
  (In provider known_providers ->
   snd out <> [] /\
   Forall (fun x =>
             url (fst x)
             = endpoint env provider (truthy (allowWebSearch options messages)) /\
             method (fst x) = "POST") (snd out)) /\
  (~ In provider known_providers ->
   out = (inl (Error ("Unknown AI provider: " +:+ provider)), [])).
Proof.
  cbv zeta. split.
  - intros Hin. apply known_cases in Hin.
    destruct Hin as [-> | [-> | [-> | ->]]].
    + rewrite route_claude. unfold run. rewrite callClaude_log.
      split; [discriminate|]. repeat constructor.
    + rewrite route_moonshot.
      destruct (truthy (allowWebSearch options messages)).
      * apply loop_urls.
      * unfold run. rewrite callOpenAICompatible_log, chat_url_moonshot.
        split; [discriminate|]. repeat constructor.
    + rewrite route_grok.
      destruct (truthy (allowWebSearch options messages)); unfold run.
      * rewrite callResponsesAPIWithSearch_log, responses_url_grok.
        split; [discriminate|]. repeat constructor.
      * rewrite callOpenAICompatible_log, chat_url_grok.
        split; [discriminate|]. repeat constructor.
    + rewrite route_openai.
      destruct (truthy (allowWebSearch options messages)); unfold run.
      * rewrite callResponsesAPIWithSearch_log, responses_url_openai.
        split; [discriminate|]. repeat constructor.
        cbn [fst url post]. unfold endpoint. cbn [String.eqb Ascii.eqb Bool.eqb].
        apply joinUrl_base; [apply getOpenAIBaseUrl_ends|reflexivity].
      * rewrite callOpenAICompatible_log, chat_url_openai.
        split; [discriminate|]. repeat constructor.
        cbn [fst url post]. unfold endpoint. cbn [String.eqb Ascii.eqb Bool.eqb].
        apply joinUrl_base; [apply getOpenAIBaseUrl_ends|reflexivity].
  - intros Hnot. rewrite (route_unknown _ _ _ _ _ _ _ _ Hnot). reflexivity.
Qed.

Lemma requests_go_to_endpoint_witness :
  snd (run (generateResponse ∅ Scenario.answers "grok" "key" "grok-4" "sys"
              Scenario.hello Scenario.search_on)) <> [] /\
  run (generateResponse ∅ Scenario.answers "gemini" "key" "m" "sys"
         Scenario.hello None)
  = (inl (Error "Unknown AI provider: gemini"), []).
Proof.
  split.
  - apply (proj1 (requests_go_to_endpoint ∅ Scenario.answers "grok" "key" "grok-4"
                    "sys" Scenario.hello Scenario.search_on)).
    cbn. tauto.
  - apply (proj2 (requests_go_to_endpoint ∅ Scenario.answers "gemini" "key" "m"
                    "sys" Scenario.hello None)).
    cbn. intuition discriminate.
Defined.

Lemma single_exchange_failure {A} up req who (k : Response -> M A) o0 req0 rest :
  (forall r lg, snd (k r lg) = lg) ->
  let m := bind (fetch up req)
             (fun r => if negb (ok r) then throw (api_error who r) else k r) in
  snd (run m) = (req0, o0) :: rest ->
  (forall why, o0 = Rejected why ->
               rest = [] /\ fst (run m) = inl (NetworkError why)) /\
  (forall r, o0 = Resolved r -> ok r = false ->
             rest = [] /\ fst (run m) = inl (api_error who r)).
Proof.
  intros Hk m. unfold m, run. rewrite bind_fetch. cbn [map].
  destruct (up [] req) as [why0|r0] eqn:Hout.
  - cbn [snd fst app]. intros Hlog. injection Hlog as _ <- <-. split.
    + intros why Hwhy. injection Hwhy as <-. split; reflexivity.
    + intros r Hr. discriminate Hr.
  - destruct (ok r0) eqn:Hok; cbn [negb].
    + rewrite Hk. cbn [app]. intros Hlog. injection Hlog as _ <- <-. split.
      * intros why Hwhy. discriminate Hwhy.
      * intros r Hr Hbad. injection Hr as <-. congruence.
    + cbn [snd fst app throw]. intros Hlog. injection Hlog as _ <- <-. split.
      * intros why Hwhy. discriminate Hwhy.
      * intros r Hr _. injection Hr as <-. split; reflexivity.
Qed.

Lemma round_step_not_ok st r :
  ok r = false -> round_step st (Resolved r) = Done (inl (api_error "moonshot" r)).
Proof. intros H. unfold round_step. rewrite H. reflexivity. Qed.

Lemma loop_trace_failure u apiKey model thinking fuel st rounds res req0 o0 rest :
  loop_trace u apiKey model thinking fuel st rounds res ->
  rounds = (req0, o0) :: rest ->
  (forall why, o0 = Rejected why -> rest = [] /\ res = inl (NetworkError why)) /\
  (forall r, o0 = Resolved r -> ok r = false ->
             rest = [] /\ res = inl (api_error "moonshot" r)).
Proof.
  intros Htr Hrounds. subst rounds.
  inversion Htr as [st0|fuel0 st0 out res0 Hstep|fuel0 st0 out st' rounds0 res0 Hstep Htr0];
    subst.
  - split.
    + intros why ->. cbn in Hstep. injection Hstep as <-. split; reflexivity.
    + intros r -> Hbad. rewrite (round_step_not_ok _ _ Hbad) in Hstep.
      injection Hstep as <-. split; reflexivity.
  - split.
    + intros why ->. cbn in Hstep. discriminate Hstep.
    + intros r -> Hbad. rewrite (round_step_not_ok _ _ Hbad) in Hstep.
      discriminate Hstep.
Qed.

(** X5. A call gives up at the first failure: when the upstream rejects the
    first request or answers it with a status that is not ok, no further
    request is sent and the call throws, the transport failure in the first
    case and "<name> API error: <status> - <body>" in the second, the name
    being "Claude" for the provider "claude" and the provider otherwise. *)
Theorem first_failure_is_final
    env up provider apiKey model systemPrompt messages options req0 o0 rest :
  let out := run (generateResponse env up provider apiKey model systemPrompt
                    messages options) in
  In provider known_providers ->
  snd out = (req0, o0) :: rest ->
  (forall why, o0 = Rejected why ->
               rest = [] /\ fst out = inl (NetworkError why)) /\
  (forall r, o0 = Resolved r -> ok r = false ->
             rest = [] /\ fst out = inl (api_error (error_prefix provider) r)).
Proof.
  cbv zeta. intros Hin. apply known_cases in Hin.
  assert (forall (p : Payload -> M AIResponse) r lg,
            (forall d lg', snd (p d lg') = lg') -> snd (p (json r) lg) = lg)
    as Hpure by (intros p r lg H; apply H).
  destruct Hin as [-> | [-> | [-> | ->]]].
  - rewrite route_claude. unfold callClaude.
    apply single_exchange_failure. intros r lg. destruct (json r); reflexivity.
  - rewrite route_moonshot.
    destruct (truthy (allowWebSearch options messages)).
    + apply loop_trace_failure with (1 := callMoonshotWithSearch_trace up apiKey
        model systemPrompt messages (options ≫= thinking)).
    + unfold callOpenAICompatible. rewrite chat_url_moonshot.
      apply single_exchange_failure. intros r lg. destruct (json r); reflexivity.
  - rewrite route_grok.
    destruct (truthy (allowWebSearch options messages)).
    + unfold callResponsesAPIWithSearch. rewrite responses_url_grok.
      apply single_exchange_failure. intros r lg. destruct (json r); reflexivity.
    + unfold callOpenAICompatible. rewrite chat_url_grok.
      apply single_exchange_failure. intros r lg. destruct (json r); reflexivity.
  - rewrite route_openai.
    destruct (truthy (allowWebSearch options messages)).
    + unfold callResponsesAPIWithSearch. rewrite responses_url_openai.
      apply single_exchange_failure. intros r lg. destruct (json r); reflexivity.
    + unfold callOpenAICompatible. rewrite chat_url_openai.
      apply single_exchange_failure. intros r lg. destruct (json r); reflexivity.
Qed.

Lemma first_failure_is_final_witness :
  ([] : list Exchange) = [] /\
  fst (run (generateResponse ∅ Outage.refuses "claude" "key" "claude-sonnet" "sys"
              Scenario.hello None))
  = inl (api_error (error_prefix "claude") Outage.refusal).
Proof.
  apply (proj2 (first_failure_is_final ∅ Outage.refuses "claude" "key"
                  "claude-sonnet" "sys" Scenario.hello None
                  (claude_request "key" "claude-sonnet" "sys" Scenario.hello)
                  (Resolved Outage.refusal) []
                  ltac:(cbn; tauto) eq_refl) Outage.refusal eq_refl eq_refl).
Defined.

(** ** The [thinking] parameter *)

Lemma json_lookup_app_miss key ps qs :
  json_lookup key ps = None -> json_lookup key (ps ++ qs) = json_lookup key qs.
Proof.
  induction ps as [|[k v] ps IH]; [reflexivity|].
  cbn [json_lookup app]. destruct (String.eqb k key); [discriminate|exact IH].
Qed.

Lemma thinking_of_field u hs ps t :
  json_lookup "thinking" ps = None ->
  thinking_of (post u hs (JObj (ps ++ thinking_field t)))
  = option_map (fun mode => JObj [("type", JStr (thinking_name mode))]) t.
Proof.
  intros H. unfold thinking_of, post. cbn [body mbind option_bind json_field].
  rewrite (json_lookup_app_miss _ _ _ H). destruct t; reflexivity.
Qed.

(** X6. The [thinking] option reaches the provider "moonshot" only: every
    request of a call for "moonshot", on the plain path and in every round
    of the tool-call loop, carries [thinking: { type: <mode> }] when the
    option is set and no [thinking] property when it is not; the requests
    for every other provider carry none, whatever the option says. *)
Theorem thinking_reaches_moonshot_only
    env up provider apiKey model systemPrompt messages options :
  Forall (fun x =>
            thinking_of (fst x)
            = if String.eqb provider "moonshot"
              then option_map
                     (fun mode => JObj [("type", JStr (thinking_name mode))])
                     (options ≫= thinking)
              else None)
    (snd (run (generateResponse env up provider apiKey model systemPrompt
                 messages options))).
Proof.
  destruct (String.eqb_spec provider "claude") as [->|H1].
  { rewrite route_claude. unfold run. rewrite callClaude_log. repeat constructor. }
  destruct (String.eqb_spec provider "moonshot") as [->|H2].
  { rewrite route_moonshot.
    destruct (truthy (allowWebSearch options messages)).
    - pose proof (callMoonshotWithSearch_trace up apiKey model systemPrompt
                    messages (options ≫= thinking)) as Htr.
      apply loop_trace_requests in Htr.
      eapply Forall_impl; [exact Htr|].
      intros x (msgs & Hreq). rewrite Hreq. unfold tool_request.
      apply thinking_of_field. reflexivity.
    - unfold run. rewrite callOpenAICompatible_log, chat_url_moonshot.
      repeat constructor. cbn [fst app]. unfold chat_payload.
      cbn [String.eqb Ascii.eqb Bool.eqb].
      apply thinking_of_field. reflexivity. }
  destruct (String.eqb_spec provider "grok") as [->|H3].
  { rewrite route_grok.
    destruct (truthy (allowWebSearch options messages)); unfold run.
    - rewrite callResponsesAPIWithSearch_log, responses_url_grok.
      repeat constructor.
    - rewrite callOpenAICompatible_log, chat_url_grok. repeat constructor. }
  destruct (String.eqb_spec provider "openai") as [->|H4].
  { rewrite route_openai.
    destruct (truthy (allowWebSearch options messages)); unfold run.
    - rewrite callResponsesAPIWithSearch_log, responses_url_openai.
      repeat constructor.
    - rewrite callOpenAICompatible_log, chat_url_openai. repeat constructor. }
  rewrite route_unknown; [constructor|].
  cbn. intuition congruence.
Qed.

(** ** The requests of the tool-call loop *)





(** ** Base64 *)

Lemma fromCharCode_app a b :
  fromCharCode (a ++ b) = fromCharCode a +:+ fromCharCode b.
Proof.
  unfold fromCharCode. induction a as [|x a IH]; [reflexivity|].
  cbn [app map string_of_list_ascii]. rewrite IH. reflexivity.
Qed.

Lemma chunkSize_pos : (0 < chunkSize)%nat.
Proof. unfold chunkSize. lia. Qed.

Lemma binary_loop_rest bytes fuel :
  forall i binary,
    (length bytes < i + fuel)%nat ->
    binary_loop fuel bytes i binary = binary +:+ fromCharCode (skipn i bytes).
Proof.
  pose proof chunkSize_pos as Hpos.
  induction fuel as [|fuel IH]; intros i binary Hfuel.
  - rewrite skipn_all2 by lia. cbn. rewrite append_nil_r. reflexivity.
  - cbn [binary_loop]. destruct (Nat.ltb_spec i (length bytes)) as [Hlt|Hge].
    + rewrite IH by lia. rewrite append_assoc, <- fromCharCode_app.
      rewrite Nat.add_comm, <- skipn_skipn, firstn_skipn. reflexivity.
    + rewrite skipn_all2 by lia. cbn. rewrite append_nil_r. reflexivity.
Qed.

(** The encoder [toBase64] amounts to on a platform. *)
Lemma binary_loop_all bytes :
  binary_loop (S (length bytes)) bytes 0 "" = fromCharCode bytes.
Proof. rewrite binary_loop_rest by lia. reflexivity. Qed.

(** X8. Cutting the bytes into chunks of 0x8000 does not show: with [btoa],
    [toBase64] encodes the binary string of all the bytes in order, none
    lost and none repeated, whatever their number; without [btoa] it encodes
    the bytes with [Buffer]; without both it throws. *)
Theorem toBase64_chunks_unseen btoa buffer (bytes : list byte) :
  toBase64_platform btoa buffer bytes
  = match btoa, buffer with
    | Some encode, _ => inr (encode (fromCharCode bytes))
    | None, Some encode => inr (encode bytes)
    | None, None => inl (Error "Base64 encoding not supported in this environment")
    end.
Proof.
  unfold toBase64_platform. rewrite binary_loop_all.
  destruct btoa, buffer; reflexivity.
Qed.

(** ** The image resolver, when it succeeds *)





(** ** Classifying an upstream failure *)

Lemma toLowerCase_app a b :
  toLowerCase (a +:+ b) = toLowerCase a +:+ toLowerCase b.
Proof.
  induction a as [|c a IH]; [reflexivity|].
  rewrite append_cons. cbn [toLowerCase]. rewrite IH. reflexivity.
Qed.

Lemma lower_unit_idempotent c : lower_unit (lower_unit c) = lower_unit c.
Proof. destruct c as [[] [] [] [] [] [] [] []]; reflexivity. Qed.

Lemma toLowerCase_idempotent s : toLowerCase (toLowerCase s) = toLowerCase s.
Proof.
  induction s as [|c s IH]; [reflexivity|].
  cbn [toLowerCase]. rewrite lower_unit_idempotent, IH. reflexivity.
Qed.

Lemma prefix_nil s : String.prefix "" s = true.
Proof. destruct s; reflexivity. Qed.

Lemma prefix_app needle hay more :
  String.prefix needle hay = true -> String.prefix needle (hay +:+ more) = true.
Proof.
  revert hay. induction needle as [|c needle IH]; intros hay;
    [intros _; apply prefix_nil|].
  destruct hay as [|c' hay]; [discriminate|].
  rewrite append_cons. cbn [String.prefix].
  destruct (ascii_dec c c'); [apply IH|discriminate].
Qed.

Lemma includes_cons c hay needle :
  includes (String c hay) needle
  = String.prefix needle (String c hay) || includes hay needle.
Proof. reflexivity. Qed.

Lemma includes_app_r hay needle more :
  includes hay needle = true -> includes (hay +:+ more) needle = true.
Proof.
  induction hay as [|c hay IH].
  - cbn [includes]. rewrite orb_false_r. intros H.
    destruct needle; [|discriminate H].
    rewrite append_nil_l. destruct more; reflexivity.
  - rewrite append_cons, !includes_cons. intros [H|H]%orb_prop.
    + rewrite <- append_cons, (prefix_app _ _ _ H). reflexivity.
    + rewrite (IH H). apply orb_true_r.
Qed.

Lemma includes_app_l more hay needle :
  includes hay needle = true -> includes (more +:+ hay) needle = true.
Proof.
  intros H. induction more as [|c more IH]; [exact H|].
  rewrite append_cons, includes_cons, IH. apply orb_true_r.
Qed.

Lemma includes_embedded before hay after needle :
  includes hay needle = true ->
  includes (before +:+ hay +:+ after) needle = true.
Proof. intros H. apply includes_app_l, includes_app_r, H. Qed.

(** X10. The classifier of upstream failures looks for its phrases anywhere
    in the message and without regard to case: a message it accepts is still
    accepted with any text before and after it, in particular inside the
    "<name> API error: <status> - <body>" message an adapter throws for a
    body it accepts, and a message is accepted exactly when its lower-case
    form is. It accepts no message without "image" in it. *)
Theorem isImageUnsupportedError_anywhere (message : string) :
  isImageUnsupportedError (toLowerCase message) = isImageUnsupportedError message /\
  (isImageUnsupportedError message = true ->
   includes (toLowerCase message) "image" = true /\
   (forall before after,
      isImageUnsupportedError (before +:+ message +:+ after) = true) /\
   (forall who response,
      raw response = message ->
      exists thrown,
        api_error who response = Error thrown /\
        isImageUnsupportedError thrown = true)).
Proof.
  split.
  - unfold isImageUnsupportedError. rewrite toLowerCase_idempotent. reflexivity.
  - intros Hyes.
    assert (forall before after,
              isImageUnsupportedError (before +:+ message +:+ after) = true)
      as Hany.
    { intros before after. unfold isImageUnsupportedError in *.
      rewrite !toLowerCase_app.
      apply andb_prop in Hyes. destruct Hyes as [Himage Hphrase].
      rewrite (includes_embedded _ _ _ _ Himage). cbn [andb].
      repeat (apply orb_prop in Hphrase; destruct Hphrase as [Hphrase|Hphrase]);
        rewrite (includes_embedded _ _ _ _ Hphrase);
        rewrite ?orb_true_r; reflexivity. }
    split; [|split].
    + unfold isImageUnsupportedError in Hyes.
      apply andb_prop in Hyes. apply Hyes.
    + exact Hany.
    + intros who response <-. eexists. split; [reflexivity|].
      specialize (Hany (who +:+ " API error: "
                          +:+ string_of_number (status response) +:+ " - ") "").
      rewrite append_nil_r, !append_assoc in Hany. exact Hany.
Qed.

Lemma isImageUnsupportedError_anywhere_witness :
  isImageUnsupportedError
    ("moonshot API error: 400 - " +:+ "Image input is NOT supported" +:+ "")
  = true.
Proof.
  apply (proj1 (proj2 (proj2 (isImageUnsupportedError_anywhere
                                "Image input is NOT supported") eq_refl))).
Defined.

(** ** Reading the environment *)

(** X11. For a name that [Object.prototype] has no property for,
    [requireEnv] returns the value of a variable that is set to a non-empty
    string, and that value only; for a variable that is unset or empty it
    throws an error that names the variable. *)
Theorem requireEnv_reads (env : gmap string string) (name : string) :
  on_prototype name = false ->
  (forall value,
     requireEnv env name = inr value <-> env !! name = Some value /\ value <> "") /\
  (forall e,
     requireEnv env name = inl e ->
     e = Error ("Missing required environment variable: " +:+ name) /\
     (env !! name = None \/ env !! name = Some "")).
Proof.
  intros _. unfold requireEnv. split.
  - intros value. destruct (env !! name) as [v|]; [|split; [discriminate|]].
    + destruct v as [|c v]; cbn [truthy_string]; split.
      * discriminate.
      * intros [H Hne]. injection H as <-. contradiction Hne. reflexivity.
      * intros H. injection H as <-. split; [reflexivity|discriminate].
      * intros [H _]. injection H as <-. reflexivity.
    + intros [H _]. discriminate H.
  - intros e. destruct (env !! name) as [v|].
    + destruct v as [|c v]; cbn [truthy_string]; [|discriminate].
      intros H. injection H as <-. split; [reflexivity|right; reflexivity].
    + intros H. injection H as <-. split; [reflexivity|left; reflexivity].
Qed.

Lemma requireEnv_reads_witness :
  requireEnv {[ "AI_API_KEY" := "sk-1" ]} "AI_API_KEY" = inr "sk-1".
Proof.
  apply (proj2 (proj1 (requireEnv_reads {[ "AI_API_KEY" := "sk-1" ]} "AI_API_KEY"
                         eq_refl) "sk-1")).
  split; [reflexivity|discriminate].
Defined.

Lemma space_lower c : is_js_space (lower_unit c) = is_js_space c.
Proof. destruct c as [[] [] [] [] [] [] [] []]; reflexivity. Qed.

Lemma starts_in_lower s :
  starts_in is_js_space (toLowerCase s) = starts_in is_js_space s.
Proof. destruct s as [|c s]; [reflexivity|]. apply space_lower. Qed.

Lemma ends_in_lower s :
  ends_in is_js_space (toLowerCase s) = ends_in is_js_space s.
Proof.
  induction s as [|c s IH]; [reflexivity|].
  cbn [toLowerCase]. rewrite !ends_in_cons. destruct s as [|c' s].
  - apply space_lower.
  - exact IH.
Qed.

Lemma starts_in_app p s t : s <> "" -> starts_in p (s +:+ t) = starts_in p s.
Proof. destruct s; [congruence|reflexivity]. Qed.

(** White space around a value that neither starts nor ends with white
    space is what [trim] removes. *)
Lemma trim_padded before value after :
  all_in is_js_space before = true -> all_in is_js_space after = true ->
  value <> "" ->
  starts_in is_js_space value = false -> ends_in is_js_space value = false ->
  trim (before +:+ value +:+ after) = value.
Proof.
  intros Hb Ha Hne Hs He. unfold trim.
  rewrite (drop_leading_app_all _ _ _ Hb).
  rewrite drop_leading_fixed by (rewrite starts_in_app; assumption).
  rewrite (drop_trailing_app_all _ _ _ Ha).
  apply drop_trailing_fixed, He.
Qed.

Lemma thinking_name_clean mode :
  thinking_name mode <> "" /\
  starts_in is_js_space (thinking_name mode) = false /\
  ends_in is_js_space (thinking_name mode) = false.
Proof. destruct mode; repeat split; discriminate. Qed.

Lemma toLowerCase_nonempty s : toLowerCase s <> "" -> s <> "".
Proof. intros H ->. apply H. reflexivity. Qed.

(** X12. For a name that [Object.prototype] has no property for,
    [readOptionalThinkingEnv] is "disabled" for a variable that is unset or
    empty; it reads a mode whatever the case of its letters and the white
    space around it; and it throws for every other non-empty value, one of
    white space only included. *)
Theorem readOptionalThinkingEnv_reads (env : gmap string string) (name : string) :
  on_prototype name = false ->
  (env !! name = None \/ env !! name = Some "" ->
   readOptionalThinkingEnv env name = inr disabled) /\
  (forall before value after mode,
     env !! name = Some (before +:+ value +:+ after) ->
     all_in is_js_space before = true -> all_in is_js_space after = true ->
     toLowerCase value = thinking_name mode ->
     readOptionalThinkingEnv env name = inr mode) /\
  (forall value,
     env !! name = Some value -> value <> "" ->
     (forall mode, toLowerCase (trim value) <> thinking_name mode) ->
     readOptionalThinkingEnv env name
     = inl (Error ("Invalid value for environment variable: " +:+ name
                   +:+ ". Expected disabled, enabled, or auto."))).
Proof.
  intros _. unfold readOptionalThinkingEnv. split; [|split].
  - intros [-> | ->]; reflexivity.
  - intros before value after mode -> Hb Ha Hmode.
    destruct (thinking_name_clean mode) as (Hne & Hs & He).
    rewrite <- Hmode in Hne, Hs, He.
    apply toLowerCase_nonempty in Hne.
    rewrite starts_in_lower in Hs. rewrite ends_in_lower in He.
    rewrite (trim_padded before value after Hb Ha Hne Hs He), Hmode.
    assert (truthy_string (before +:+ value +:+ after) = true) as ->.
    { destruct before; [destruct value; [congruence|reflexivity]|reflexivity]. }
    destruct mode; reflexivity.
  - intros value -> Hne Hnone.
    destruct value as [|c value]; [congruence|]. cbn [truthy_string negb].
    cbv zeta.
    destruct (String.eqb_spec (toLowerCase (trim (String c value))) "disabled")
      as [H|_]; [contradiction (Hnone disabled)|].
    destruct (String.eqb_spec (toLowerCase (trim (String c value))) "enabled")
      as [H|_]; [contradiction (Hnone enabled)|].
    destruct (String.eqb_spec (toLowerCase (trim (String c value))) "auto")
      as [H|_]; [contradiction (Hnone auto)|].
    reflexivity.
Qed.

Lemma readOptionalThinkingEnv_reads_witness :
  readOptionalThinkingEnv {[ "AI_THINKING" := "  Enabled " ]} "AI_THINKING"
  = inr enabled /\
  readOptionalThinkingEnv {[ "AI_THINKING" := "   " ]} "AI_THINKING"
  = inl (Error ("Invalid value for environment variable: " +:+ "AI_THINKING"
                +:+ ". Expected disabled, enabled, or auto.")).
Proof.
  split.
  - apply (proj1 (proj2 (readOptionalThinkingEnv_reads
                           {[ "AI_THINKING" := "  Enabled " ]} "AI_THINKING"
                           eq_refl))
             "  " "Enabled" " " enabled); reflexivity.
  - apply (proj2 (proj2 (readOptionalThinkingEnv_reads
                           {[ "AI_THINKING" := "   " ]} "AI_THINKING" eq_refl))
             "   ");
      [reflexivity|discriminate|].
    intros mode. destruct mode; discriminate.
Defined.

(** ** The Telegram client *)

Lemma run_fetch_then {A} up req (k : Response -> M A) :
  run (bind (fetch up req) k)
  = match up [] req with
    | Rejected why => (inl (NetworkError why), [(req, Rejected why)])
    | Resolved r => k r [(req, Resolved r)]
    end.
Proof. unfold run. rewrite bind_fetch. reflexivity. Qed.

(** One request; the status decides between the parsed answer and
    "GitHub API error". *)
Lemma createGitHubIssue_run up token repo title text :
  let req := post ("https://api.github.com/repos/" +:+ repo +:+ "/issues")
               [("Content-Type", "application/json");
                ("Authorization", "Bearer " +:+ token);
                ("Accept", "application/vnd.github+json");
                ("X-GitHub-Api-Version", "2022-11-28");
                ("User-Agent", "nerdbot")]
               (JObj [("title", JStr title); ("body", JStr text)]) in
  run (createGitHubIssue up token repo title text)
  = (match up [] req with
     | Rejected why => inl (NetworkError why)
     | Resolved r =>
         if ok r
         then match json r with
              | PNotJson => inl SyntaxError
              | p => inr {| view := p; source := raw r |}
              end
         else inl (Error ("GitHub API error: " +:+ string_of_number (status r)
                          +:+ " - " +:+ raw r))
     end,
     [(req, up [] req)]).
Proof.
  cbv zeta. unfold createGitHubIssue. rewrite run_fetch_then.
  destruct (up [] _) as [why|r]; [reflexivity|].
  destruct (ok r); cbn [negb]; [|reflexivity].
  unfold parsed. destruct (json r); reflexivity.
Qed.

(** X13. What a client does with a status that is not ok depends on the
    function: [sendMessage] and [getFile] throw "Telegram API error:
    <status> - <body>", [downloadTelegramFile] throws "Telegram file
    download error: <status> - <body>" and [createGitHubIssue] throws
    "GitHub API error: <status> - <body>", while [sendChatAction] returns as
    if nothing had happened and [setWebhook] returns the parsed body. Each
    of them sends one request and does not try again. *)
Theorem client_status_handling
    up token chatId text options action thread webhookUrl secret fileId0
    path repo title issue (r : Response) :
  (forall earlier req, up earlier req = Resolved r) ->
  ok r = false ->
  let failure := string_of_number (status r) +:+ " - " +:+ raw r in
  fst (run (sendMessage up token chatId text options))
  = inl (Error ("Telegram API error: " +:+ failure)) /\
  fst (run (getFile up token fileId0))
  = inl (Error ("Telegram API error: " +:+ failure)) /\
  fst (run (downloadTelegramFile up token path))
  = inl (Error ("Telegram file download error: " +:+ failure)) /\
  fst (run (createGitHubIssue up token repo title issue))
  = inl (Error ("GitHub API error: " +:+ failure)) /\
  fst (run (sendChatAction up token chatId action thread)) = inr tt /\
  fst (run (setWebhook up token webhookUrl secret))
  = match json r with
    | PNotJson => inl SyntaxError
    | p => inr {| view := p; source := raw r |}
    end /\
  length (snd (run (sendMessage up token chatId text options))) = 1%nat /\
  length (snd (run (getFile up token fileId0))) = 1%nat /\
  length (snd (run (downloadTelegramFile up token path))) = 1%nat /\
  length (snd (run (createGitHubIssue up token repo title issue))) = 1%nat /\
  length (snd (run (sendChatAction up token chatId action thread))) = 1%nat /\
  length (snd (run (setWebhook up token webhookUrl secret))) = 1%nat.
Proof.
  intros Hup Hbad. cbv zeta.
  pose proof (createGitHubIssue_run up token repo title issue) as Hissue.
  cbv zeta in Hissue. rewrite Hissue, Hup, Hbad. clear Hissue.
  unfold sendMessage, getFile, downloadTelegramFile, sendChatAction, setWebhook,
    parsed, telegram_error.
  rewrite !run_fetch_then, !Hup, Hbad. cbn [negb fst snd throw ret length].
  repeat split; destruct (json r); reflexivity.
Qed.

Lemma client_status_handling_witness :
  fst (run (sendChatAction Outage.refuses "token" 7 None None)) = inr tt /\
  fst (run (sendMessage Outage.refuses "token" 7 "hi" None))
  = inl (Error "Telegram API error: 500 - boom") /\
  fst (run (createGitHubIssue Outage.refuses "token" "o/r" "t" "b"))
  = inl (Error "GitHub API error: 500 - boom").
Proof.
  destruct (client_status_handling Outage.refuses "token" 7 "hi" None None None
              "" "" "" "" "o/r" "t" "b" Outage.refusal
              (fun _ _ => eq_refl) eq_refl)
    as (Hsend & _ & _ & Hissue & Haction & _).
  split; [exact Haction|]. split; [exact Hsend|exact Hissue].
Defined.

Lemma json_lookup_app_hit key ps qs v :
  json_lookup key ps = Some v -> json_lookup key (ps ++ qs) = Some v.
Proof.
  induction ps as [|[k x] ps IH]; [discriminate|].
  cbn [json_lookup app]. destruct (String.eqb k key); [tauto|exact IH].
Qed.

(** X14. The body [sendMessage] sends always has [chat_id] and [text]; it
    has [message_thread_id] exactly when a thread id other than 0 is given,
    [reply_parameters] with its [message_id] exactly when a message id other
    than 0 is given, and [parse_mode] exactly when a parse mode is given.
    Likewise [sendChatAction] sends "typing" when no action is given and
    [message_thread_id] only for a thread id other than 0. *)
Theorem telegram_optional_fields
    up token chatId text options action thread :
  (exists out,
     snd (run (sendMessage up token chatId text options))
     = [(post (BASE_URL +:+ token +:+ "/sendMessage") json_headers
              (sendMessage_body chatId text options), out)]) /\
  (let body := sendMessage_body chatId text options in
   json_field "chat_id" body = Some (JNum chatId) /\
   json_field "text" body = Some (JStr text) /\
   json_field "message_thread_id" body
   = match options ≫= messageThreadId with
     | Some id => if id =? 0 then None else Some (JNum id)
     | None => None
     end /\
   json_field "reply_parameters" body
   = match options ≫= replyToMessageId with
     | Some id => if id =? 0 then None else Some (JObj [("message_id", JNum id)])
     | None => None
     end /\
   json_field "parse_mode" body
   = match options ≫= parseMode with
     | Some mode => Some (JStr (parse_mode_name mode))
     | None => None
     end) /\
  (exists out,
     snd (run (sendChatAction up token chatId action thread))
     = [(post (BASE_URL +:+ token +:+ "/sendChatAction") json_headers
              (sendChatAction_body chatId action thread), out)]) /\
  (let body := sendChatAction_body chatId action thread in
     json_field "chat_id" body = Some (JNum chatId) /\
     json_field "action" body
     = Some (JStr (match action with
                   | Some upload_document => "upload_document"
                   | _ => "typing"
                   end)) /\
     json_field "message_thread_id" body
     = match thread with
       | Some id => if id =? 0 then None else Some (JNum id)
       | None => None
       end).
Proof.
  split; [|split; [|split]].
  - unfold sendMessage. rewrite run_fetch_then.
    destruct (up [] _) as [why|r]; [eauto|].
    destruct (negb (ok r)); [eauto|].
    unfold parsed. destruct (json r); eauto.
  - cbv zeta. unfold sendMessage_body, truthy_number.
    destruct (options ≫= messageThreadId) as [t|]; [destruct (t =? 0)|];
      (destruct (options ≫= replyToMessageId) as [m|]; [destruct (m =? 0)|]);
      destruct (options ≫= parseMode) as [[]|]; repeat split.
  - unfold sendChatAction. rewrite run_fetch_then.
    destruct (up [] _) as [why|r]; eauto.
  - cbv zeta. unfold sendChatAction_body, truthy_number.
    destruct action as [[]|]; (destruct thread as [t|]; [destruct (t =? 0)|]);
      repeat split.
Qed.

(** ** The conversation as the providers see it *)

Lemma text_parts_agree parts :
  existsb is_image parts = false ->
  contentForClaude (Parts parts) = toOpenAIContent (Parts parts).
Proof.
  intros H. cbn [contentForClaude toOpenAIContent]. f_equal.
  induction parts as [|part parts IH]; [reflexivity|].
  cbn [existsb] in H. apply orb_false_elim in H. destruct H as [Hpart Hparts].
  cbn [map]. rewrite (IH Hparts).
  destruct part; [reflexivity|discriminate Hpart].
Qed.

(** X15. The converted conversation has one message per message of the
    caller's, in the same order and with the same role, whatever the
    provider; and for a conversation without an image part the messages sent
    to the message API are the messages sent, behind the system message, to
    the chat-completions providers. *)
Theorem conversation_as_sent (convert : Content -> Json)
    (messages : list ConversationMessage) :
  map (json_field "role") (convert_messages convert messages)
  = map (fun m => Some (JStr (role_name (role m)))) messages /\
  map (json_field "content") (convert_messages convert messages)
  = map (fun m => Some (convert (content m))) messages /\
  (hasImage messages = false ->
   convert_messages contentForClaude messages
   = convert_messages toOpenAIContent messages).
Proof.
  split; [|split].
  - unfold convert_messages. rewrite map_map. reflexivity.
  - unfold convert_messages. rewrite map_map. reflexivity.
  - unfold convert_messages, hasImage.
    induction messages as [|m messages IH]; [reflexivity|].
    cbn [existsb map]. intros H.
    apply orb_false_elim in H. destruct H as [Hm Hrest].
    rewrite (IH Hrest). f_equal.
    destruct (content m) as [s|parts]; [reflexivity|].
    rewrite (text_parts_agree parts Hm). reflexivity.
Qed.

Lemma conversation_as_sent_witness :
  convert_messages contentForClaude Scenario.hello
  = convert_messages toOpenAIContent Scenario.hello.
Proof.
  apply (proj2 (proj2 (conversation_as_sent toOpenAIContent Scenario.hello))).
  reflexivity.
Defined.

(** ** The logger *)

Lemma value_of_notin key props :
  ~ In key (map fst props) -> Logger.value_of key props = None.
Proof.
  induction props as [|[k v] props IH]; [reflexivity|].
  cbn [map fst In Logger.value_of]. intros Hnot.
  destruct (String.eqb_spec k key) as [->|_]; [tauto|]. apply IH. tauto.
Qed.

Lemma value_of_in key v props :
  List.NoDup (map fst props) -> In (key, v) props -> Logger.value_of key props = Some v.
Proof.
  induction props as [|[k x] props IH]; [intros _ []|].
  cbn [map fst In Logger.value_of]. intros Hnd [Heq|Hin].
  - injection Heq as -> ->. rewrite String.eqb_refl. reflexivity.
  - apply List.NoDup_cons_iff in Hnd. destruct Hnd as [Hk Hnd].
    destruct (String.eqb_spec k key) as [->|_].
    + contradiction Hk. apply (in_map fst _ _ Hin).
    + apply IH; assumption.
Qed.

Lemma value_of_some key v props :
  Logger.value_of key props = Some v -> In (key, v) props.
Proof.
  induction props as [|[k x] props IH]; [discriminate|].
  cbn [Logger.value_of In]. destruct (String.eqb_spec k key) as [->|_].
  - intros H. injection H as ->. left. reflexivity.
  - intros H. right. apply IH, H.
Qed.

Lemma value_of_permutation key props props' :
  List.NoDup (map fst props) -> Permutation props props' ->
  Logger.value_of key props' = Logger.value_of key props.
Proof.
  intros Hnd Hperm.
  assert (List.NoDup (map fst props')) as Hnd'.
  { eapply Permutation.Permutation_NoDup; [apply Permutation_map, Hperm|exact Hnd]. }
  destruct (Logger.value_of key props) as [v|] eqn:Hv.
  - apply value_of_in; [exact Hnd'|].
    eapply Permutation_in; [exact Hperm|]. apply value_of_some, Hv.
  - destruct (Logger.value_of key props') as [v'|] eqn:Hv'; [|reflexivity].
    apply value_of_some in Hv'.
    apply (Permutation_in _ (Permutation_sym Hperm)) in Hv'.
    rewrite (value_of_in _ _ _ Hnd Hv') in Hv. discriminate Hv.
Qed.

Lemma insert_index_permutation n p sorted :
  Permutation (map snd (Logger.insert_index n p sorted)) (p :: map snd sorted).
Proof.
  induction sorted as [|[m q] sorted IH]; [reflexivity|].
  cbn [Logger.insert_index]. destruct (n <=? m)%N; [reflexivity|].
  cbn [map snd]. rewrite IH. apply perm_swap.
Qed.

Lemma ordered_permutation props : Permutation (Logger.ordered props) props.
Proof.
  unfold Logger.ordered. induction props as [|p props IH]; [reflexivity|].
  cbn [Logger.indexed Logger.named List.filter].
  destruct (array_index (fst p)) as [n|].
  - rewrite insert_index_permutation. cbn [app]. apply perm_skip, IH.
  - rewrite <- Permutation_middle. apply perm_skip, IH.
Qed.

Lemma printed_field key log :
  List.NoDup (map fst (Logger.fields log)) ->
  json_field key (Logger.printed log)
  = Logger.value_of key (Logger.fields log) ≫= log_json.
Proof.
  intros Hnd. unfold Logger.printed. cbn [json_field].
  rewrite <- (value_of_permutation key _ _ Hnd
                (Permutation_sym (ordered_permutation (Logger.fields log)))).
  assert (List.NoDup (map fst (Logger.ordered (Logger.fields log)))) as Hnd'.
  { eapply Permutation.Permutation_NoDup; [|exact Hnd].
    apply Permutation_map, Permutation_sym, ordered_permutation. }
  revert Hnd'. generalize (Logger.ordered (Logger.fields log)). clear.
  induction l as [|[k v] l IH]; [reflexivity|].
  cbn [map fst]. intros Hnd. apply List.NoDup_cons_iff in Hnd.
  destruct Hnd as [Hk Hnd].
  cbn [omap list_omap Logger.value_of fst snd].
  destruct (String.eqb_spec k key) as [->|Hne].
  - destruct (log_json v) as [j|] eqn:Hj; cbn.
    + rewrite String.eqb_refl. rewrite Hj. reflexivity.
    + rewrite Hj, (IH Hnd), (value_of_notin _ _ Hk). reflexivity.
  - destruct (log_json v) as [j|]; cbn.
    + destruct (String.eqb_spec k key); [contradiction|]. apply IH, Hnd.
    + apply IH, Hnd.
Qed.

Lemma assign_keys key value props :
  (In key (map fst props) /\
   map fst (Logger.assign key value props) = map fst props) \/
  (~ In key (map fst props) /\
   map fst (Logger.assign key value props) = map fst props ++ [key]).
Proof.
  induction props as [|[k v] props IH]; [right; split; [intros []|reflexivity]|].
  cbn [Logger.assign map fst]. destruct (String.eqb_spec k key) as [->|Hne].
  - left. split; [left; reflexivity|reflexivity].
  - cbn [map fst In]. destruct IH as [[Hin ->]|[Hnot ->]].
    + left. split; [right; exact Hin|reflexivity].
    + right. split; [intros [?|?]; [congruence|tauto]|reflexivity].
Qed.

Lemma assign_nodup key value props :
  List.NoDup (map fst props) ->
  List.NoDup (map fst (Logger.assign key value props)).
Proof.
  intros Hnd. destruct (assign_keys key value props) as [[_ ->]|[Hnot ->]];
    [exact Hnd|].
  eapply Permutation.Permutation_NoDup; [apply Permutation_cons_append|].
  apply List.NoDup_cons; assumption.
Qed.

Lemma value_of_assign key value props :
  Logger.value_of key (Logger.assign key value props) = Some value.
Proof.
  induction props as [|[k v] props IH].
  - cbn. rewrite String.eqb_refl. reflexivity.
  - cbn [Logger.assign]. destruct (String.eqb_spec k key) as [->|Hne].
    + cbn. rewrite String.eqb_refl. reflexivity.
    + cbn. destruct (String.eqb_spec k key); [contradiction|]. exact IH.
Qed.

Lemma value_of_assign_other key value other props :
  other <> key ->
  Logger.value_of other (Logger.assign key value props)
  = Logger.value_of other props.
Proof.
  intros Hne. induction props as [|[k v] props IH].
  - cbn. destruct (String.eqb_spec key other); [congruence|reflexivity].
  - cbn [Logger.assign]. destruct (String.eqb_spec k key) as [->|Hk].
    + cbn. destruct (String.eqb_spec key other); [congruence|reflexivity].
    + cbn. rewrite IH. reflexivity.
Qed.

Lemma set_nodup key value log :
  List.NoDup (map fst (Logger.fields log)) ->
  List.NoDup (map fst (Logger.fields (Logger.set key value log))).
Proof.
  intros Hnd. unfold Logger.set.
  destruct (String.eqb key "__proto__" && Logger.plain log).
  - destruct value; exact Hnd.
  - apply assign_nodup, Hnd.
Qed.

Lemma after_nodup sets :
  forall log,
    List.NoDup (map fst (Logger.fields log)) ->
    List.NoDup (map fst (Logger.fields (Logger.after sets log))).
Proof.
  unfold Logger.after.
  induction sets as [|[k v] sets IH]; intros log Hnd; [exact Hnd|].
  cbn [fold_left fst snd]. apply IH, set_nodup, Hnd.
Qed.

Lemma createLogger_nodup event :
  List.NoDup (map fst (Logger.fields (createLogger event))).
Proof. repeat constructor. intros []. Qed.

(** X16. A logger prints, for a key other than "__proto__", the value the
    last [set] of that key gave it, and no property when that value is
    [undefined]; a [set] changes what is printed for no other key. Setting
    "__proto__" on a logger whose fields still have their prototype prints
    nothing for it. A fresh logger prints its event. *)
Theorem logger_last_write_wins
    (event : string) (sets : list (string * LogValue))
    (key : string) (value : LogValue) :
  let log := Logger.after sets (createLogger event) in
  Logger.printed (createLogger event) = JObj [("event", JStr event)] /\
  (key <> "__proto__" ->
   json_field key (Logger.printed (Logger.set key value log)) = log_json value /\
   forall other,
     other <> key ->
     json_field other (Logger.printed (Logger.set key value log))
     = json_field other (Logger.printed log)) /\
  (Logger.plain log = true ->
   Logger.printed (Logger.set "__proto__" value log) = Logger.printed log).
Proof.
  cbv zeta.
  pose proof (after_nodup sets _ (createLogger_nodup event)) as Hnd.
  set (log := Logger.after sets (createLogger event)) in *.
  split; [reflexivity|]. split.
  - intros Hkey.
    assert (Logger.set key value log
            = {| Logger.fields := Logger.assign key value (Logger.fields log);
                 Logger.plain := Logger.plain log |}) as Hset.
    { unfold Logger.set.
      destruct (String.eqb_spec key "__proto__"); [contradiction|reflexivity]. }
    rewrite Hset. split.
    + rewrite printed_field by (apply assign_nodup, Hnd).
      cbn [Logger.fields]. rewrite value_of_assign. reflexivity.
    + intros other Hother.
      rewrite !printed_field by (try apply assign_nodup; exact Hnd).
      cbn [Logger.fields]. rewrite (value_of_assign_other _ _ _ _ Hother).
      reflexivity.
  - intros Hplain. unfold Logger.set. rewrite Hplain, String.eqb_refl.
    destruct value; reflexivity.
Qed.

Lemma logger_last_write_wins_witness :
  json_field "error"
    (Logger.printed
       (Logger.set "error" (LString "second")
          (Logger.after [("chatId", LNumber 7); ("error", LString "first")]
             (createLogger "process_message"))))
  = Some (JStr "second").
Proof.
  apply (proj1 (proj1 (proj2 (logger_last_write_wins "process_message"
                                [("chatId", LNumber 7); ("error", LString "first")]
                                "error" (LString "second")))
                  ltac:(discriminate))).
Defined.

(** ** Registering the webhook *)

Lemma act_bind_now {A B} (r : exn + A) (k : A -> Action B) w :
  act_bind (now r) k w = match r with inl e => (inl e, w) | inr a => k a w end.
Proof. unfold act_bind, now. destruct r; reflexivity. Qed.

Lemma act_bind_await {A B} (m : M A) (k : A -> Action B) w :
  act_bind (await m) k w
  = match m (exchanges w) with
    | (inl e, lg) => (inl e, {| exchanges := lg; console := console w |})
    | (inr a, lg) => k a {| exchanges := lg; console := console w |}
    end.
Proof.
  unfold act_bind, await. destruct (m (exchanges w)) as [[e|a] lg]; reflexivity.
Qed.

(** X17. [registerWebhook] needs [TELEGRAM_BOT_TOKEN],
    [TELEGRAM_WEBHOOK_SECRET] and [CONVEX_SITE_URL], asked for in that
    order: when one is unset or empty it throws for the first such and
    sends and prints nothing. Otherwise it sends one request, [setWebhook]
    with the URL "<CONVEX_SITE_URL>/api/telegram-webhook" and the secret;
    when the answer parses, whatever its status, it returns it and prints
    one line with the event, the URL and the answer; when the request is
    rejected or the answer does not parse it throws and prints nothing. *)
Theorem registerWebhook_runs canonical (env : gmap string string) (up : Upstream) :
  let out := registerWebhook canonical env up quiet in
  (forall e, requireEnv env "TELEGRAM_BOT_TOKEN" = inl e -> out = (inl e, quiet)) /\
  (forall token e,
     requireEnv env "TELEGRAM_BOT_TOKEN" = inr token ->
     requireEnv env "TELEGRAM_WEBHOOK_SECRET" = inl e -> out = (inl e, quiet)) /\
  (forall token secret e,
     requireEnv env "TELEGRAM_BOT_TOKEN" = inr token ->
     requireEnv env "TELEGRAM_WEBHOOK_SECRET" = inr secret ->
     requireEnv env "CONVEX_SITE_URL" = inl e -> out = (inl e, quiet)) /\
  (forall token secret site,
     requireEnv env "TELEGRAM_BOT_TOKEN" = inr token ->
     requireEnv env "TELEGRAM_WEBHOOK_SECRET" = inr secret ->
     requireEnv env "CONVEX_SITE_URL" = inr site ->
     let webhookUrl := site +:+ "/api/telegram-webhook" in
     let req := post (BASE_URL +:+ token +:+ "/setWebhook") json_headers
                  (JObj [("url", JStr webhookUrl);
                         ("secret_token", JStr secret);
                         ("allowed_updates", JArr [JStr "message"]);
                         ("max_connections", JNum 40)]) in
     exchanges (snd out) = [(req, up [] req)] /\
     match up [] req with
     | Rejected why => fst out = inl (NetworkError why) /\ console (snd out) = []
     | Resolved r =>
         match json r with
         | PNotJson => fst out = inl SyntaxError /\ console (snd out) = []
         | p =>
             fst out = inr {| view := p; source := raw r |} /\
             console (snd out)
             = [(LevelLog,
                 JObj [("event", JStr "register_webhook");
                       ("url", JStr webhookUrl);
                       ("result", JStr (canonical (raw r)))])]
         end
     end).
Proof.
  cbv zeta. unfold registerWebhook. repeat apply conj.
  - intros e H. rewrite act_bind_now, H. reflexivity.
  - intros token e H1 H2. rewrite act_bind_now, H1, act_bind_now, H2. reflexivity.
  - intros token secret e H1 H2 H3.
    rewrite act_bind_now, H1, act_bind_now, H2, act_bind_now, H3. reflexivity.
  - intros token secret site H1 H2 H3.
    rewrite act_bind_now, H1, act_bind_now, H2, act_bind_now, H3.
    rewrite act_bind_await. unfold setWebhook. cbn [exchanges quiet].
    rewrite bind_fetch. cbn [map].
    destruct (up [] _) as [why|r]; [split; [reflexivity|split; reflexivity]|].
    unfold parsed. destruct (json r); split; try reflexivity; split; reflexivity.
Qed.

Lemma registerWebhook_runs_witness :
  registerWebhook (fun text => text) ∅ Scenario.answers quiet
  = (inl (Error "Missing required environment variable: TELEGRAM_BOT_TOKEN"),
     quiet).
Proof.
  apply (proj1 (registerWebhook_runs (fun text => text) ∅ Scenario.answers)).
  reflexivity.
Defined.

(** ** Where the images are *)

(** X18. [hasImage] holds exactly when some message has an array as its
    content and an image part in that array; a message whose content is a
    string never counts, whatever the string says. *)
Theorem hasImage_iff (messages : list ConversationMessage) :
  hasImage messages = true <->
  exists m parts mediaType data,
    In m messages /\ content m = Parts parts /\
    In (ImagePart mediaType data) parts.
Proof.
  unfold hasImage. rewrite existsb_exists. split.
  - intros (m & Hm & Himage). destruct (content m) as [s|parts] eqn:Hc;
      [discriminate|].
    apply existsb_exists in Himage. destruct Himage as (part & Hpart & His).
    destruct part as [t|mediaType data]; [discriminate|].
    exists m, parts, mediaType, data. auto.
  - intros (m & parts & mediaType & data & Hm & Hc & Hpart).
    exists m. split; [exact Hm|]. rewrite Hc.
    apply existsb_exists. exists (ImagePart mediaType data). auto.
Qed.
